(** * dto-mapper: a shallow embedding of the mapping engine

    The development follows [src/dto.go] and the second revision of the same
    file, [src/unnamed/part_000].  The two revisions share every function;
    they differ in two places only:

    - [dto.go] guards direct assignment and implicit conversion by
      [!m.HasCustomFuncs() || !isCompositeKind(fk)]; [part_000] always
      attempts them;
    - [part_000] skips struct fields whose [dto] tag contains ["ignore"];
      [dto.go] never looks at tags.

    The engine is therefore written once, over a [revision] switch.

    Modelling decisions.
    - Types and values cover the predeclared booleans, integers and strings,
      defined (named) types, pointers, slices, maps and structs with exported
      fields; floating-point, complex, array, channel, function and interface
      types are outside the model.
    - A destination [reflect.Value] is an addressable slot; [toRv.Set] and the
      recursive calls mutate it in place.  The slot is threaded explicitly:
      every mapping function takes the current content of the destination and
      returns the new content together with the returned [error].  [Map]
      alone may hand over a destination that is not addressable, the value
      of an argument that is not a pointer: [mapValueUnaddressable] is the
      engine on such a destination.
    - Pointees are owned trees: sharing between the destination and the
      source is not represented.
    - Go leaves the iteration order of a map unspecified.  A map value is
      represented by its entries in the order [MapRange] yields them; the
      field map of a struct is a [gmap] and is ranged over in the order of
      [map_to_list].
    - Conversion and inspection closures are the closures built at
      registration time, already applied to the (immutable) mapper; they
      are functions of their arguments and do not panic.
    - A panic of the engine aborts the call: what it leaves in the
      destination is not represented.
    - [mapValue] takes a bound on the nesting of its recursive calls; the
      bound is shown not to matter beyond the nesting depth of the
      arguments.
    - [AssignableTo], [ConvertibleTo] and [Convert] belong to the Go runtime;
      the engine is parametrised over them by the class [Runtime].
    - [AddConvFunc] and [AddInspectFunc] are modelled from the point where
      the signature of the function has been read: function values, the
      [error] interface and [fmt] are outside the model, and with them
      [errorFromReflectValue] and the method [Error]. *)

From Stdlib Require Import ZArith Bool Ascii String List Lia.
From stdpp Require Import base option list strings gmap fin_maps.

Local Open Scope string_scope.
Local Open Scope list_scope.
#[local] Set Warnings "-register-all".

(** ** reflect: kinds, types and values *)

Module reflect.

(** [reflect.Kind]. *)
Inductive Kind : Set :=
  | Invalid | Bool
  | Int | Int8 | Int16 | Int32 | Int64
  | Uint | Uint8 | Uint16 | Uint32 | Uint64 | Uintptr
  | Float32 | Float64 | Complex64 | Complex128
  | Array | Chan | Func | Interface | Map | Ptr | Slice | String | Struct
  | UnsafePointer.

#[export] Instance Kind_eq_dec : EqDecision Kind.
Proof. solve_decision. Defined.

(** Predeclared scalar types of the modelled fragment. *)
Inductive Basic : Set :=
  | BBool
  | BInt | BInt8 | BInt16 | BInt32 | BInt64
  | BUint | BUint8 | BUint16 | BUint32 | BUint64
  | BString.

#[export] Instance Basic_eq_dec : EqDecision Basic.
Proof. solve_decision. Defined.

Definition basicKind (b : Basic) : Kind :=
  match b with
  | BBool => Bool
  | BInt => Int | BInt8 => Int8 | BInt16 => Int16 | BInt32 => Int32
  | BInt64 => Int64
  | BUint => Uint | BUint8 => Uint8 | BUint16 => Uint16 | BUint32 => Uint32
  | BUint64 => Uint64
  | BString => String
  end.

(** [reflect.Type]: the identity of a type is its structure; a defined type
    carries its name and its underlying type literal.  A struct field is
    [(Name, Type, Anonymous, Tag)] as in [reflect.StructField]; the tag is
    kept as the key/value pairs [StructTag.Lookup] reads. *)
Inductive Type_ : Set :=
  | TBasic (b : Basic)
  | TNamed (name : string) (underlying : Type_)
  | TPtr (elem : Type_)
  | TSlice (elem : Type_)
  | TMap (key elem : Type_)
  | TStruct (fields : list StructField)
with StructField : Set :=
  | mkField (Name : string) (Typ : Type_) (Anonymous : bool)
            (Tag : list (string * string)).

Definition Name (f : StructField) : string :=
  match f with mkField n _ _ _ => n end.
Definition Typ (f : StructField) : Type_ :=
  match f with mkField _ t _ _ => t end.
Definition Anonymous (f : StructField) : bool :=
  match f with mkField _ _ a _ => a end.
Definition Tag (f : StructField) : list (string * string) :=
  match f with mkField _ _ _ t => t end.

Fixpoint Type_eq_dec (a b : Type_) {struct a} : {a = b} + {a <> b}
with StructField_eq_dec (f g : StructField) {struct f} : {f = g} + {f <> g}.
Proof.
  - decide equality.
    + apply Basic_eq_dec.
    + apply string_dec.
    + apply (List.list_eq_dec StructField_eq_dec).
  - decide equality.
    + apply List.list_eq_dec. decide equality; apply string_dec.
    + apply Bool.bool_dec.
    + apply string_dec.
Defined.

#[export] Instance Type_eq : EqDecision Type_ := Type_eq_dec.

(** The underlying type literal and [Type.Kind]. *)
Fixpoint underlying (t : Type_) : Type_ :=
  match t with
  | TNamed _ u => underlying u
  | _ => t
  end.

Definition KindOf (t : Type_) : Kind :=
  match underlying t with
  | TBasic b => basicKind b
  | TNamed _ _ => Invalid
  | TPtr _ => Ptr
  | TSlice _ => Slice
  | TMap _ _ => Map
  | TStruct _ => Struct
  end.

(** [Type.Elem] and [Type.Key] panic on the kinds that have none: [None]. *)
Definition Elem (t : Type_) : option Type_ :=
  match underlying t with
  | TPtr e | TSlice e | TMap _ e => Some e
  | _ => None
  end.

Definition Key (t : Type_) : option Type_ :=
  match underlying t with
  | TMap k _ => Some k
  | _ => None
  end.

(** [Type.NumField] and [Type.Field(i)] for all [i], in declaration order;
    [None] where Go panics (the type is not a struct). *)
Definition Fields (t : Type_) : option (list StructField) :=
  match underlying t with
  | TStruct fs => Some fs
  | _ => None
  end.

(** [StructTag.Lookup]. *)
Fixpoint Lookup (tag : list (string * string)) (key : string) : option string :=
  match tag with
  | [] => None
  | (k, v) :: rest => if decide (k = key) then Some v else Lookup rest key
  end.

(** Runtime values.  Each value carries its type.  A nil pointer, slice or
    map has no content; the entries of a map are listed in iteration order. *)
Inductive Value : Set :=
  | VBool (t : Type_) (b : bool)
  | VInt (t : Type_) (z : Z)
  | VString (t : Type_) (s : string)
  | VPtr (t : Type_) (pointee : option Value)
  | VSlice (t : Type_) (elems : option (list Value))
  | VMap (t : Type_) (entries : option (list (Value * Value)))
  | VStruct (t : Type_) (fields : list Value).

Fixpoint Value_eq_dec (a b : Value) {struct a} : {a = b} + {a <> b}.
Proof.
  decide equality; try apply Type_eq_dec.
  - apply Bool.bool_dec.
  - apply Z.eq_dec.
  - apply string_dec.
  - decide equality.
  - decide equality. apply (List.list_eq_dec Value_eq_dec).
  - decide equality. apply List.list_eq_dec. decide equality.
  - apply (List.list_eq_dec Value_eq_dec).
Defined.

#[export] Instance Value_eq : EqDecision Value := Value_eq_dec.

(** [Value.Type]. *)
Definition TypeOf (v : Value) : Type_ :=
  match v with
  | VBool t _ | VInt t _ | VString t _ | VPtr t _ | VSlice t _ | VMap t _
  | VStruct t _ => t
  end.

(** The content of [v] seen at type [t]: what a slot of type [t] holds after
    [Set(v)]. *)
Definition withType (t : Type_) (v : Value) : Value :=
  match v with
  | VBool _ b => VBool t b
  | VInt _ z => VInt t z
  | VString _ s => VString t s
  | VPtr _ p => VPtr t p
  | VSlice _ l => VSlice t l
  | VMap _ m => VMap t m
  | VStruct _ fs => VStruct t fs
  end.

(** [Value.Set]: the slot keeps its static type. *)
Definition Set_ (slot v : Value) : Value := withType (TypeOf slot) v.

(** [reflect.Zero]: the zero value of shape [u], typed [t]. *)
Fixpoint zeroAs (t u : Type_) {struct u} : Value :=
  match u with
  | TBasic BBool => VBool t false
  | TBasic BString => VString t ""
  | TBasic _ => VInt t 0
  | TNamed _ u' => zeroAs t u'
  | TPtr _ => VPtr t None
  | TSlice _ => VSlice t None
  | TMap _ _ => VMap t None
  | TStruct fs =>
      VStruct t (List.map (fun f => match f with
                                    | mkField _ ft _ _ => zeroAs ft ft
                                    end) fs)
  end.

Definition Zero (t : Type_) : Value := zeroAs t t.

(** [Value.IsNil] for pointers, slices and maps. *)
Definition IsNil (v : Value) : bool :=
  match v with
  | VPtr _ None | VSlice _ None | VMap _ None => true
  | _ => false
  end.

(** [Value.Len] and [Value.Index] of a slice, [MapRange] of a map; [None]
    where Go panics. *)
Definition SliceElems (v : Value) : option (list Value) :=
  match v with
  | VSlice _ (Some l) => Some l
  | VSlice _ None => Some []
  | _ => None
  end.

Definition MapRange (v : Value) : option (list (Value * Value)) :=
  match v with
  | VMap _ (Some l) => Some l
  | VMap _ None => Some []
  | _ => None
  end.

Definition Len (v : Value) : option nat :=
  match v with
  | VSlice _ _ => length <$> SliceElems v
  | VMap _ _ => length <$> MapRange v
  | _ => None
  end.

Definition Index (v : Value) (i : nat) : option Value :=
  l ← SliceElems v; l !! i.

(** Assignment through [v.Index(i)]: it panics out of range, and a nil slice
    has no index in range. *)
Definition SetIndex (v : Value) (i : nat) (x : Value) : option Value :=
  match v with
  | VSlice t (Some l) =>
      if decide (i < length l)%nat then Some (VSlice t (Some (<[i:=x]> l)))
      else None
  | _ => None
  end.

(** [reflect.MakeSlice(t, n, n)]: [n] zero elements. *)
Definition MakeSlice (t : Type_) (n : nat) : option Value :=
  match underlying t with
  | TSlice e => Some (VSlice t (Some (replicate n (Zero e))))
  | _ => None
  end.

(** [reflect.MakeMapWithSize(t, n)]: an empty, non-nil map. *)
Definition MakeMapWithSize (t : Type_) (n : nat) : option Value :=
  match underlying t with
  | TMap _ _ => Some (VMap t (Some []))
  | _ => None
  end.

(** [Value.SetMapIndex]: overwrite the entry of an equal key, else add one. *)
Fixpoint setEntry (k v : Value) (l : list (Value * Value))
  : list (Value * Value) :=
  match l with
  | [] => [(k, v)]
  | (k', v') :: rest =>
      if decide (k' = k) then (k, v) :: rest else (k', v') :: setEntry k v rest
  end.

Definition SetMapIndex (m k v : Value) : option Value :=
  match m with
  | VMap t (Some l) => Some (VMap t (Some (setEntry k v l)))
  | _ => None
  end.

(** [Value.Field(i)] along a path of field indices, and its update. *)
Fixpoint FieldByIndex (v : Value) (path : list nat) : option Value :=
  match path with
  | [] => Some v
  | i :: rest =>
      match v with
      | VStruct _ fs => f ← fs !! i; FieldByIndex f rest
      | _ => None
      end
  end.

Fixpoint SetFieldByIndex (v : Value) (path : list nat) (x : Value)
  : option Value :=
  match path with
  | [] => Some x
  | i :: rest =>
      match v with
      | VStruct t fs =>
          f ← fs !! i;
          f' ← SetFieldByIndex f rest x;
          Some (VStruct t (<[i:=f']> fs))
      | _ => None
      end
  end.

End reflect.

(** ** strings.Contains *)

Module strings.

Fixpoint HasPrefix (s prefix : string) {struct prefix} : bool :=
  match prefix, s with
  | EmptyString, _ => true
  | String c p', String d s' => if decide (c = d) then HasPrefix s' p' else false
  | String _ _, EmptyString => false
  end.

Fixpoint Contains (s substr : string) : bool :=
  HasPrefix s substr ||
  match s with
  | EmptyString => false
  | String _ s' => Contains s' substr
  end.

End strings.

Import reflect.

(** ** Errors, outcomes, the runtime interface *)

(** The [error] values the engine sees: its own [ErrNoValidMapping]
    ([NoValidMappingError] in the second revision) and errors made by the
    registered functions, which may wrap another error. *)
Inductive error : Set :=
  | ErrNoValidMapping (ToType FromType : Type_)
  | ErrUser (msg : string) (wrapped : option error).

Fixpoint error_eq_dec (a b : error) {struct a} : {a = b} + {a <> b}.
Proof.
  decide equality; try apply Type_eq_dec.
  - decide equality.
  - apply string_dec.
Defined.

#[export] Instance error_eq : EqDecision error := error_eq_dec.

(** [errors.As(err, &ErrNoValidMapping{})], [err] possibly nil. *)
Fixpoint isNoValidMapping (e : error) : bool :=
  match e with
  | ErrNoValidMapping _ _ => true
  | ErrUser _ (Some e') => isNoValidMapping e'
  | ErrUser _ None => false
  end.

Definition errorsAsNoValidMapping (err : option error) : bool :=
  match err with
  | Some e => isNoValidMapping e
  | None => false
  end.

(** A call either returns, panics, or exhausts the recursion budget. *)
Inductive outcome (A : Type) : Type :=
  | Ret (a : A)
  | Panic
  | Exhausted.
Arguments Ret {A} a.
Arguments Panic {A}.
Arguments Exhausted {A}.

#[export] Instance outcome_bind : MBind outcome := fun A B f x =>
  match x with
  | Ret a => f a
  | Panic => Panic
  | Exhausted => Exhausted
  end.

(** A reflect operation that panics where it has no result. *)
Definition orPanic {A} (o : option A) : outcome A :=
  match o with
  | Some a => Ret a
  | None => Panic
  end.

(** What the engine asks of the Go runtime about a pair of types. *)
Class Runtime := {
  AssignableTo : Type_ -> Type_ -> bool;   (* [t.AssignableTo(u)] *)
  ConvertibleTo : Type_ -> Type_ -> bool;  (* [t.ConvertibleTo(u)] *)
  Convert : Value -> Type_ -> Value        (* [v.Convert(u)] *)
}.

(** ** The Mapper *)

(** The result of a mapping call: the destination slot and the error. *)
Definition result : Type := Value * option error.

Definition convertFuncClosure : Type := Value -> Value * option error.
(** An inspection closure receives the address of the destination: it
    returns the destination as it leaves it. *)
Definition inspectFuncClosure : Type := Value -> Value -> Value * option error.

(** A Go map keyed by [reflect.Type], as an association list without
    repeated keys. *)
Fixpoint tlookup {V} (m : list (Type_ * V)) (k : Type_) : option V :=
  match m with
  | [] => None
  | (k', v) :: rest => if decide (k' = k) then Some v else tlookup rest k
  end.

Fixpoint tinsert {V} (k : Type_) (v : V) (m : list (Type_ * V))
  : list (Type_ * V) :=
  match m with
  | [] => [(k, v)]
  | (k', v') :: rest =>
      if decide (k' = k) then (k, v) :: rest else (k', v') :: tinsert k v rest
  end.

Record Mapper := {
  convFunc : list (Type_ * list (Type_ * convertFuncClosure));
  postFunc : list (Type_ * list (Type_ * list inspectFuncClosure))
}.

(** [Mapper{}]. *)
Definition emptyMapper : Mapper := {| convFunc := []; postFunc := [] |}.

(** Marker type for functions with no receiver. *)
Definition nilRecvRfType : Type_ := TNamed "dto.nilRecvT" (TStruct []).

Definition structTag : string := "dto".

Definition isCompositeKind (k : Kind) : bool :=
  match k with
  | Struct | Slice | Map => true
  | _ => false
  end.

Definition HasCustomFuncs (m : Mapper) : bool :=
  Nat.ltb 0 (length (convFunc m) + length (postFunc m)).

(** [AddConvFunc], after the signature of [f] has been read: [inType] is
    [rt.In(0)], [outType] is [rt.Out(0)], [f] the registered closure. *)
Definition AddConvFunc (inType outType : Type_) (f : convertFuncClosure)
  (m : Mapper) : Mapper :=
  let inner := default [] (tlookup (convFunc m) inType) in
  {| convFunc := tinsert inType (tinsert outType f inner) (convFunc m);
     postFunc := postFunc m |}.

(** [AddInspectFunc], after the signature of [f] has been read: [inType] is
    [ft.In(0).Elem()], [fromType] is [ft.In(1)] or [nilRecvRfType]. *)
Definition AddInspectFunc (inType fromType : Type_) (f : inspectFuncClosure)
  (m : Mapper) : Mapper :=
  let inner := default [] (tlookup (postFunc m) inType) in
  let funcs := default [] (tlookup inner fromType) in
  {| convFunc := convFunc m;
     postFunc := tinsert inType (tinsert fromType (funcs ++ [f]) inner)
                   (postFunc m) |}.

(** ** The mapping engine *)

(** The two revisions of the source. *)
Inductive revision : Set :=
  | dto_go      (* src/dto.go *)
  | part_000.   (* src/unnamed/part_000 *)

(** [part_000]: [if tags, ok := fieldType.Tag.Lookup(structTag); ok
    { if strings.Contains(tags, "ignore") { continue } }]. *)
Definition skipsField (rev : revision) (fieldType : StructField) : bool :=
  match rev with
  | dto_go => false
  | part_000 =>
      match Lookup (Tag fieldType) structTag with
      | Some tags => strings.Contains tags "ignore"
      | None => false
      end
  end.

(** [dto.go]: [if !m.HasCustomFuncs() || !isCompositeKind(fk)] around steps
    2 and 3; [part_000] has no such condition. *)
Definition attemptsDirect (rev : revision) (m : Mapper) (fk : Kind) : bool :=
  match rev with
  | dto_go => negb (HasCustomFuncs m) || negb (isCompositeKind fk)
  | part_000 => true
  end.

(** [structValueMap]: a field is denoted by its index path from the struct
    being resolved. *)
Abbreviation structValueMap := (gmap string (list nat)).

(** Collect all struct fields (including anonymous) into a structValueMap.
    [rfValue] is the path of the struct whose type is [rfType]. *)
Fixpoint collectStructFields (rev : revision) (rfValue : list nat)
  (rfType : Type_) (fields : structValueMap) {struct rfType}
  : option structValueMap :=
  match rfType with
  | TNamed _ u => collectStructFields rev rfValue u fields
  | TStruct fs =>
      (fix loop (fs : list StructField) (i : nat) (fields : structValueMap)
         {struct fs} : option structValueMap :=
         match fs with
         | [] => Some fields
         | fieldType :: rest =>
             let fieldValue := rfValue ++ [i] in
             if skipsField rev fieldType then loop rest (S i) fields
             else
               match fieldType with
               | mkField name ft anonymous _ =>
                   if anonymous then
                     match collectStructFields rev fieldValue ft fields with
                     | Some fields' => loop rest (S i) fields'
                     | None => None
                     end
                   else loop rest (S i) (<[name:=fieldValue]> fields)
               end
         end) fs 0%nat fields
  | _ => None
  end.

(** The loop of [collectStructFields] over the fields from index [i] on. *)
Fixpoint collectFieldsFrom (rev : revision) (rfValue : list nat)
  (fs : list StructField) (i : nat) (fields : structValueMap)
  : option structValueMap :=
  match fs with
  | [] => Some fields
  | fieldType :: rest =>
      let fieldValue := rfValue ++ [i] in
      if skipsField rev fieldType then
        collectFieldsFrom rev rfValue rest (S i) fields
      else if Anonymous fieldType then
        match collectStructFields rev fieldValue (Typ fieldType) fields with
        | Some fields' => collectFieldsFrom rev rfValue rest (S i) fields'
        | None => None
        end
      else
        collectFieldsFrom rev rfValue rest (S i)
          (<[Name fieldType:=fieldValue]> fields)
  end.

Section Engine.

Context {RT : Runtime}.
Variable rev : revision.

(** Run inspect functions for (to-from) pair. *)
Fixpoint runFuncs (funcs : list inspectFuncClosure) (toRv fromRv : Value)
  : result :=
  match funcs with
  | [] => (toRv, None)
  | fun_ :: rest =>
      match fun_ toRv fromRv with
      | (toRv', Some err) => (toRv', Some err)
      | (toRv', None) => runFuncs rest toRv' fromRv
      end
  end.

Fixpoint runRecvTypes (toMap : list (Type_ * list inspectFuncClosure))
  (recvTypes : list Type_) (toRv fromRv : Value) : result :=
  match recvTypes with
  | [] => (toRv, None)
  | recvType :: rest =>
      match tlookup toMap recvType with
      | None => runRecvTypes toMap rest toRv fromRv
      | Some funcs =>
          match runFuncs funcs toRv fromRv with
          | (toRv', Some err) => (toRv', Some err)
          | (toRv', None) => runRecvTypes toMap rest toRv' fromRv
          end
      end
  end.

Definition runInspectFuncs (m : Mapper) (toRv fromRv : Value) : result :=
  match tlookup (postFunc m) (TypeOf toRv) with
  | None => (toRv, None)
  | Some toMap =>
      runRecvTypes toMap [TypeOf fromRv; nilRecvRfType] toRv fromRv
  end.

(** Run convert function for (to-from) pair.
    Returns (true, error) if a valid function was found, (false, nil)
    otherwise. *)
Definition runConvFuncs (m : Mapper) (toRv fromRv : Value)
  : Value * bool * option error :=
  match tlookup (convFunc m) (TypeOf fromRv) with
  | None => (toRv, false, None)
  | Some toMap =>
      match tlookup toMap (TypeOf toRv) with
      | Some convertFunc =>
          match convertFunc fromRv with
          | (_, Some err) => (toRv, true, Some err)
          | (val, None) => (Set_ toRv val, true, None)
          end
      | None => (toRv, false, None)
      end
  end.

(** The recursive call [m.mapValue]. *)
Variable rec : Value -> Value -> outcome result.

(** Map slices. *)
Fixpoint mapSliceLoop (n i : nat) (toRv fromRv : Value) : outcome result :=
  match n with
  | O => Ret (toRv, None)
  | S n' =>
      toElem ← orPanic (Index toRv i);
      fromElem ← orPanic (Index fromRv i);
      '(toElem', err) ← rec toElem fromElem;
      toRv' ← orPanic (SetIndex toRv i toElem');
      match err with
      | Some e => Ret (toRv', Some e)
      | None => mapSliceLoop n' (S i) toRv' fromRv
      end
  end.

Definition mapSlice (toRv fromRv : Value) : outcome result :=
  n ← orPanic (Len fromRv);
  fresh ← orPanic (MakeSlice (TypeOf toRv) n);
  mapSliceLoop n 0 (Set_ toRv fresh) fromRv.

(** Map maps. *)
Fixpoint mapMapLoop (mapIt : list (Value * Value)) (toRv : Value)
  : outcome result :=
  match mapIt with
  | [] => Ret (toRv, None)
  | (key, value) :: rest =>
      keyType ← orPanic (Key (TypeOf toRv));
      elemType ← orPanic (Elem (TypeOf toRv));
      '(toKey, err) ← rec (Zero keyType) key;
      match err with
      | Some e => Ret (toRv, Some e)
      | None =>
          '(toValue, err) ← rec (Zero elemType) value;
          match err with
          | Some e => Ret (toRv, Some e)
          | None =>
              toRv' ← orPanic (SetMapIndex toRv toKey toValue);
              mapMapLoop rest toRv'
          end
      end
  end.

Definition mapMap (toRv fromRv : Value) : outcome result :=
  n ← orPanic (Len fromRv);
  fresh ← orPanic (MakeMapWithSize (TypeOf toRv) n);
  mapIt ← orPanic (MapRange fromRv);
  mapMapLoop mapIt (Set_ toRv fresh).

(** Map structs. *)
Fixpoint mapStructsLoop (toFields : list (string * list nat))
  (fromFields : structValueMap) (toRv fromRv : Value) : outcome result :=
  match toFields with
  | [] => Ret (toRv, None)
  | (fieldName, toPath) :: rest =>
      match fromFields !! fieldName with
      | None => mapStructsLoop rest fromFields toRv fromRv
      | Some fromPath =>
          toValue ← orPanic (FieldByIndex toRv toPath);
          fromValue ← orPanic (FieldByIndex fromRv fromPath);
          '(toValue', err) ← rec toValue fromValue;
          toRv' ← orPanic (SetFieldByIndex toRv toPath toValue');
          match err with
          | Some e => Ret (toRv', Some e)
          | None => mapStructsLoop rest fromFields toRv' fromRv
          end
      end
  end.

Definition mapStructs (toRv fromRv : Value) : outcome result :=
  toFields ← orPanic (collectStructFields rev [] (TypeOf toRv) ∅);
  fromFields ← orPanic (collectStructFields rev [] (TypeOf fromRv) ∅);
  mapStructsLoop (map_to_list toFields) fromFields toRv fromRv.

(** Map map values to slice. *)
Fixpoint mapMapToSliceLoop (mapIt : list (Value * Value)) (i : nat)
  (toRv : Value) : outcome result :=
  match mapIt with
  | [] => Ret (toRv, None)
  | (_, value) :: rest =>
      toElem ← orPanic (Index toRv i);
      '(toElem', err) ← rec toElem value;
      toRv' ← orPanic (SetIndex toRv i toElem');
      match err with
      | Some e => Ret (toRv', Some e)
      | None => mapMapToSliceLoop rest (S i) toRv'
      end
  end.

Definition mapMapToSlice (toRv fromRv : Value) : outcome result :=
  n ← orPanic (Len fromRv);
  fresh ← orPanic (MakeSlice (TypeOf toRv) n);
  mapIt ← orPanic (MapRange fromRv);
  mapMapToSliceLoop mapIt 0 (Set_ toRv fresh).

(** Map a map of slices to slice. *)
Fixpoint sumLen (mapIt : list (Value * Value)) : option nat :=
  match mapIt with
  | [] => Some 0%nat
  | (_, value) :: rest =>
      n ← Len value; s ← sumLen rest; Some (n + s)%nat
  end.

(** The inner loop [for j := 0; j < mapSlice.Len(); i, j = i+1, j+1]; [n]
    counts the iterations left.  Returns the destination, [i] and the
    error. *)
Fixpoint flattenInner (n j i : nat) (toRv mapSlice_ : Value)
  : outcome (Value * nat * option error) :=
  match n with
  | O => Ret (toRv, i, None)
  | S n' =>
      toElem ← orPanic (Index toRv i);
      fromElem ← orPanic (Index mapSlice_ j);
      '(toElem', err) ← rec toElem fromElem;
      toRv' ← orPanic (SetIndex toRv i toElem');
      match err with
      | Some e => Ret (toRv', i, Some e)
      | None => flattenInner n' (S j) (S i) toRv' mapSlice_
      end
  end.

Fixpoint flattenLoop (mapIt : list (Value * Value)) (i : nat) (toRv : Value)
  : outcome result :=
  match mapIt with
  | [] => Ret (toRv, None)
  | (_, mapSlice_) :: rest =>
      n ← orPanic (Len mapSlice_);
      '(toRv', i', err) ← flattenInner n 0 i toRv mapSlice_;
      match err with
      | Some e => Ret (toRv', Some e)
      | None => flattenLoop rest i' toRv'
      end
  end.

Definition mapMapSlicesToSlice (toRv fromRv : Value) : outcome result :=
  mapIt ← orPanic (MapRange fromRv);
  total ← orPanic (sumLen mapIt);
  fresh ← orPanic (MakeSlice (TypeOf toRv) total);
  flattenLoop mapIt 0 (Set_ toRv fresh).

(** Steps 2 and 3 of [mapValue]: direct assignment, then conversion.
    [None] when neither applies. *)
Definition directOrConvert (toRv fromRv : Value) : option Value :=
  if AssignableTo (TypeOf fromRv) (TypeOf toRv) then Some (Set_ toRv fromRv)
  else if ConvertibleTo (TypeOf fromRv) (TypeOf toRv)
       then Some (Set_ toRv (Convert fromRv (TypeOf toRv)))
       else None.

(** Steps 4 to 9 of [mapValue] and the final [ErrNoValidMapping]. *)
Definition mapComposite (toRv fromRv : Value) : outcome result :=
  let tk := KindOf (TypeOf toRv) in
  let fk := KindOf (TypeOf fromRv) in
  (* 4. Handle pointers by dereferencing from *)
  if decide (fk = Ptr) then
    match fromRv with
    | VPtr _ None => Ret (toRv, None)
    | VPtr _ (Some elem) => rec toRv elem
    | _ => Panic
    end
  (* 5. Handle pointers by dereferencing to *)
  else if decide (tk = Ptr) then
    match toRv with
    | VPtr t pointee =>
        elemType ← orPanic (Elem t);
        let toElem := default (Zero elemType) pointee in
        '(toElem', err) ← rec toElem fromRv;
        Ret (VPtr t (Some toElem'), err)
    | _ => Panic
    end
  (* 6. Handle structs *)
  else if decide (tk = Struct /\ fk = Struct) then mapStructs toRv fromRv
  (* 7. Handle slices *)
  else if decide (tk = Slice /\ fk = Slice) then mapSlice toRv fromRv
  (* 8. Handle maps *)
  else if decide (tk = Map /\ fk = Map) then mapMap toRv fromRv
  (* 9. Handle map to slice, then map of slices to slice *)
  else if decide (tk = Slice /\ fk = Map) then
    '(toRv1, err) ← mapMapToSlice toRv fromRv;
    mapElem ← orPanic (Elem (TypeOf fromRv));
    if errorsAsNoValidMapping err && bool_decide (KindOf mapElem = Slice)
    then
      '(toRv2, errFlatten) ← mapMapSlicesToSlice toRv1 fromRv;
      match errFlatten with
      | None => Ret (toRv2, None)
      | Some _ => Ret (toRv2, err)
      end
    else Ret (toRv1, err)
  else
    Ret (toRv, Some (ErrNoValidMapping (TypeOf toRv) (TypeOf fromRv))).

(** The body of [mapValue] up to its return statement. *)
Definition mapValueBody (m : Mapper) (toRv fromRv : Value) : outcome result :=
  let fk := KindOf (TypeOf fromRv) in
  (* 1. Check conversion functions *)
  match runConvFuncs m toRv fromRv with
  | (toRv', true, err) => Ret (toRv', err)
  | (_, false, _) =>
      match
        (if attemptsDirect rev m fk then directOrConvert toRv fromRv
         else None)
      with
      | Some toRv' => Ret (toRv', None)
      | None => mapComposite toRv fromRv
      end
  end.

(** The deferred function: inspect functions run when [returnError] is
    nil. *)
Definition deferInspect (m : Mapper) (fromRv : Value) (r : result) : result :=
  match r with
  | (toRv', Some err) => (toRv', Some err)
  | (toRv', None) => runInspectFuncs m toRv' fromRv
  end.

End Engine.

(** Try to map any value.  [depth] bounds the nesting of recursive calls. *)
Fixpoint mapValue `{RT : Runtime} (rev : revision) (depth : nat) (m : Mapper)
  (toRv fromRv : Value) : outcome result :=
  match depth with
  | O => Exhausted
  | S depth' =>
      r ← mapValueBody rev (mapValue rev depth' m) m toRv fromRv;
      Ret (deferInspect m fromRv r)
  end.

(** ** A destination that cannot be addressed

    [Map] hands [mapValue] the value of its argument when that is not a
    pointer: a [reflect.Value] that is not addressable.  [Value.Set] and
    [Value.Addr] panic on it; the pointee of a pointer it holds is
    addressable again. *)

Section Unaddressable.

Context {RT : Runtime}.
Variable rev : revision.

(** [runInspectFuncs]: [toRv.Addr()] panics as soon as there is a function
    to call. *)
Definition runInspectFuncsUnaddressable (m : Mapper) (toRv fromRv : Value)
  : outcome result :=
  match tlookup (postFunc m) (TypeOf toRv) with
  | None => Ret (toRv, None)
  | Some toMap =>
      if forallb (fun recvType =>
                    match tlookup toMap recvType with
                    | Some (_ :: _) => false
                    | _ => true
                    end) [TypeOf fromRv; nilRecvRfType]
      then Ret (toRv, None)
      else Panic
  end.

(** The recursive calls: [rec] on a destination that is not addressable,
    [recAddressable] on one that is. *)
Variable rec recAddressable : Value -> Value -> outcome result.

Definition mapCompositeUnaddressable (toRv fromRv : Value) : outcome result :=
  let tk := KindOf (TypeOf toRv) in
  let fk := KindOf (TypeOf fromRv) in
  (* 4. Handle pointers by dereferencing from *)
  if decide (fk = Ptr) then
    match fromRv with
    | VPtr _ None => Ret (toRv, None)
    | VPtr _ (Some elem) => rec toRv elem
    | _ => Panic
    end
  (* 5. Handle pointers by dereferencing to: [toRv.Set(reflect.New(...))]
     panics, [toRv.Elem()] is addressable *)
  else if decide (tk = Ptr) then
    match toRv with
    | VPtr t (Some toElem) =>
        '(toElem', err) ← recAddressable toElem fromRv;
        Ret (VPtr t (Some toElem'), err)
    | _ => Panic
    end
  (* 6. Handle structs: the fields of the struct are not addressable *)
  else if decide (tk = Struct /\ fk = Struct) then
    mapStructs rev rec toRv fromRv
  (* 7. to 9.: [toRv.Set(reflect.MakeSlice(...))] and
     [toRv.Set(reflect.MakeMapWithSize(...))] panic *)
  else if decide (tk = Slice /\ fk = Slice) then Panic
  else if decide (tk = Map /\ fk = Map) then Panic
  else if decide (tk = Slice /\ fk = Map) then Panic
  else
    Ret (toRv, Some (ErrNoValidMapping (TypeOf toRv) (TypeOf fromRv))).

Definition mapValueBodyUnaddressable (m : Mapper) (toRv fromRv : Value)
  : outcome result :=
  let fk := KindOf (TypeOf fromRv) in
  (* 1. Check conversion functions: the function is called, [toRv.Set(val)]
     panics *)
  match runConvFuncs m toRv fromRv with
  | (_, true, Some err) => Ret (toRv, Some err)
  | (_, true, None) => Panic
  | (_, false, _) =>
      (* 2. and 3.: [toRv.Set] panics *)
      match
        (if attemptsDirect rev m fk then directOrConvert toRv fromRv
         else None)
      with
      | Some _ => Panic
      | None => mapCompositeUnaddressable toRv fromRv
      end
  end.

End Unaddressable.

Fixpoint mapValueUnaddressable `{RT : Runtime} (rev : revision) (depth : nat)
  (m : Mapper) (toRv fromRv : Value) : outcome result :=
  match depth with
  | O => Exhausted
  | S depth' =>
      r ← mapValueBodyUnaddressable rev
            (mapValueUnaddressable rev depth' m) (mapValue rev depth' m)
            m toRv fromRv;
      match r with
      | (toRv', Some err) => Ret (toRv', Some err)
      | (toRv', None) => runInspectFuncsUnaddressable m toRv' fromRv
      end
  end.

(** ** Public helpers *)

(** Return reflect.Value with pointer removed (first layer only).  [None]
    is the zero [reflect.Value], which [Elem] returns for a nil pointer. *)
Definition reflectValueRemovePtr (v : Value) : outcome (option Value) :=
  if decide (KindOf (TypeOf v) = Ptr) then
    match v with
    | VPtr _ pointee => Ret pointee
    | _ => Panic
    end
  else Ret (Some v).

Module Mapper_.

(** The method [Map] of [Mapper]: transfers values from [from] to [to].
    The result is what the argument [to] holds, or points to, after the
    call.  [Type] of the zero [reflect.Value] panics. *)
Definition Map `{RT : Runtime} (rev : revision) (depth : nat) (m : Mapper)
  (to from : Value) : outcome result :=
  to' ← reflectValueRemovePtr to;
  from' ← reflectValueRemovePtr from;
  toRv ← orPanic to';
  fromRv ← orPanic from';
  if decide (KindOf (TypeOf to) = Ptr) then
    '(toRv', err) ← mapValue rev depth m toRv fromRv;
    Ret (VPtr (TypeOf to) (Some toRv'), err)
  else mapValueUnaddressable rev depth m toRv fromRv.

End Mapper_.

Module dto.

(** [Map] transfers values from [from] to [to] with a new Mapper. *)
Definition Map `{RT : Runtime} (rev : revision) (depth : nat)
  (to from : Value) : outcome result :=
  Mapper_.Map rev depth emptyMapper to from.

End dto.

(** ** The Go runtime on the modelled fragment

    [AssignableTo], [ConvertibleTo] and [Convert] as package [reflect]
    decides them ([directlyAssignable], [convertOp]) on the types of the
    fragment; [int] and [uint] are 64 bits wide. *)

Module goruntime.

(** [t.Name() != ""]: predeclared and defined types have a name. *)
Definition hasName (t : Type_) : bool :=
  match t with
  | TBasic _ | TNamed _ _ => true
  | _ => false
  end.

(** The type with every struct tag erased. *)
Fixpoint stripTags (t : Type_) : Type_ :=
  match t with
  | TBasic b => TBasic b
  | TNamed n u => TNamed n (stripTags u)
  | TPtr e => TPtr (stripTags e)
  | TSlice e => TSlice (stripTags e)
  | TMap k e => TMap (stripTags k) (stripTags e)
  | TStruct fs =>
      TStruct (List.map (fun f => match f with
                                  | mkField n ft a _ =>
                                      mkField n (stripTags ft) a []
                                  end) fs)
  end.

Definition haveIdenticalUnderlyingType (t v : Type_) (cmpTags : bool) : bool :=
  if cmpTags then bool_decide (underlying t = underlying v)
  else bool_decide (stripTags (underlying t) = stripTags (underlying v)).

Definition directlyAssignable (t v : Type_) : bool :=
  if decide (t = v) then true
  else if hasName t && hasName v then false
  else haveIdenticalUnderlyingType t v true.

Definition isInt (k : Kind) : bool :=
  match k with
  | Int | Int8 | Int16 | Int32 | Int64 => true
  | _ => false
  end.

Definition isUint (k : Kind) : bool :=
  match k with
  | Uint | Uint8 | Uint16 | Uint32 | Uint64 | Uintptr => true
  | _ => false
  end.

(** A slice of the predeclared element type of kind [k]. *)
Definition isSliceOf (k : Kind) (t : Type_) : bool :=
  match underlying t with
  | TSlice (TBasic b) => bool_decide (basicKind b = k)
  | _ => false
  end.

Definition convertible (src dst : Type_) : bool :=
  let sk := KindOf src in
  let dk := KindOf dst in
  ((isInt sk || isUint sk) && (isInt dk || isUint dk || bool_decide (dk = String)))
  || (bool_decide (sk = String) && (isSliceOf Uint8 dst || isSliceOf Int32 dst))
  || (bool_decide (dk = String) && (isSliceOf Uint8 src || isSliceOf Int32 src))
  || haveIdenticalUnderlyingType dst src false
  || (bool_decide (dk = Ptr) && negb (hasName dst)
      && bool_decide (sk = Ptr) && negb (hasName src)
      && match Elem dst, Elem src with
         | Some de, Some se => haveIdenticalUnderlyingType de se false
         | _, _ => false
         end).

(** Integer conversion: truncation to the width of the destination kind. *)
Definition bits (k : Kind) : Z :=
  match k with
  | Int8 | Uint8 => 8
  | Int16 | Uint16 => 16
  | Int32 | Uint32 => 32
  | _ => 64
  end.

Definition wrap (k : Kind) (z : Z) : Z :=
  let m := (2 ^ bits k)%Z in
  let r := (z mod m)%Z in
  if isInt k && (2 ^ (bits k - 1) <=? r)%Z then (r - m)%Z else r.

(** UTF-8. *)
Definition byte (z : Z) : ascii := ascii_of_N (Z.to_N z).
Definition code (c : ascii) : Z := Z.of_N (N_of_ascii c).

Definition validRune (r : Z) : bool :=
  ((0 <=? r) && (r <? 55296) || (57343 <? r) && (r <=? 1114111))%Z.

Definition encodeRune (r : Z) : list Z :=
  let r := if validRune r then r else 65533%Z in
  let cont (x : Z) := Z.lor 128 (Z.land x 63) in
  if (r <? 128)%Z then [r]
  else if (r <? 2048)%Z then [Z.lor 192 (Z.shiftr r 6); cont r]
  else if (r <? 65536)%Z then
    [Z.lor 224 (Z.shiftr r 12); cont (Z.shiftr r 6); cont r]
  else [Z.lor 240 (Z.shiftr r 18); cont (Z.shiftr r 12); cont (Z.shiftr r 6);
        cont r].

Definition between (lo x hi : Z) : bool := ((lo <=? x) && (x <=? hi))%Z.

(** [utf8.DecodeRune]: the rune and the number of bytes it takes; an invalid
    encoding is U+FFFD of width 1. *)
Definition decodeRune (l : list Z) : Z * nat :=
  let low (x : Z) := Z.land x 63 in
  match l with
  | [] => (65533%Z, 1%nat)
  | b0 :: rest =>
      if (b0 <? 128)%Z then (b0, 1%nat)
      else
        match rest with
        | b1 :: rest1 =>
            if between 194 b0 223 && between 128 b1 191 then
              (Z.lor (Z.shiftl (Z.land b0 31) 6) (low b1), 2%nat)
            else
              match rest1 with
              | b2 :: rest2 =>
                  let lo1 := if (b0 =? 224)%Z then 160%Z else 128%Z in
                  let hi1 := if (b0 =? 237)%Z then 159%Z else 191%Z in
                  if between 224 b0 239 && between lo1 b1 hi1
                     && between 128 b2 191 then
                    (Z.lor (Z.shiftl (Z.land b0 15) 12)
                       (Z.lor (Z.shiftl (low b1) 6) (low b2)), 3%nat)
                  else
                    match rest2 with
                    | b3 :: _ =>
                        let lo1 := if (b0 =? 240)%Z then 144%Z else 128%Z in
                        let hi1 := if (b0 =? 244)%Z then 143%Z else 191%Z in
                        if between 240 b0 244 && between lo1 b1 hi1
                           && between 128 b2 191 && between 128 b3 191 then
                          (Z.lor (Z.shiftl (Z.land b0 7) 18)
                             (Z.lor (Z.shiftl (low b1) 12)
                                (Z.lor (Z.shiftl (low b2) 6) (low b3))),
                           4%nat)
                        else (65533%Z, 1%nat)
                    | [] => (65533%Z, 1%nat)
                    end
              | [] => (65533%Z, 1%nat)
              end
        | [] => (65533%Z, 1%nat)
        end
  end.

Fixpoint decodeRunes (n : nat) (l : list Z) : list Z :=
  match n, l with
  | S n', _ :: _ =>
      let '(r, w) := decodeRune l in r :: decodeRunes n' (drop w l)
  | _, _ => []
  end.

Definition bytesOf (s : string) : list Z := code <$> list_ascii_of_string s.
Definition stringOf (l : list Z) : string :=
  string_of_list_ascii (byte <$> l).

Definition ints (l : list Value) : list Z :=
  (fun v => match v with VInt _ z => z | _ => 0%Z end) <$> l.

(** The content of [v] seen at a type of identical underlying structure:
    nested values take the nested types of [t]. *)
Fixpoint retype (t : Type_) (v : Value) {struct v} : Value :=
  let inner (e : option Type_) (x : Value) : Type_ :=
    default (TypeOf x) e in
  match v with
  | VPtr _ p =>
      VPtr t (match p with
              | Some x => Some (retype (inner (Elem t) x) x)
              | None => None
              end)
  | VSlice _ l =>
      VSlice t (match l with
                | Some xs =>
                    Some (List.map (fun x => retype (inner (Elem t) x) x) xs)
                | None => None
                end)
  | VMap _ l =>
      VMap t (match l with
              | Some xs =>
                  Some (List.map
                          (fun kv => match kv with
                                     | (k, x) =>
                                         (retype (inner (Key t) k) k,
                                          retype (inner (Elem t) x) x)
                                     end) xs)
              | None => None
              end)
  | VStruct _ fs =>
      VStruct t
        ((fix go (fts : list StructField) (fs : list Value) {struct fs}
            : list Value :=
            match fs, fts with
            | f :: fs', ft :: fts' => retype (Typ ft) f :: go fts' fs'
            | _, _ => fs
            end) (default [] (Fields t)) fs)
  | _ => withType t v
  end.

Definition convert (v : Value) (t : Type_) : Value :=
  let sk := KindOf (TypeOf v) in
  let dk := KindOf t in
  match v with
  | VInt _ z =>
      if decide (dk = String) then
        VString t (stringOf (encodeRune
                               (if between (-2147483648) z 2147483647 then z
                                else 65533%Z)))
      else VInt t (wrap dk z)
  | VString _ s =>
      if isSliceOf Uint8 t then
        VSlice t (Some (VInt (TBasic BUint8) <$> bytesOf s))
      else if isSliceOf Int32 t then
        VSlice t (Some (VInt (TBasic BInt32)
                          <$> decodeRunes (String.length s) (bytesOf s)))
      else retype t v
  | VSlice _ l =>
      if decide (dk = String) then
        if isSliceOf Uint8 (TypeOf v) then VString t (stringOf (ints (default [] l)))
        else VString t (stringOf (concat (encodeRune <$> ints (default [] l))))
      else retype t v
  | _ => retype t v
  end.

#[export] Instance go : Runtime := {|
  AssignableTo t u := directlyAssignable u t;
  ConvertibleTo t u := convertible t u;
  Convert := convert
|}.

End goruntime.

(** ** Views of the function tables *)

(** The conversion function registered for a (source, destination) pair. *)
Definition convFuncFor (m : Mapper) (fromType toType : Type_)
  : option convertFuncClosure :=
  toMap ← tlookup (convFunc m) fromType; tlookup toMap toType.

(** The inspection functions registered for a destination type under a
    receiver key, in the order of the stored slice. *)
Definition inspectFuncsFor (m : Mapper) (toType recvType : Type_)
  : list inspectFuncClosure :=
  default [] (toMap ← tlookup (postFunc m) toType; tlookup toMap recvType).

(** ** Auxiliary notions for the proofs *)

(** The kind of an underlying type literal. *)
Definition literalKind (u : Type_) : Kind :=
  match u with
  | TBasic b => basicKind b
  | TNamed _ _ => Invalid
  | TPtr _ => Ptr
  | TSlice _ => Slice
  | TMap _ _ => Map
  | TStruct _ => Struct
  end.

(** [r'] is [r], or [r] ran out of recursion budget. *)
Definition refines {A} (r r' : outcome A) : Prop :=
  r = Exhausted \/ r = r'.

(** The call did not run out of recursion budget. *)
Definition withinBudget {A} (r : outcome A) : bool :=
  match r with
  | Exhausted => false
  | _ => true
  end.

(** Nesting depth of a type: what a zero value of the type can make the
    engine descend through. *)
Fixpoint typeHeight (t : Type_) : nat :=
  match t with
  | TBasic _ => 0
  | TNamed _ u => typeHeight u
  | TPtr e | TSlice e => S (typeHeight e)
  | TMap k e => S (typeHeight k `max` typeHeight e)
  | TStruct fs =>
      S (max_list (List.map (fun f => match f with
                                      | mkField _ ft _ _ => typeHeight ft
                                      end) fs))
  end.

(** Nesting depth of a source value. *)
Fixpoint valueHeight (v : Value) : nat :=
  match v with
  | VPtr _ (Some p) => S (valueHeight p)
  | VSlice _ (Some l) => S (max_list (List.map valueHeight l))
  | VMap _ (Some l) =>
      S (max_list (List.map (fun kv => match kv with
                                       | (k, x) =>
                                           valueHeight k `max` valueHeight x
                                       end) l))
  | VStruct _ fs => S (max_list (List.map valueHeight fs))
  | _ => 0
  end.

(** Nesting depth of a destination slot: through the pointees and fields it
    holds, and through what its type lets the engine allocate. *)
Fixpoint slotHeight (v : Value) : nat :=
  match v with
  | VPtr t (Some p) => S (typeHeight t `max` slotHeight p)
  | VStruct t fs => S (typeHeight t `max` max_list (List.map slotHeight fs))
  | _ => S (typeHeight (TypeOf v))
  end.

(** Two field paths of which neither leads through the other. *)
Definition incomparable (p q : list nat) : Prop :=
  ~ p `prefix_of` q /\ ~ q `prefix_of` p.

Definition pairwiseIncomparable (l : list (string * list nat)) : Prop :=
  forall a b na pa nb pb,
    a <> b -> l !! a = Some (na, pa) -> l !! b = Some (nb, pb) ->
    incomparable pa pb.

(** A non-nil slice value of type [t] with [n] elements. *)
Definition sliceOfLen (t : Type_) (n : nat) (v : Value) : Prop :=
  exists l, v = VSlice t (Some l) /\ length l = n.

(** ** Field resolution, as the specification words it

    The fields of a struct in declaration order: a field excluded by the
    annotation (second revision only) is left out, an embedded field stands
    for the fields of its own struct type, collected recursively, and every
    other field stands under its declared name.  [None]: an embedded field
    whose type is not a struct. *)
Fixpoint resolvedFields (rev : revision) (path : list nat) (t : Type_)
  {struct t} : option (list (string * list nat)) :=
  match t with
  | TNamed _ u => resolvedFields rev path u
  | TStruct fs =>
      (fix loop (fs : list StructField) (i : nat) {struct fs}
         : option (list (string * list nat)) :=
         match fs with
         | [] => Some []
         | f :: rest =>
             if skipsField rev f then loop rest (S i)
             else
               match f with
               | mkField name ft anonymous _ =>
                   if anonymous then
                     inner ← resolvedFields rev (path ++ [i]) ft;
                     later ← loop rest (S i);
                     Some (inner ++ later)
                   else
                     later ← loop rest (S i);
                     Some ((name, path ++ [i]) :: later)
               end
         end) fs 0%nat
  | _ => None
  end.

Fixpoint resolvedFieldsFrom (rev : revision) (path : list nat)
  (fs : list StructField) (i : nat) : option (list (string * list nat)) :=
  match fs with
  | [] => Some []
  | f :: rest =>
      if skipsField rev f then resolvedFieldsFrom rev path rest (S i)
      else if Anonymous f then
        inner ← resolvedFields rev (path ++ [i]) (Typ f);
        later ← resolvedFieldsFrom rev path rest (S i);
        Some (inner ++ later)
      else
        later ← resolvedFieldsFrom rev path rest (S i);
        Some ((Name f, path ++ [i]) :: later)
  end.

(** Entering the fields into a field map one after the other. *)
Definition insertAll (fields : structValueMap) (l : list (string * list nat))
  : structValueMap :=
  foldl (fun m nv => <[nv.1:=nv.2]> m) fields l.

(** ** Element-wise mapping, as the specification words it

    Map each source into the slot at its position, in increasing order of
    position; abort with the first error, which leaves the failing slot as
    its mapping left it and the later slots as they were. *)
Fixpoint mapElementwise (rec : Value -> Value -> outcome result)
  (slots srcs : list Value) : outcome (list Value * option error) :=
  match slots, srcs with
  | [], [] => Ret ([], None)
  | slot :: slots', src :: srcs' =>
      '(d, err) ← rec slot src;
      match err with
      | Some e => Ret (d :: slots', Some e)
      | None =>
          '(ds, err') ← mapElementwise rec slots' srcs';
          Ret (d :: ds, err')
      end
  | _, _ => Panic
  end.

(** ** Notions for the further properties *)

(** The error [e] was returned by a function registered in [m]. *)
Definition returnedByFunction (m : Mapper) (e : error) : Prop :=
  (exists fromType toType f v,
     convFuncFor m fromType toType = Some f /\ (f v).2 = Some e)
  \/ (exists toType recvType f toRv fromRv,
        f ∈ inspectFuncsFor m toType recvType /\ (f toRv fromRv).2 = Some e).

(** Every error of the call satisfies [P]. *)
Definition errorsIn (P : error -> Prop) (r : outcome result) : Prop :=
  forall d e, r = Ret (d, Some e) -> P e.

(** The paths of distinct entries lead through one another nowhere. *)
Definition apart (l : list (string * list nat)) : Prop :=
  forall a b, a ∈ l -> b ∈ l -> a <> b -> incomparable a.2 b.2.

(** The declaration of the field at the end of an index path. *)
Fixpoint declAt (t : Type_) (path : list nat) : option StructField :=
  match path with
  | [] => None
  | i :: rest =>
      fs ← Fields t;
      f ← fs !! i;
      match rest with
      | [] => Some f
      | _ :: _ => declAt (Typ f) rest
      end
  end.

(** ** Well-typed values

    What Go's type system guarantees of the values the engine is given. *)

Definition isIntegerBasic (b : Basic) : bool :=
  match b with
  | BBool | BString => false
  | _ => true
  end.

(** The content of a value has the shape of its type, all the way down. *)
Fixpoint wellTyped (v : Value) : bool :=
  match v with
  | VBool t _ => bool_decide (underlying t = TBasic BBool)
  | VInt t _ =>
      match underlying t with
      | TBasic b => isIntegerBasic b
      | _ => false
      end
  | VString t _ => bool_decide (underlying t = TBasic BString)
  | VPtr t p =>
      match underlying t, p with
      | TPtr _, None => true
      | TPtr e, Some x => bool_decide (TypeOf x = e) && wellTyped x
      | _, _ => false
      end
  | VSlice t l =>
      match underlying t, l with
      | TSlice _, None => true
      | TSlice e, Some xs =>
          forallb (fun x => bool_decide (TypeOf x = e) && wellTyped x) xs
      | _, _ => false
      end
  | VMap t l =>
      match underlying t, l with
      | TMap _ _, None => true
      | TMap k e, Some xs =>
          forallb (fun kv => match kv with
                             | (key, x) =>
                                 bool_decide (TypeOf key = k) && wellTyped key
                                 && bool_decide (TypeOf x = e) && wellTyped x
                             end) xs
      | _, _ => false
      end
  | VStruct t fs =>
      match underlying t with
      | TStruct fts =>
          (fix go (fts : list StructField) (fs : list Value) {struct fs}
             : bool :=
             match fs, fts with
             | [], [] => true
             | f :: fs', ft :: fts' =>
                 bool_decide (TypeOf f = Typ ft) && wellTyped f && go fts' fs'
             | _, _ => false
             end) fts fs
      | _ => false
      end
  end.

(** [v] is a well-typed value of type [t]. *)
Definition hasType (t : Type_) (v : Value) : Prop :=
  TypeOf v = t /\ wellTyped v = true.

(** Field resolution does not panic on [t] nor on a type below it: an
    embedded field that the revision does not skip has a struct type. *)
Fixpoint resolvable (rev : revision) (t : Type_) : bool :=
  match t with
  | TBasic _ => true
  | TNamed _ u => resolvable rev u
  | TPtr e | TSlice e => resolvable rev e
  | TMap k e => resolvable rev k && resolvable rev e
  | TStruct fs =>
      forallb (fun f =>
                 skipsField rev f ||
                 match f with
                 | mkField _ ft a _ =>
                     resolvable rev ft
                     && (negb a || bool_decide (KindOf ft = Struct))
                 end) fs
  end.

(** The type of the field at the end of an index path. *)
Fixpoint fieldAt (t : Type_) (path : list nat) : option Type_ :=
  match path with
  | [] => Some t
  | i :: rest => fs ← Fields t; f ← fs !! i; fieldAt (Typ f) rest
  end.

(** The call did not panic, and it left in the destination a well-typed
    value of the type of the destination. *)
Definition typeSafe (toRv : Value) (r : outcome result) : Prop :=
  match r with
  | Ret (d, _) => hasType (TypeOf toRv) d
  | Panic => False
  | Exhausted => True
  end.

(** The registered functions return well-typed values of their declared
    types: Go's type system sees to it. *)
Definition functionsTyped (m : Mapper) : Prop :=
  (forall fromType toType f v,
     convFuncFor m fromType toType = Some f -> hasType fromType v ->
     match f v with
     | (val, None) => hasType toType val
     | (_, Some _) => True
     end)
  /\ (forall toType recvType f toRv fromRv,
        f ∈ inspectFuncsFor m toType recvType ->
        hasType toType toRv -> wellTyped fromRv = true ->
        hasType toType (f toRv fromRv).1).

(** The runtime assigns and converts well-typed values to well-typed
    values. *)
Definition soundRuntime (RT : Runtime) : Prop :=
  forall v t, wellTyped v = true ->
    (AssignableTo (TypeOf v) t = true -> wellTyped (withType t v) = true)
    /\ (ConvertibleTo (TypeOf v) t = true -> hasType t (Convert v t)).

(** [v] is well typed and field resolution does not panic on its type. *)
Definition safe (rev : revision) (v : Value) : Prop :=
  wellTyped v = true /\ resolvable rev (TypeOf v) = true.

(** [v] holds no pointee: the pointers in it and in its fields, at any
    depth, are nil. *)
Fixpoint holdsNoPointee (v : Value) : bool :=
  match v with
  | VPtr _ (Some _) => false
  | VStruct _ fs => forallb holdsNoPointee fs
  | _ => true
  end.

(** ** Example data, after the types of [dto_test.go] *)

Module examples.

Definition int : Type_ := TBasic BInt.
Definition string_ : Type_ := TBasic BString.
Definition field (name : string) (t : Type_) : StructField :=
  mkField name t false [].

(** [type Product struct { Name string; Country string; Price int }]
    (the price is an integer here). *)
Definition Product : Type_ :=
  TNamed "Product"
    (TStruct [field "Name" string_; field "Country" string_;
              field "Price" int]).

Definition shirt : Value :=
  VStruct Product [VString string_ "Shirt"; VString string_ "US"; VInt int 9].

Definition testError : error := ErrUser "Called!" None.

(** [m.AddConvFunc(func(s string) (string, error) { return "", testError })]
    of [TestDontSkipFunctions]. *)
Definition failingConv : convertFuncClosure :=
  fun _ => (VString string_ "", Some testError).

Definition mapperDontSkip : Mapper :=
  AddConvFunc string_ string_ failingConv emptyMapper.

(** [m.AddInspectFunc(func(v *int) error { return testError })]. *)
Definition failingInspect : inspectFuncClosure :=
  fun toRv _ => (toRv, Some testError).

Definition mapperInspectFails : Mapper :=
  AddInspectFunc int nilRecvRfType failingInspect emptyMapper.

Definition five : Value := VInt int 5.
Definition intPtr (p : option Value) : Value := VPtr (TPtr int) p.
Definition stringPtr (p : option Value) : Value := VPtr (TPtr string_) p.

(** [m.AddInspectFunc(func(name *string) error { return testError })] of
    [TestErrorPropagation]. *)
Definition mapperStringInspectFails : Mapper :=
  AddInspectFunc string_ nilRecvRfType failingInspect emptyMapper.

Definition int8 : Type_ := TBasic BInt8.
Definition ints (l : list Z) : Value :=
  VSlice (TSlice int) (Some (VInt int <$> l)).
Definition strings (l : list string) : Value :=
  VSlice (TSlice string_) (Some (VString string_ <$> l)).

(** [map[string][]int{"a": {1, 2}}] and a conversion function registered
    for it: [func(map[string][]int) []int { return []int{7} }]. *)
Definition stringToInts : Type_ := TMap string_ (TSlice int).
Definition grouped : Value :=
  VMap stringToInts (Some [(VString string_ "a", ints [1; 2]%Z)]).
Definition sevenConv : convertFuncClosure := fun _ => (ints [7%Z], None).
Definition mapperMapConv : Mapper :=
  AddConvFunc stringToInts (TSlice int) sevenConv emptyMapper.

(** [type Inner struct { Name string }] embedded with the tag
    [dto:"ignore"]: [struct { Inner `dto:"ignore"` }]. *)
Definition Inner : Type_ := TNamed "Inner" (TStruct [field "Name" string_]).
Definition ignoredEmbedding : Type_ :=
  TStruct [mkField "Inner" Inner true [("dto", "ignore")]].

(** [struct { Id string; X int `dto:"noignore"`; int `dto:"ignores"` }]:
    the last field is embedded and not a struct. *)
Definition taggedOrder : Type_ :=
  TStruct [field "Id" string_;
           mkField "X" int false [("dto", "noignore")];
           mkField "int" int true [("dto", "ignores")]].

(** [map[string][]int{"a": {1, 2}, "b": {3}}], ranged over in this
    order. *)
Definition groupedTwice : Value :=
  VMap stringToInts (Some [(VString string_ "a", ints [1; 2]%Z);
                           (VString string_ "b", ints [3%Z])]).

(** [struct { Name string; Link string }], the destination of
    [TestEmbedded] with nothing to fill [Link] from. *)
Definition NameAndLink : Type_ :=
  TStruct [field "Name" string_; field "Link" string_].
Definition nameAndLink : Value :=
  VStruct NameAndLink [VString string_ ""; VString string_ "/p/0"].

(** [[][]string{{"a"}}]. *)
Definition nestedStrings : Value :=
  VSlice (TSlice (TSlice string_)) (Some [strings ["a"]]).

End examples.

(** * Properties *)

(** ** The function tables *)

Lemma tlookup_tinsert_eq {V} (k : Type_) (v : V) m :
  tlookup (tinsert k v m) k = Some v.
Proof.
  induction m as [|[k' v'] m IH]; simpl.
  - by rewrite decide_True.
  - destruct (decide (k' = k)) as [->|Hne]; simpl.
    + by rewrite decide_True.
    + by rewrite decide_False.
Qed.

Lemma tlookup_tinsert_ne {V} (k k' : Type_) (v : V) m :
  k <> k' -> tlookup (tinsert k v m) k' = tlookup m k'.
Proof.
  intros Hne. induction m as [|[k0 v0] m IH]; simpl.
  - by rewrite decide_False.
  - destruct (decide (k0 = k)) as [->|Hne0]; simpl.
    + by rewrite !decide_False.
    + destruct (decide (k0 = k')); [done | apply IH].
Qed.

Lemma convFuncFor_AddConvFunc inType outType f m :
  convFuncFor (AddConvFunc inType outType f m) inType outType = Some f.
Proof.
  unfold convFuncFor, AddConvFunc; simpl.
  rewrite tlookup_tinsert_eq; simpl. apply tlookup_tinsert_eq.
Qed.

Lemma inspectFuncsFor_AddInspectFunc inType fromType f m :
  inspectFuncsFor (AddInspectFunc inType fromType f m) inType fromType =
  inspectFuncsFor m inType fromType ++ [f].
Proof.
  unfold inspectFuncsFor, AddInspectFunc; simpl.
  rewrite tlookup_tinsert_eq; simpl. rewrite tlookup_tinsert_eq; simpl.
  by destruct (tlookup (postFunc m) inType).
Qed.

Lemma inspectFuncsFor_AddInspectFunc_ne inType fromType f m toType recvType :
  (toType, recvType) <> (inType, fromType) ->
  inspectFuncsFor (AddInspectFunc inType fromType f m) toType recvType =
  inspectFuncsFor m toType recvType.
Proof.
  intros Hne. unfold inspectFuncsFor, AddInspectFunc; simpl.
  destruct (decide (inType = toType)) as [->|Ht].
  - rewrite tlookup_tinsert_eq; simpl.
    rewrite tlookup_tinsert_ne by congruence.
    by destruct (tlookup (postFunc m) toType).
  - by rewrite tlookup_tinsert_ne.
Qed.

Section Dispatch.

Context {RT : Runtime}.

Lemma runConvFuncs_found m toRv fromRv f :
  convFuncFor m (TypeOf fromRv) (TypeOf toRv) = Some f ->
  runConvFuncs m toRv fromRv =
  match f fromRv with
  | (_, Some err) => (toRv, true, Some err)
  | (val, None) => (Set_ toRv val, true, None)
  end.
Proof.
  unfold convFuncFor, runConvFuncs.
  destruct (tlookup (convFunc m) (TypeOf fromRv)) as [toMap|]; [|done].
  simpl. by intros ->.
Qed.

Lemma runConvFuncs_none m toRv fromRv :
  convFuncFor m (TypeOf fromRv) (TypeOf toRv) = None ->
  runConvFuncs m toRv fromRv = (toRv, false, None).
Proof.
  unfold convFuncFor, runConvFuncs.
  destruct (tlookup (convFunc m) (TypeOf fromRv)) as [toMap|]; [|done].
  simpl. by intros ->.
Qed.

Lemma runFuncs_app funcs1 funcs2 toRv fromRv :
  runFuncs (funcs1 ++ funcs2) toRv fromRv =
  match runFuncs funcs1 toRv fromRv with
  | (toRv', Some err) => (toRv', Some err)
  | (toRv', None) => runFuncs funcs2 toRv' fromRv
  end.
Proof.
  revert toRv. induction funcs1 as [|f funcs1 IH]; intros toRv; simpl.
  - done.
  - destruct (f toRv fromRv) as [toRv' [err|]]; [done | apply IH].
Qed.

Lemma runInspectFuncs_flat m toRv fromRv :
  runInspectFuncs m toRv fromRv =
  runFuncs (inspectFuncsFor m (TypeOf toRv) (TypeOf fromRv)
            ++ inspectFuncsFor m (TypeOf toRv) nilRecvRfType) toRv fromRv.
Proof.
  unfold runInspectFuncs, inspectFuncsFor.
  destruct (tlookup (postFunc m) (TypeOf toRv)) as [toMap|]; simpl; [|done].
  rewrite runFuncs_app.
  destruct (tlookup toMap (TypeOf fromRv)) as [funcs|]; simpl.
  - destruct (runFuncs funcs toRv fromRv) as [toRv' [err|]]; [done|].
    destruct (tlookup toMap nilRecvRfType) as [funcs'|]; simpl; [|done].
    by destruct (runFuncs funcs' toRv' fromRv) as [? [?|]].
  - destruct (tlookup toMap nilRecvRfType) as [funcs'|]; simpl; [|done].
    by destruct (runFuncs funcs' toRv fromRv) as [? [?|]].
Qed.

End Dispatch.

(** ** The dispatcher *)

Section MapValue.

Context {RT : Runtime}.

Lemma mapValue_S rev depth m toRv fromRv :
  mapValue rev (S depth) m toRv fromRv =
  r ← mapValueBody rev (mapValue rev depth m) m toRv fromRv;
  Ret (deferInspect m fromRv r).
Proof. reflexivity. Qed.

Lemma mapValueBody_converted rev rec m toRv fromRv f :
  convFuncFor m (TypeOf fromRv) (TypeOf toRv) = Some f ->
  mapValueBody rev rec m toRv fromRv =
  Ret (match f fromRv with
       | (_, Some err) => (toRv, Some err)
       | (val, None) => (Set_ toRv val, None)
       end).
Proof.
  intros Hf. unfold mapValueBody. rewrite (runConvFuncs_found _ _ _ _ Hf).
  by destruct (f fromRv) as [val [err|]].
Qed.

Lemma mapValueBody_not_converted rev rec m toRv fromRv :
  convFuncFor m (TypeOf fromRv) (TypeOf toRv) = None ->
  mapValueBody rev rec m toRv fromRv =
  match
    (if attemptsDirect rev m (KindOf (TypeOf fromRv))
     then directOrConvert toRv fromRv else None)
  with
  | Some toRv' => Ret (toRv', None)
  | None => mapComposite rev rec toRv fromRv
  end.
Proof.
  intros Hf. unfold mapValueBody. by rewrite (runConvFuncs_none _ _ _ Hf).
Qed.

End MapValue.

(** C1: a conversion function registered for the exact (source type,
    destination type) pair decides the mapping.  Whatever the runtime says
    about assignability or convertibility of the pair, in both revisions and
    for any recursive callee, the body of [mapValue] returns what the
    function returns: its error with the destination unchanged, or no error
    with its value set into the destination; no recursive call is made.
    [mapValue] then returns that error, or runs the inspection functions on
    the converted destination.  [AddConvFunc] registers exactly such a
    function. *)
Theorem conversion_function_is_authoritative
  (RT : Runtime) (rev : revision) (depth : nat) (m : Mapper)
  (toRv fromRv : Value) (f : convertFuncClosure) :
  convFuncFor m (TypeOf fromRv) (TypeOf toRv) = Some f ->
  (forall rec : Value -> Value -> outcome result,
     mapValueBody rev rec m toRv fromRv =
     Ret (match f fromRv with
          | (_, Some err) => (toRv, Some err)
          | (val, None) => (Set_ toRv val, None)
          end))
  /\ mapValue rev (S depth) m toRv fromRv =
     Ret (match f fromRv with
          | (_, Some err) => (toRv, Some err)
          | (val, None) => runInspectFuncs m (Set_ toRv val) fromRv
          end)
  /\ (forall m0 inType outType g,
        convFuncFor (AddConvFunc inType outType g m0) inType outType = Some g).
Proof.
  intros Hf. split; [|split].
  - intros rec. by apply mapValueBody_converted.
  - rewrite mapValue_S, (mapValueBody_converted _ _ _ _ _ _ Hf). simpl.
    by destruct (f fromRv) as [val [err|]].
  - intros. apply convFuncFor_AddConvFunc.
Qed.

(** The function of [TestDontSkipFunctions] is registered for
    (string, string), a pair of directly assignable types: its error is the
    result. *)
Lemma conversion_function_is_authoritative_witness :
  @AssignableTo goruntime.go examples.string_ examples.string_ = true
  /\ mapValue (RT:=goruntime.go) dto_go 1 examples.mapperDontSkip
       (Zero examples.string_) (VString examples.string_ "Shirt")
     = Ret (Zero examples.string_, Some examples.testError).
Proof.
  split; [reflexivity|].
  apply (conversion_function_is_authoritative goruntime.go dto_go 0
           examples.mapperDontSkip (Zero examples.string_)
           (VString examples.string_ "Shirt") examples.failingConv).
  reflexivity.
Defined.

(** C3: after a step of [mapValue] that ends without an error, the
    inspection functions registered for the destination's type run: first
    those keyed to the source's exact type, then those keyed to the
    no-receiver marker, each group in the order of registration
    ([AddInspectFunc] appends to its group and touches no other); each
    function receives the destination as the previous one left it; the first
    error stops the run and is the result.  After a step that ends with an
    error, the destination and the error are returned as they are: no
    inspection function runs. *)
Theorem inspection_functions_run_after_success
  (RT : Runtime) (rev : revision) (depth : nat) (m : Mapper)
  (toRv fromRv : Value) :
  match mapValueBody rev (mapValue rev depth m) m toRv fromRv with
  | Ret (toRv', None) =>
      mapValue rev (S depth) m toRv fromRv =
      Ret (runFuncs (inspectFuncsFor m (TypeOf toRv') (TypeOf fromRv)
                     ++ inspectFuncsFor m (TypeOf toRv') nilRecvRfType)
             toRv' fromRv)
  | Ret (toRv', Some err) =>
      mapValue rev (S depth) m toRv fromRv = Ret (toRv', Some err)
  | Panic => mapValue rev (S depth) m toRv fromRv = Panic
  | Exhausted => mapValue rev (S depth) m toRv fromRv = Exhausted
  end
  /\ (forall funcs1 f funcs2 to from,
        runFuncs (funcs1 ++ f :: funcs2) to from =
        match runFuncs funcs1 to from with
        | (to1, Some err) => (to1, Some err)
        | (to1, None) =>
            match f to1 from with
            | (to2, Some err) => (to2, Some err)
            | (to2, None) => runFuncs funcs2 to2 from
            end
        end)
  /\ (forall to from, runFuncs [] to from = (to, None))
  /\ (forall m0 inType fromType f toType recvType,
        inspectFuncsFor (AddInspectFunc inType fromType f m0) toType recvType =
        if decide ((toType, recvType) = (inType, fromType))
        then inspectFuncsFor m0 toType recvType ++ [f]
        else inspectFuncsFor m0 toType recvType).
Proof.
  split; [|split; [|split]].
  - rewrite mapValue_S.
    destruct (mapValueBody rev (mapValue rev depth m) m toRv fromRv)
      as [[toRv' [err|]]| |]; simpl; try done.
    by rewrite runInspectFuncs_flat.
  - intros. by rewrite runFuncs_app.
  - done.
  - intros. destruct (decide _) as [Heq|Hne].
    + injection Heq as -> ->. apply inspectFuncsFor_AddInspectFunc.
    + by apply inspectFuncsFor_AddInspectFunc_ne.
Qed.

(** ** No valid mapping *)

Lemma mapComposite_no_rule rev rec toRv fromRv :
  KindOf (TypeOf fromRv) <> Ptr -> KindOf (TypeOf toRv) <> Ptr ->
  KindOf (TypeOf toRv) <> Struct -> KindOf (TypeOf toRv) <> Slice ->
  KindOf (TypeOf toRv) <> Map ->
  mapComposite rev rec toRv fromRv =
  Ret (toRv, Some (ErrNoValidMapping (TypeOf toRv) (TypeOf fromRv))).
Proof.
  intros Hf Ht Hs Hl Hm. unfold mapComposite.
  rewrite !decide_False; [done | tauto..].
Qed.

#[local] Existing Instance goruntime.go.

(** C8: with the Go runtime, mapping a [string] into an [int] destination
    when no conversion function is registered for the pair fails, in both
    revisions and at any depth, with the destination untouched and the error
    [ErrNoValidMapping{ToType: int, FromType: string}]; two such errors are
    equal exactly when their type pairs are, and equality is decidable, so a
    caller can match the error. *)
Theorem string_into_int_is_no_valid_mapping
  (rev : revision) (depth : nat) (m : Mapper) (toRv fromRv : Value) :
  TypeOf toRv = TBasic BInt ->
  TypeOf fromRv = TBasic BString ->
  convFuncFor m (TBasic BString) (TBasic BInt) = None ->
  mapValue (RT:=goruntime.go) rev (S depth) m toRv fromRv =
    Ret (toRv, Some (ErrNoValidMapping (TBasic BInt) (TBasic BString)))
  /\ (forall t f t' f',
        ErrNoValidMapping t f = ErrNoValidMapping t' f' <-> t = t' /\ f = f')
  /\ (forall err,
        bool_decide (err = ErrNoValidMapping (TBasic BInt) (TBasic BString))
        = true <->
        err = ErrNoValidMapping (TBasic BInt) (TBasic BString)).
Proof.
  intros Ht Hf Hconv. split; [|split].
  - rewrite mapValue_S, mapValueBody_not_converted by (by rewrite Ht, Hf).
    unfold directOrConvert. rewrite Ht, Hf.
    replace (AssignableTo (TBasic BString) (TBasic BInt)) with false
      by reflexivity.
    replace (ConvertibleTo (TBasic BString) (TBasic BInt)) with false
      by reflexivity.
    assert (Hbody : mapComposite rev (mapValue rev depth m) toRv fromRv =
                    Ret (toRv, Some (ErrNoValidMapping (TBasic BInt)
                                       (TBasic BString)))).
    { rewrite mapComposite_no_rule; rewrite ?Ht, ?Hf;
        first [done | simpl; discriminate]. }
    rewrite Hbody. by destruct (attemptsDirect _ _ _).
  - intros. split; [by intros [= -> ->] | by intros [-> ->]].
  - intros. apply bool_decide_eq_true.
Qed.

(** [TestErrorNoValidMapping]: the [Name] of a product into an [int]. *)
Lemma string_into_int_is_no_valid_mapping_witness :
  mapValue (RT:=goruntime.go) dto_go 1 emptyMapper
    (Zero examples.int) (VString examples.string_ "Shirt")
  = Ret (Zero examples.int,
         Some (ErrNoValidMapping examples.int examples.string_)).
Proof.
  apply (proj1 (string_into_int_is_no_valid_mapping dto_go 0 emptyMapper
                  (Zero examples.int) (VString examples.string_ "Shirt")
                  eq_refl eq_refl eq_refl)).
Defined.

(** ** The guard around direct assignment and conversion *)

(** X2: in [dto.go], when no conversion function is registered for the pair,
    steps 2 and 3 are skipped exactly when the mapper has custom functions
    and the source kind is composite: the value is then handed to the rules
    that walk it, whatever the runtime says about the pair of types;
    otherwise direct assignment and conversion are tried first. *)
Theorem dto_go_guard (RT : Runtime) rec m toRv fromRv :
  convFuncFor m (TypeOf fromRv) (TypeOf toRv) = None ->
  mapValueBody dto_go rec m toRv fromRv =
  if HasCustomFuncs m && isCompositeKind (KindOf (TypeOf fromRv))
  then mapComposite dto_go rec toRv fromRv
  else match directOrConvert toRv fromRv with
       | Some toRv' => Ret (toRv', None)
       | None => mapComposite dto_go rec toRv fromRv
       end.
Proof.
  intros Hconv. rewrite mapValueBody_not_converted by done. simpl.
  by destruct (HasCustomFuncs m), (isCompositeKind _).
Qed.

(** The mapper of [TestDontSkipFunctions] and two products: the struct is
    walked. *)
Lemma dto_go_guard_witness :
  mapValueBody dto_go (mapValue dto_go 2 examples.mapperDontSkip)
    examples.mapperDontSkip (Zero examples.Product) examples.shirt
  = mapComposite dto_go (mapValue dto_go 2 examples.mapperDontSkip)
      (Zero examples.Product) examples.shirt.
Proof.
  exact (dto_go_guard goruntime.go
           (mapValue dto_go 2 examples.mapperDontSkip)
           examples.mapperDontSkip (Zero examples.Product) examples.shirt
           eq_refl).
Defined.

(** In [part_000] they are attempted for every pair. *)
Lemma part_000_no_guard (RT : Runtime) rec m toRv fromRv :
  convFuncFor m (TypeOf fromRv) (TypeOf toRv) = None ->
  mapValueBody part_000 rec m toRv fromRv =
  match directOrConvert toRv fromRv with
  | Some toRv' => Ret (toRv', None)
  | None => mapComposite part_000 rec toRv fromRv
  end.
Proof. intros Hconv. by rewrite mapValueBody_not_converted. Qed.

(** C2: the scenario of [TestDontSkipFunctions].  The mapper has a custom
    function and the source is a struct, yet [part_000] assigns the struct as
    a whole and returns no error: the function registered for the string
    fields never runs.  [dto.go] walks the struct and returns the function's
    error. *)
Theorem part_000_assigns_composite_despite_custom_funcs :
  HasCustomFuncs examples.mapperDontSkip = true
  /\ isCompositeKind (KindOf (TypeOf examples.shirt)) = true
  /\ mapValue part_000 3 examples.mapperDontSkip (Zero examples.Product)
       examples.shirt
     = Ret (examples.shirt, None)
  /\ exists toRv',
       mapValue dto_go 3 examples.mapperDontSkip (Zero examples.Product)
         examples.shirt
       = Ret (toRv', Some examples.testError).
Proof.
  split; [reflexivity|]. split; [reflexivity|]. split; [by vm_compute|].
  eexists. by vm_compute.
Qed.

(** ** A pointer source *)

Lemma attemptsDirect_noncomposite rev m fk :
  isCompositeKind fk = false -> attemptsDirect rev m fk = true.
Proof. intros Hk. destruct rev; simpl; [|done]. rewrite Hk. apply orb_true_r. Qed.

Lemma runInspectFuncs_none m toRv fromRv :
  inspectFuncsFor m (TypeOf toRv) (TypeOf fromRv) = [] ->
  inspectFuncsFor m (TypeOf toRv) nilRecvRfType = [] ->
  runInspectFuncs m toRv fromRv = (toRv, None).
Proof. intros H1 H2. by rewrite runInspectFuncs_flat, H1, H2. Qed.

(** C5, as stated, fails.  A nil [*int] mapped into a [*int] destination
    that points to 5 is directly assignable: step 2 overwrites the
    destination with nil.  And a nil [*string] mapped into an [int]
    destination by a mapper whose inspection function for [*int] fails
    returns that error. *)
Lemma nil_pointer_source_can_change_destination :
  let toRv := examples.intPtr (Some examples.five) in
  let fromRv := examples.intPtr None in
  KindOf (TypeOf fromRv) = Ptr
  /\ IsNil fromRv = true
  /\ mapValue dto_go 1 emptyMapper toRv fromRv = Ret (examples.intPtr None, None)
  /\ examples.intPtr None <> toRv
  /\ KindOf (TypeOf (examples.stringPtr None)) = Ptr
  /\ IsNil (examples.stringPtr None) = true
  /\ mapValue dto_go 1 examples.mapperInspectFails examples.five
       (examples.stringPtr None)
     = Ret (examples.five, Some examples.testError).
Proof. repeat split; try reflexivity. discriminate. Qed.

(** C5, amended: for a pointer source, when no conversion function is
    registered for the pair and the source type is neither assignable nor
    convertible to the destination type, then
    - a nil source ends the step of [mapValue] with no error and the
      destination untouched, without any recursive call; the inspection
      functions of the destination type then run on it, and where none is
      registered [mapValue] returns the destination untouched and no error;
    - a non-nil source makes [mapValue] recurse with the pointee as the
      source and the same destination; what the recursive call returns then
      passes through the deferred inspection of this call. *)
Theorem pointer_source_is_dereferenced
  (RT : Runtime) (rev : revision) (depth : nat) (m : Mapper)
  (toRv : Value) (t : Type_) (pointee : option Value) :
  KindOf t = Ptr ->
  convFuncFor m t (TypeOf toRv) = None ->
  AssignableTo t (TypeOf toRv) = false ->
  ConvertibleTo t (TypeOf toRv) = false ->
  match pointee with
  | None =>
      (forall rec, mapValueBody rev rec m toRv (VPtr t None) = Ret (toRv, None))
      /\ mapValue rev (S depth) m toRv (VPtr t None) =
         Ret (runInspectFuncs m toRv (VPtr t None))
      /\ (inspectFuncsFor m (TypeOf toRv) t = [] ->
          inspectFuncsFor m (TypeOf toRv) nilRecvRfType = [] ->
          mapValue rev (S depth) m toRv (VPtr t None) = Ret (toRv, None))
  | Some elem =>
      (forall rec,
         mapValueBody rev rec m toRv (VPtr t (Some elem)) = rec toRv elem)
      /\ mapValue rev (S depth) m toRv (VPtr t (Some elem)) =
         r ← mapValue rev depth m toRv elem;
         Ret (deferInspect m (VPtr t (Some elem)) r)
  end.
Proof.
  intros Hk Hconv Hassign Hconvert.
  assert (Hbody : forall rec,
    mapValueBody rev rec m toRv (VPtr t pointee) =
    match pointee with
    | None => Ret (toRv, None)
    | Some elem => rec toRv elem
    end).
  { intros rec. rewrite mapValueBody_not_converted by done. simpl.
    rewrite attemptsDirect_noncomposite by (by rewrite Hk).
    unfold directOrConvert. simpl. rewrite Hassign, Hconvert.
    unfold mapComposite. simpl. by rewrite Hk, decide_True. }
  destruct pointee as [elem|].
  - split; [done|]. by rewrite mapValue_S, Hbody.
  - split; [done|]. split.
    + by rewrite mapValue_S, Hbody.
    + intros H1 H2. rewrite mapValue_S, Hbody. simpl.
      by rewrite runInspectFuncs_none.
Qed.

(** A nil [*string] into an [int] destination, no function registered. *)
Lemma pointer_source_is_dereferenced_witness :
  mapValue dto_go 1 emptyMapper examples.five (examples.stringPtr None)
  = Ret (examples.five, None).
Proof.
  apply (pointer_source_is_dereferenced goruntime.go dto_go 0 emptyMapper
           examples.five (TPtr examples.string_) None
           eq_refl eq_refl eq_refl eq_refl); reflexivity.
Defined.

(** ** Sequences *)

#[local] Arguments SetIndex : simpl never.
#[local] Arguments Index : simpl never.

Section Sequences.

Variable rec : Value -> Value -> outcome result.

Lemma Index_slice t l i : Index (VSlice t (Some l)) i = l !! i.
Proof. reflexivity. Qed.

Lemma SetIndex_middle t done slot todo x :
  SetIndex (VSlice t (Some (done ++ slot :: todo))) (length done) x =
  Some (VSlice t (Some (done ++ x :: todo))).
Proof.
  unfold SetIndex. rewrite decide_True.
  - do 3 f_equal. rewrite <- (Nat.add_0_r (length done)).
    by rewrite insert_app_r.
  - rewrite length_app. simpl. lia.
Qed.

(** The index loop of [mapSlice] is the element-wise mapping of the sources
    from [i] on into the slots from [i] on. *)
Lemma mapSliceLoop_elementwise n t done todo fromRv srcs :
  SliceElems fromRv = Some srcs ->
  length todo = n ->
  length srcs = (length done + n)%nat ->
  mapSliceLoop rec n (length done) (VSlice t (Some (done ++ todo))) fromRv =
  '(ds, err) ← mapElementwise rec todo (drop (length done) srcs);
  Ret (VSlice t (Some (done ++ ds)), err).
Proof.
  intros Hsrcs. revert done todo.
  induction n as [|n IH]; intros done todo Htodo Hlen.
  - destruct todo; [|done]. rewrite drop_ge by lia. by simpl.
  - destruct todo as [|slot todo]; [done|]. simpl in Htodo.
    destruct (drop (length done) srcs) as [|src rest] eqn:Hdrop.
    { apply (f_equal length) in Hdrop. rewrite length_drop in Hdrop.
      simpl in Hdrop. lia. }
    assert (Hsrc : srcs !! length done = Some src).
    { rewrite <- (Nat.add_0_r (length done)), <- lookup_drop.
      by rewrite Hdrop. }
    assert (Hrest : drop (S (length done)) srcs = rest).
    { replace (S (length done)) with (length done + 1)%nat by lia.
      rewrite <- drop_drop. by rewrite Hdrop. }
    cbn [mapSliceLoop mapElementwise]. rewrite Index_slice.
    rewrite list_lookup_middle by done. simpl.
    unfold Index. rewrite Hsrcs. simpl. rewrite Hsrc. simpl.
    destruct (rec slot src) as [[d err]| |]; simpl; [|done..].
    rewrite SetIndex_middle. simpl.
    destruct err as [e|]; [done|].
    specialize (IH (done ++ [d]) todo).
    rewrite length_app in IH. simpl in IH.
    rewrite Nat.add_1_r in IH. rewrite <- (assoc_L (++)) in IH. simpl in IH.
    rewrite IH by lia. rewrite Hrest.
    destruct (mapElementwise rec todo rest) as [[ds err]| |]; simpl; [|done..].
    by rewrite <- (assoc_L (++)).
Qed.

Lemma mapSlice_elementwise toRv fromRv elemType srcs :
  underlying (TypeOf toRv) = TSlice elemType ->
  SliceElems fromRv = Some srcs ->
  mapSlice rec toRv fromRv =
  '(ds, err) ← mapElementwise rec (replicate (length srcs) (Zero elemType)) srcs;
  Ret (VSlice (TypeOf toRv) (Some ds), err).
Proof.
  intros Ht Hsrcs. unfold mapSlice.
  assert (Hlen : Len fromRv = Some (length srcs)).
  { destruct fromRv; try done. unfold Len. by rewrite Hsrcs. }
  rewrite Hlen. simpl. unfold MakeSlice. rewrite Ht. simpl.
  apply (mapSliceLoop_elementwise (length srcs) (TypeOf toRv) []
           (replicate (length srcs) (Zero elemType)) fromRv srcs Hsrcs).
  - apply length_replicate.
  - done.
Qed.

(** The loop of [mapMapToSlice] is the element-wise mapping of the values of
    the entries. *)
Lemma mapMapToSliceLoop_elementwise mapIt t done todo :
  length todo = length mapIt ->
  mapMapToSliceLoop rec mapIt (length done) (VSlice t (Some (done ++ todo))) =
  '(ds, err) ← mapElementwise rec todo (mapIt.*2);
  Ret (VSlice t (Some (done ++ ds)), err).
Proof.
  revert done todo.
  induction mapIt as [|[key value] mapIt IH]; intros done todo Htodo.
  - destruct todo; [|done]. by simpl.
  - destruct todo as [|slot todo]; [done|]. simpl in Htodo.
    cbn [mapMapToSliceLoop mapElementwise fmap list_fmap snd].
    rewrite Index_slice, list_lookup_middle by done. simpl.
    destruct (rec slot value) as [[d err]| |]; simpl; [|done..].
    rewrite SetIndex_middle. simpl.
    destruct err as [e|]; [done|].
    specialize (IH (done ++ [d]) todo).
    rewrite length_app in IH. simpl in IH.
    rewrite Nat.add_1_r in IH. rewrite <- (assoc_L (++)) in IH. simpl in IH.
    rewrite IH by lia.
    destruct (mapElementwise rec todo (mapIt.*2)) as [[ds err]| |];
      simpl; [|done..].
    by rewrite <- (assoc_L (++)).
Qed.

Lemma mapMapToSlice_elementwise toRv fromRv elemType mapIt :
  underlying (TypeOf toRv) = TSlice elemType ->
  MapRange fromRv = Some mapIt ->
  mapMapToSlice rec toRv fromRv =
  '(ds, err) ← mapElementwise rec
                 (replicate (length mapIt) (Zero elemType)) (mapIt.*2);
  Ret (VSlice (TypeOf toRv) (Some ds), err).
Proof.
  intros Ht Hit. unfold mapMapToSlice.
  assert (Hlen : Len fromRv = Some (length mapIt)).
  { destruct fromRv; try done. unfold Len. by rewrite Hit. }
  rewrite Hlen. simpl. unfold MakeSlice. rewrite Ht. simpl. rewrite Hit. simpl.
  apply (mapMapToSliceLoop_elementwise mapIt (TypeOf toRv) []).
  apply length_replicate.
Qed.

(** Element-wise mapping into fresh slots [z]: all elements succeed. *)
Lemma mapElementwise_ok z srcs ds :
  Forall2 (fun src d => rec z src = Ret (d, None)) srcs ds ->
  mapElementwise rec (replicate (length srcs) z) srcs = Ret (ds, None).
Proof.
  induction 1 as [|src d srcs ds Hd _ IH]; simpl; [done|].
  rewrite Hd. simpl. by rewrite IH.
Qed.

(** Element-wise mapping into fresh slots [z]: element [i] is the first to
    fail. *)
Lemma mapElementwise_error z srcs i ds src d e :
  Forall2 (fun src d => rec z src = Ret (d, None)) (take i srcs) ds ->
  srcs !! i = Some src ->
  rec z src = Ret (d, Some e) ->
  mapElementwise rec (replicate (length srcs) z) srcs =
  Ret (ds ++ d :: replicate (length srcs - S i) z, Some e).
Proof.
  revert i ds. induction srcs as [|s srcs IH]; intros i ds Hds Hi Hd; [done|].
  destruct i as [|i]; simpl in *.
  - injection Hi as ->. apply Forall2_nil_inv_l in Hds as ->.
    rewrite Hd. simpl. by rewrite Nat.sub_0_r.
  - apply Forall2_cons_inv_l in Hds as (d0 & ds' & Hd0 & Hds & ->).
    rewrite Hd0. simpl. by rewrite (IH i ds').
Qed.

End Sequences.

(** C7: [mapSlice] on a source sequence [srcs] and a destination of slice
    type.  When every element maps without error (each into a fresh zero
    slot of the element type), the destination becomes a sequence of the
    same length whose element at each position is the mapping of the source
    element at that position; nothing of the destination's former content
    remains.  When the element at [i] is the first whose mapping fails, its
    error is returned, whatever the mapping of the later elements would
    do. *)
Theorem mapSlice_maps_each_position
  (RT : Runtime) (rev : revision) (depth : nat) (m : Mapper)
  (toRv fromRv : Value) (elemType : Type_) (srcs : list Value) :
  underlying (TypeOf toRv) = TSlice elemType ->
  SliceElems fromRv = Some srcs ->
  (forall ds,
     Forall2 (fun src d =>
                mapValue rev depth m (Zero elemType) src = Ret (d, None))
       srcs ds ->
     mapSlice (mapValue rev depth m) toRv fromRv =
       Ret (VSlice (TypeOf toRv) (Some ds), None)
     /\ length ds = length srcs
     /\ forall i src, srcs !! i = Some src ->
          exists d, ds !! i = Some d
            /\ mapValue rev depth m (Zero elemType) src = Ret (d, None))
  /\ (forall i ds src d e,
        Forall2 (fun src d =>
                   mapValue rev depth m (Zero elemType) src = Ret (d, None))
          (take i srcs) ds ->
        srcs !! i = Some src ->
        mapValue rev depth m (Zero elemType) src = Ret (d, Some e) ->
        exists toRv',
          mapSlice (mapValue rev depth m) toRv fromRv = Ret (toRv', Some e)).
Proof.
  intros Ht Hsrcs. split.
  - intros ds Hds. split; [|split].
    + rewrite (mapSlice_elementwise _ _ _ _ _ Ht Hsrcs).
      by rewrite (mapElementwise_ok _ _ _ _ Hds).
    + symmetry. by eapply Forall2_length.
    + intros i src Hi.
      destruct (Forall2_lookup_l _ _ _ _ _ Hds Hi) as (d & Hd & Hmap).
      by exists d.
  - intros i ds src d e Hds Hi Hd. eexists.
    rewrite (mapSlice_elementwise _ _ _ _ _ Ht Hsrcs).
    by rewrite (mapElementwise_error _ _ _ _ _ _ _ _ Hds Hi Hd).
Qed.

(** [[]int{1, 300}] into a [[]int8]: two positions, each converted. *)
Lemma mapSlice_maps_each_position_witness :
  mapSlice (mapValue dto_go 1 emptyMapper)
    (Zero (TSlice examples.int8)) (examples.ints [1; 300]%Z)
  = Ret (VSlice (TSlice examples.int8)
           (Some [VInt examples.int8 1; VInt examples.int8 44]), None).
Proof.
  apply (proj1 (mapSlice_maps_each_position goruntime.go dto_go 1 emptyMapper
                  (Zero (TSlice examples.int8)) (examples.ints [1; 300]%Z)
                  examples.int8 [VInt examples.int 1; VInt examples.int 300]
                  eq_refl eq_refl)).
  repeat constructor.
Defined.

(** C10, as stated, fails for the element that fails: it is not left at its
    zero value.  Mapping [[][]string{{"a"}}] into a [[][]int], element 0
    fails on its own element, after the slot was set to a fresh slice of
    length 1; the zero value of [[]int] is the nil slice.  With the
    inspection function of [TestErrorPropagation], mapping [[]string{"x"}]
    into a [[]string] fails at element 0 after ["x"] was assigned. *)
Lemma failing_element_is_not_left_zero :
  mapSlice (mapValue dto_go 2 emptyMapper)
    (Zero (TSlice (TSlice examples.int))) examples.nestedStrings
  = Ret (VSlice (TSlice (TSlice examples.int)) (Some [examples.ints [0%Z]]),
         Some (ErrNoValidMapping examples.int examples.string_))
  /\ examples.ints [0%Z] <> Zero (TSlice examples.int)
  /\ mapSlice (mapValue dto_go 1 examples.mapperStringInspectFails)
       (Zero (TSlice examples.string_)) (examples.strings ["x"])
     = Ret (examples.strings ["x"], Some examples.testError)
  /\ VString examples.string_ "x" <> Zero examples.string_.
Proof. repeat split; try reflexivity; discriminate. Qed.

(** C10, amended: when [mapSlice], or [mapMapToSlice] over the values of
    the entries, maps [srcs] and the element at [i] is the first to fail,
    the destination has been replaced by a sequence of the length of [srcs]:
    the elements before [i] are mapped, the element at [i] is what its
    failed mapping left in the slot, the elements after [i] are zero values.
    Nothing of the destination's former content remains, and the error is
    returned. *)
Theorem sequence_mapping_is_not_atomic
  (RT : Runtime) (rev : revision) (depth : nat) (m : Mapper)
  (toRv : Value) (elemType : Type_) (srcs : list Value)
  (i : nat) (ds : list Value) (src d : Value) (e : error) :
  underlying (TypeOf toRv) = TSlice elemType ->
  Forall2 (fun src d =>
             mapValue rev depth m (Zero elemType) src = Ret (d, None))
    (take i srcs) ds ->
  srcs !! i = Some src ->
  mapValue rev depth m (Zero elemType) src = Ret (d, Some e) ->
  (forall fromRv,
     SliceElems fromRv = Some srcs ->
     mapSlice (mapValue rev depth m) toRv fromRv =
     Ret (VSlice (TypeOf toRv)
            (Some (ds ++ d :: replicate (length srcs - S i) (Zero elemType))),
          Some e))
  /\ (forall fromRv mapIt,
        MapRange fromRv = Some mapIt ->
        mapIt.*2 = srcs ->
        mapMapToSlice (mapValue rev depth m) toRv fromRv =
        Ret (VSlice (TypeOf toRv)
               (Some (ds ++ d :: replicate (length srcs - S i) (Zero elemType))),
             Some e)).
Proof.
  intros Ht Hds Hi Hd. split.
  - intros fromRv Hsrcs.
    rewrite (mapSlice_elementwise _ _ _ _ _ Ht Hsrcs).
    by rewrite (mapElementwise_error _ _ _ _ _ _ _ _ Hds Hi Hd).
  - intros fromRv mapIt Hit <-.
    rewrite (mapMapToSlice_elementwise _ _ _ _ _ Ht Hit).
    replace (length mapIt) with (length (mapIt.*2)) by apply length_fmap.
    by rewrite (mapElementwise_error _ _ _ _ _ _ _ _ Hds Hi Hd).
Qed.

(** [[]int{1, 2}], [[]string{"a"}], [[]int{3}] into a [[][]int8]: element 1
    fails. *)
Lemma sequence_mapping_is_not_atomic_witness :
  mapSlice (mapValue dto_go 2 emptyMapper)
    (Zero (TSlice (TSlice examples.int8)))
    (VSlice (TSlice (TSlice examples.int))
       (Some [examples.ints [1; 2]%Z; examples.strings ["a"];
              examples.ints [3%Z]]))
  = Ret (VSlice (TSlice (TSlice examples.int8))
           (Some [VSlice (TSlice examples.int8)
                    (Some [VInt examples.int8 1; VInt examples.int8 2]);
                  VSlice (TSlice examples.int8) (Some [VInt examples.int8 0]);
                  VSlice (TSlice examples.int8) None]),
         Some (ErrNoValidMapping examples.int8 examples.string_)).
Proof.
  apply (proj1 (sequence_mapping_is_not_atomic goruntime.go dto_go 2
                  emptyMapper (Zero (TSlice (TSlice examples.int8)))
                  (TSlice examples.int8)
                  [examples.ints [1; 2]%Z; examples.strings ["a"];
                   examples.ints [3%Z]]
                  1
                  [VSlice (TSlice examples.int8)
                     (Some [VInt examples.int8 1; VInt examples.int8 2])]
                  (examples.strings ["a"])
                  (VSlice (TSlice examples.int8) (Some [VInt examples.int8 0]))
                  (ErrNoValidMapping examples.int8 examples.string_)
                  eq_refl
                  ltac:(repeat constructor) eq_refl eq_refl)).
  reflexivity.
Defined.

(** ** Map to sequence *)

Lemma literalKind_stripTags u :
  literalKind (goruntime.stripTags u) = literalKind u.
Proof. by destruct u. Qed.

Lemma identical_underlying_same_kind t v cmpTags :
  goruntime.haveIdenticalUnderlyingType t v cmpTags = true ->
  KindOf t = KindOf v.
Proof.
  unfold goruntime.haveIdenticalUnderlyingType.
  change (KindOf t) with (literalKind (underlying t)).
  change (KindOf v) with (literalKind (underlying v)).
  destruct cmpTags; intros H%bool_decide_eq_true.
  - by rewrite H.
  - by rewrite <- (literalKind_stripTags (underlying t)), H,
      literalKind_stripTags.
Qed.

(** For the Go runtime, a map type is neither assignable nor convertible to
    a slice type. *)
Lemma go_map_not_into_slice src dst :
  KindOf src = Map -> KindOf dst = Slice ->
  AssignableTo src dst = false /\ ConvertibleTo src dst = false.
Proof.
  intros Hs Hd. simpl.
  assert (Hne : forall c, goruntime.haveIdenticalUnderlyingType dst src c
                          = false).
  { intros c. destruct (goruntime.haveIdenticalUnderlyingType dst src c)
      eqn:H; [|done].
    apply identical_underlying_same_kind in H. congruence. }
  split.
  - unfold goruntime.directlyAssignable.
    destruct (decide (dst = src)) as [->|_]; [congruence|].
    rewrite Hne. by destruct (_ && _).
  - unfold goruntime.convertible. rewrite Hs, Hd, Hne. reflexivity.
Qed.

Lemma Elem_of_map t :
  KindOf t = Map -> exists e, Elem t = Some e.
Proof.
  unfold KindOf, Elem. destruct (underlying t) as [[]| | | | |]; try done.
  eauto.
Qed.

Section Flatten.

Variable rec : Value -> Value -> outcome result.

Lemma SetIndex_sliceOfLen t n v i x v' :
  sliceOfLen t n v -> SetIndex v i x = Some v' -> sliceOfLen t n v'.
Proof.
  intros (l & -> & Hl). unfold SetIndex.
  destruct (decide _); [|done]. intros [= <-].
  eexists. split; [done|]. by rewrite length_insert.
Qed.

Lemma flattenInner_sliceOfLen t len n j i toRv mapSlice_ toRv' i' err :
  sliceOfLen t len toRv ->
  flattenInner rec n j i toRv mapSlice_ = Ret (toRv', i', err) ->
  sliceOfLen t len toRv'.
Proof.
  revert j i toRv. induction n as [|n IH]; intros j i toRv Hto; simpl.
  - by intros [= <- _ _].
  - destruct (Index toRv i) as [toElem|]; simpl; [|done].
    destruct (Index mapSlice_ j) as [fromElem|]; simpl; [|done].
    destruct (rec toElem fromElem) as [[d e]| |]; simpl; [|done..].
    destruct (SetIndex toRv i d) as [toRv1|] eqn:Hset; simpl; [|done].
    apply (SetIndex_sliceOfLen _ _ _ _ _ _ Hto) in Hset.
    destruct e as [e|]; [by intros [= <- _ _]|]. by apply IH.
Qed.

Lemma flattenLoop_sliceOfLen t len mapIt i toRv toRv' err :
  sliceOfLen t len toRv ->
  flattenLoop rec mapIt i toRv = Ret (toRv', err) ->
  sliceOfLen t len toRv'.
Proof.
  revert i toRv. induction mapIt as [|[key value] mapIt IH];
    intros i toRv Hto; simpl.
  - by intros [= <- _].
  - destruct (Len value) as [n|]; simpl; [|done].
    destruct (flattenInner rec n 0 i toRv value) as [[[toRv1 i1] e]| |]
      eqn:Hinner; simpl; [|done..].
    apply (flattenInner_sliceOfLen _ _ _ _ _ _ _ _ _ _ Hto) in Hinner.
    destruct e as [e|]; [by intros [= <- _]|]. by apply IH.
Qed.

(** Whatever [mapMapSlicesToSlice] returns, the destination it leaves has
    the sum of the lengths of the inner sequences as its length. *)
Lemma mapMapSlicesToSlice_Len toRv fromRv mapIt toRv' err :
  MapRange fromRv = Some mapIt ->
  mapMapSlicesToSlice rec toRv fromRv = Ret (toRv', err) ->
  Len toRv' = sumLen mapIt.
Proof.
  intros Hit. unfold mapMapSlicesToSlice. rewrite Hit. simpl.
  destruct (sumLen mapIt) as [total|]; simpl; [|done].
  unfold MakeSlice. destruct (underlying (TypeOf toRv)); simpl; try done.
  intros Hloop.
  apply (flattenLoop_sliceOfLen (TypeOf toRv) total) in Hloop.
  - destruct Hloop as (l & -> & <-). reflexivity.
  - eexists. split; [done|]. apply length_replicate.
Qed.

End Flatten.

(** C4, as stated, fails when a conversion function is registered for the
    pair: it is invoked, and neither transformer is attempted.  Here
    Map->Sequence would fail with the no-valid-mapping error, the values of
    the source map are sequences, and the flatten fallback would succeed
    with a destination of length 2; [mapValue] returns the one-element
    sequence of the conversion function. *)
Lemma conversion_function_preempts_map_to_sequence :
  let toRv := Zero (TSlice examples.int) in
  let rec := mapValue dto_go 2 examples.mapperMapConv in
  KindOf (TypeOf toRv) = Slice
  /\ KindOf (TypeOf examples.grouped) = Map
  /\ mapMapToSlice rec toRv examples.grouped
     = Ret (examples.ints [0%Z],
            Some (ErrNoValidMapping examples.int (TSlice examples.int)))
  /\ mapMapSlicesToSlice rec toRv examples.grouped
     = Ret (examples.ints [1; 2]%Z, None)
  /\ mapValue dto_go 3 examples.mapperMapConv toRv examples.grouped
     = Ret (examples.ints [7%Z], None)
  /\ Len (examples.ints [7%Z]) = Some 1%nat
  /\ Len (examples.ints [1; 2]%Z) = Some 2%nat.
Proof. repeat split; reflexivity. Qed.

(** C4, amended: with the Go runtime, when the destination is of slice
    kind, the source of map kind, and no conversion function is registered
    for the pair, the step of [mapValue] first runs [mapMapToSlice];
    - if that returns no error, its destination is the step's result;
    - if it returns an error that is not a no-valid-mapping error, or the
      values of the source map are not of slice kind, that error is
      returned;
    - otherwise [mapMapSlicesToSlice] runs: if it returns no error, its
      destination is the step's result, of length the sum of the lengths of
      the inner sequences; if it returns an error, the error of
      [mapMapToSlice] is returned, not its own.
    A step without error is followed by the inspection functions, as every
    step is. *)
Theorem map_to_sequence_then_flatten
  (rev : revision) (depth : nat) (m : Mapper) (toRv fromRv : Value) :
  KindOf (TypeOf toRv) = Slice ->
  KindOf (TypeOf fromRv) = Map ->
  convFuncFor m (TypeOf fromRv) (TypeOf toRv) = None ->
  let rec := mapValue rev depth m in
  let valuesAreSlices :=
    match Elem (TypeOf fromRv) with
    | Some mapElem => bool_decide (KindOf mapElem = Slice)
    | None => false
    end in
  (forall toRv1,
     mapMapToSlice rec toRv fromRv = Ret (toRv1, None) ->
     mapValue rev (S depth) m toRv fromRv =
     Ret (runInspectFuncs m toRv1 fromRv))
  /\ (forall toRv1 err,
        mapMapToSlice rec toRv fromRv = Ret (toRv1, Some err) ->
        isNoValidMapping err && valuesAreSlices = false ->
        mapValue rev (S depth) m toRv fromRv = Ret (toRv1, Some err))
  /\ (forall toRv1 err toRv2,
        mapMapToSlice rec toRv fromRv = Ret (toRv1, Some err) ->
        isNoValidMapping err && valuesAreSlices = true ->
        mapMapSlicesToSlice rec toRv1 fromRv = Ret (toRv2, None) ->
        mapValue rev (S depth) m toRv fromRv =
        Ret (runInspectFuncs m toRv2 fromRv)
        /\ forall mapIt, MapRange fromRv = Some mapIt ->
                         Len toRv2 = sumLen mapIt)
  /\ (forall toRv1 err toRv2 errFlatten,
        mapMapToSlice rec toRv fromRv = Ret (toRv1, Some err) ->
        isNoValidMapping err && valuesAreSlices = true ->
        mapMapSlicesToSlice rec toRv1 fromRv = Ret (toRv2, Some errFlatten) ->
        mapValue rev (S depth) m toRv fromRv = Ret (toRv2, Some err)).
Proof.
  intros Ht Hf Hconv rec valuesAreSlices.
  destruct (go_map_not_into_slice _ _ Hf Ht) as [Hassign Hconvert].
  destruct (Elem_of_map _ Hf) as [mapElem HmapElem].
  assert (Hbody : mapValueBody rev rec m toRv fromRv =
    '(toRv1, err) ← mapMapToSlice rec toRv fromRv;
    if errorsAsNoValidMapping err && valuesAreSlices then
      '(toRv2, errFlatten) ← mapMapSlicesToSlice rec toRv1 fromRv;
      match errFlatten with
      | None => Ret (toRv2, None)
      | Some _ => Ret (toRv2, err)
      end
    else Ret (toRv1, err)).
  { rewrite mapValueBody_not_converted by done.
    unfold directOrConvert. rewrite Hassign, Hconvert.
    assert (Hcomposite : mapComposite rev rec toRv fromRv =
      '(toRv1, err) ← mapMapToSlice rec toRv fromRv;
      if errorsAsNoValidMapping err && valuesAreSlices then
        '(toRv2, errFlatten) ← mapMapSlicesToSlice rec toRv1 fromRv;
        match errFlatten with
        | None => Ret (toRv2, None)
        | Some _ => Ret (toRv2, err)
        end
      else Ret (toRv1, err)).
    { unfold mapComposite, valuesAreSlices. rewrite Ht, Hf, HmapElem.
      rewrite decide_False by done.
      rewrite decide_False by done.
      rewrite decide_False by (by intros []).
      rewrite decide_False by (by intros []).
      rewrite decide_False by (by intros []).
      rewrite decide_True by done.
      destruct (mapMapToSlice rec toRv fromRv) as [[toRv1 err]| |]; done. }
    rewrite Hcomposite. by destruct (attemptsDirect _ _ _). }
  rewrite mapValue_S. fold rec. rewrite Hbody. clear Hbody.
  split; [|split; [|split]].
  - by intros toRv1 ->.
  - intros toRv1 err -> Hno. simpl. by rewrite Hno.
  - intros toRv1 err toRv2 Hfirst Hyes Hflat. split.
    + rewrite Hfirst. simpl. rewrite Hyes, Hflat. done.
    + intros mapIt Hit. by eapply mapMapSlicesToSlice_Len.
  - intros toRv1 err toRv2 errFlatten -> Hyes Hflat. simpl.
    by rewrite Hyes, Hflat.
Qed.

(** The map-of-sequences of the example, no function registered: the
    fallback succeeds and the destination has the two elements. *)
Lemma map_to_sequence_then_flatten_witness :
  mapValue dto_go 3 emptyMapper (Zero (TSlice examples.int)) examples.grouped
  = Ret (examples.ints [1; 2]%Z, None).
Proof.
  exact (proj1 (proj1 (proj2 (proj2
           (map_to_sequence_then_flatten dto_go 2 emptyMapper
              (Zero (TSlice examples.int)) examples.grouped
              eq_refl eq_refl eq_refl)))
           (examples.ints [0%Z])
           (ErrNoValidMapping examples.int (TSlice examples.int))
           (examples.ints [1; 2]%Z) eq_refl eq_refl eq_refl)).
Defined.

(** ** The struct field resolver *)

Lemma Type_nested_ind (P : Type_ -> Prop) :
  (forall b, P (TBasic b)) ->
  (forall n u, P u -> P (TNamed n u)) ->
  (forall e, P e -> P (TPtr e)) ->
  (forall e, P e -> P (TSlice e)) ->
  (forall k e, P k -> P e -> P (TMap k e)) ->
  (forall fs, Forall (fun f => P (Typ f)) fs -> P (TStruct fs)) ->
  forall t, P t.
Proof.
  intros Hb Hn Hp Hs Hm Hst. fix IH 1. intros [b|n u|e|e|k e|fs].
  - apply Hb.
  - apply Hn, IH.
  - apply Hp, IH.
  - apply Hs, IH.
  - apply Hm; apply IH.
  - apply Hst. induction fs as [|[n ft a tg] fs IHfs]; constructor.
    + apply IH.
    + apply IHfs.
Qed.

Lemma collectStructFields_struct rev path fs fields :
  collectStructFields rev path (TStruct fs) fields =
  collectFieldsFrom rev path fs 0 fields.
Proof.
  simpl. generalize 0%nat. revert fields.
  induction fs as [|[n ft a tg] fs IH]; intros fields i; simpl; [done|].
  destruct (skipsField rev _); [apply IH|].
  destruct a; [|apply IH].
  destruct (collectStructFields rev (path ++ [i]) ft fields); [apply IH|done].
Qed.

Lemma resolvedFields_struct rev path fs :
  resolvedFields rev path (TStruct fs) = resolvedFieldsFrom rev path fs 0.
Proof.
  simpl. generalize 0%nat.
  induction fs as [|[n ft a tg] fs IH]; intros i; simpl; [done|].
  destruct (skipsField rev _); [apply IH|].
  destruct a; simpl; by rewrite IH.
Qed.

Lemma insertAll_app fields l1 l2 :
  insertAll fields (l1 ++ l2) = insertAll (insertAll fields l1) l2.
Proof. apply foldl_app. Qed.

(** The resolver enters the resolved fields into the map, in order. *)
Lemma collectStructFields_resolved rev t :
  forall path fields,
    collectStructFields rev path t fields =
    insertAll fields <$> resolvedFields rev path t.
Proof.
  induction t as [b|n u IH|e _|e _|k e _ _|fs IH] using Type_nested_ind;
    intros path fields; try done.
  - apply IH.
  - rewrite collectStructFields_struct, resolvedFields_struct.
    generalize 0%nat. revert fields.
    induction IH as [|[n ft a tg] fs Hf _ IHfs]; intros fields i; simpl;
      [done|].
    destruct (skipsField rev _); [apply IHfs|].
    destruct a; simpl.
    + simpl in Hf. rewrite Hf.
      destruct (resolvedFields rev (path ++ [i]) ft) as [inner|]; simpl;
        [|done].
      rewrite IHfs.
      destruct (resolvedFieldsFrom rev path fs (S i)) as [later|]; simpl;
        [|done].
      by rewrite insertAll_app.
    + rewrite IHfs.
      by destruct (resolvedFieldsFrom rev path fs (S i)).
Qed.

(** The last entry under a name decides what the map holds for it. *)
Lemma insertAll_lookup_last fields l1 name p l2 :
  name ∉ l2.*1 ->
  insertAll fields (l1 ++ (name, p) :: l2) !! name = Some p.
Proof.
  intros Hl2. rewrite insertAll_app. simpl.
  generalize (insertAll fields l1). intros m.
  assert (Hm : <[name:=p]> m !! name = Some p) by apply lookup_insert_eq.
  revert Hm. generalize (<[name:=p]> m). clear m.
  induction l2 as [|[n q] l2 IH]; intros m Hm; simpl; [done|].
  apply IH.
  - intros Hin. apply Hl2. simpl. by right.
  - rewrite lookup_insert_ne; [done|].
    intros ->. apply Hl2. simpl. by left.
Qed.

Lemma insertAll_lookup_absent fields l name :
  name ∉ l.*1 -> insertAll fields l !! name = fields !! name.
Proof.
  revert fields. induction l as [|[n q] l IH]; intros fields Hl; simpl; [done|].
  rewrite IH.
  - apply lookup_insert_ne. intros ->. apply Hl. simpl. by left.
  - intros Hin. apply Hl. simpl. by right.
Qed.

(** C6, as stated, fails in the second revision for an embedded struct
    that carries the ignore annotation: its fields are not collected.  The
    first revision collects them. *)
Lemma ignored_embedded_struct_is_not_collected :
  collectStructFields part_000 [] examples.ignoredEmbedding ∅ = Some ∅
  /\ resolvedFields part_000 [] examples.ignoredEmbedding = Some []
  /\ collectStructFields dto_go [] examples.ignoredEmbedding ∅
     = Some {["Name" := [0; 0]%nat]}.
Proof. repeat split; reflexivity. Qed.

(** C6, amended: in both revisions the resolver enters into the field map
    the resolved fields of the struct, in declaration order: a field that
    the revision skips for its annotation (none in the first revision)
    contributes nothing; an embedded field that is not skipped contributes
    the resolved fields of its own struct type, recursively, at its place;
    any other field contributes its declared name.  Entering a name again
    overwrites: the map holds for every name the path of the last resolved
    field of that name, and what it held before for a name that no resolved
    field has.  The resolver fails only on an embedded field whose type is
    not a struct; a name collision is no failure. *)
Theorem embedded_fields_are_flattened_last_wins
  (rev : revision) (path : list nat) (t : Type_) (fields : structValueMap) :
  collectStructFields rev path t fields =
    insertAll fields <$> resolvedFields rev path t
  /\ (forall fs, resolvedFields rev path (TStruct fs) =
                 resolvedFieldsFrom rev path fs 0)
  /\ (forall f rest i,
        resolvedFieldsFrom rev path (f :: rest) i =
        if skipsField rev f then resolvedFieldsFrom rev path rest (S i)
        else if Anonymous f then
          inner ← resolvedFields rev (path ++ [i]) (Typ f);
          later ← resolvedFieldsFrom rev path rest (S i);
          Some (inner ++ later)
        else
          later ← resolvedFieldsFrom rev path rest (S i);
          Some ((Name f, path ++ [i]) :: later))
  /\ (forall f, skipsField dto_go f = false)
  /\ (forall l1 name p l2,
        name ∉ l2.*1 ->
        insertAll fields (l1 ++ (name, p) :: l2) !! name = Some p)
  /\ (forall l name,
        name ∉ l.*1 -> insertAll fields l !! name = fields !! name).
Proof.
  split; [apply collectStructFields_resolved|].
  split; [intros; apply resolvedFields_struct|].
  split; [done|]. split; [done|].
  split; [intros; by apply insertAll_lookup_last|].
  intros; by apply insertAll_lookup_absent.
Qed.

(** ** The ignore annotation *)

Lemma HasPrefix_app p rest : strings.HasPrefix (p ++ rest)%string p = true.
Proof. induction p as [|c p IH]; simpl; [done|]. by rewrite decide_True. Qed.

Lemma HasPrefix_inv s p :
  strings.HasPrefix s p = true -> exists rest, s = (p ++ rest)%string.
Proof.
  revert s. induction p as [|c p IH]; intros s; simpl.
  - by exists s.
  - destruct s as [|d s]; [done|].
    destruct (decide (c = d)) as [->|]; [|done].
    intros [rest ->]%IH. by exists rest.
Qed.

Lemma Contains_HasPrefix s substr :
  strings.HasPrefix s substr = true -> strings.Contains s substr = true.
Proof. intros H. destruct s; simpl; by rewrite H. Qed.

(** [strings.Contains(s, substr)] holds exactly when [substr] occurs in
    [s]. *)
Lemma Contains_spec s substr :
  strings.Contains s substr = true <->
  exists pre post, s = (pre ++ substr ++ post)%string.
Proof.
  split.
  - induction s as [|c s IH]; simpl.
    + rewrite orb_false_r. intros [rest ->]%HasPrefix_inv.
      by exists ""%string, rest.
    + intros [[rest Hrest]%HasPrefix_inv|Hs]%orb_true_iff.
      * by exists ""%string, rest.
      * destruct (IH Hs) as (pre & post & ->).
        by exists (String.String c pre), post.
  - intros (pre & post & ->). induction pre as [|c pre IH].
    + change (strings.Contains (substr ++ post)%string substr = true).
      apply Contains_HasPrefix, HasPrefix_app.
    + simpl. rewrite IH. apply orb_true_r.
Qed.

Lemma collectFieldsFrom_app rev path l1 l2 i fields :
  collectFieldsFrom rev path (l1 ++ l2) i fields =
  fields' ← collectFieldsFrom rev path l1 i fields;
  collectFieldsFrom rev path l2 (i + length l1) fields'.
Proof.
  revert i fields. induction l1 as [|f l1 IH]; intros i fields; simpl.
  - by rewrite Nat.add_0_r.
  - replace (i + S (length l1))%nat with (S i + length l1)%nat by lia.
    destruct (skipsField rev f); [apply IH|].
    destruct (Anonymous f); [|apply IH].
    destruct (collectStructFields rev (path ++ [i]) (Typ f) fields);
      [apply IH|done].
Qed.

(** C9: in the second revision, a field whose [dto] tag value contains
    ["ignore"] anywhere is skipped by the resolver: the loop goes on to the
    next field with the field map unchanged, without entering the field and
    without descending into it, so the struct resolves as if the field were
    not declared, the other fields keeping their indices. *)
Theorem ignore_tag_is_matched_by_containment
  (path : list nat) (f : StructField) (tags pre post : string) :
  Lookup (Tag f) structTag = Some tags ->
  tags = (pre ++ "ignore" ++ post)%string ->
  strings.Contains tags "ignore" = true
  /\ skipsField part_000 f = true
  /\ (forall rest i fields,
        collectFieldsFrom part_000 path (f :: rest) i fields =
        collectFieldsFrom part_000 path rest (S i) fields)
  /\ (forall before after fields,
        collectStructFields part_000 path (TStruct (before ++ f :: after))
          fields =
        fields' ← collectFieldsFrom part_000 path before 0 fields;
        collectFieldsFrom part_000 path after (S (length before)) fields').
Proof.
  intros Htag Htags.
  assert (Hc : strings.Contains tags "ignore" = true).
  { apply Contains_spec. by exists pre, post. }
  assert (Hskip : skipsField part_000 f = true).
  { simpl. by rewrite Htag. }
  split; [done|]. split; [done|]. split.
  - intros rest i fields. simpl. by rewrite Htag, Hc.
  - intros before after fields.
    rewrite collectStructFields_struct, collectFieldsFrom_app. simpl.
    destruct (collectFieldsFrom part_000 path before 0 fields); simpl;
      [|done].
    by rewrite Htag, Hc.
Qed.

(** The tag [dto:"noignore"] contains ["ignore"]: the field is skipped. *)
Lemma ignore_tag_is_matched_by_containment_witness :
  skipsField part_000
    (mkField "X" examples.int false [("dto", "noignore")]) = true.
Proof.
  exact (proj1 (proj2
           (ignore_tag_is_matched_by_containment []
              (mkField "X" examples.int false [("dto", "noignore")])
              "noignore" "no" "" eq_refl eq_refl))).
Defined.

(** The struct of the example: only [Id] is resolved, although the field
    tagged ["ignores"] is embedded and not a struct; the first revision
    panics on it. *)
Example taggedOrder_resolves_Id :
  collectStructFields part_000 [] examples.taggedOrder ∅
  = Some {["Id" := [0%nat]]}
  /\ collectStructFields dto_go [] examples.taggedOrder ∅ = None.
Proof. split; reflexivity. Qed.

(** ** The recursion budget

    [depth] only bounds the nesting of calls: a call that returns or panics
    within a budget does the same within any larger one. *)

Section Budget.

Context {RT : Runtime}.
Variable rev : revision.
Variables rec rec' : Value -> Value -> outcome result.
Hypothesis rec_refines : forall toRv fromRv,
  refines (rec toRv fromRv) (rec' toRv fromRv).

Lemma refines_refl {A} (r : outcome A) : refines r r.
Proof. by right. Qed.

Lemma refines_bind {A B} (x x' : outcome A) (f f' : A -> outcome B) :
  refines x x' -> (forall a, refines (f a) (f' a)) ->
  refines (x ≫= f) (x' ≫= f').
Proof.
  intros [->| ->] Hf; [by left|]. destruct x' as [a| |]; simpl.
  - apply Hf.
  - by right.
  - by right.
Qed.

Ltac refines_step :=
  first
    [ apply refines_refl
    | apply rec_refines
    | apply refines_bind; [|intros ?]
    | match goal with
      | |- refines (match ?x with _ => _ end) (match ?x with _ => _ end) =>
          destruct x
      end ].

Lemma mapSliceLoop_refines n i toRv fromRv :
  refines (mapSliceLoop rec n i toRv fromRv)
          (mapSliceLoop rec' n i toRv fromRv).
Proof.
  revert i toRv. induction n as [|n IH]; intros i toRv; simpl;
    repeat refines_step. apply IH.
Qed.

Lemma mapMapLoop_refines mapIt toRv :
  refines (mapMapLoop rec mapIt toRv) (mapMapLoop rec' mapIt toRv).
Proof.
  revert toRv. induction mapIt as [|[key value] mapIt IH]; intros toRv; simpl;
    repeat refines_step. apply IH.
Qed.

Lemma mapStructsLoop_refines toFields fromFields toRv fromRv :
  refines (mapStructsLoop rec toFields fromFields toRv fromRv)
          (mapStructsLoop rec' toFields fromFields toRv fromRv).
Proof.
  revert toRv. induction toFields as [|[name path] toFields IH];
    intros toRv; simpl; repeat refines_step; apply IH.
Qed.

Lemma mapMapToSliceLoop_refines mapIt i toRv :
  refines (mapMapToSliceLoop rec mapIt i toRv)
          (mapMapToSliceLoop rec' mapIt i toRv).
Proof.
  revert i toRv. induction mapIt as [|[key value] mapIt IH]; intros i toRv;
    simpl; repeat refines_step. apply IH.
Qed.

Lemma flattenInner_refines n j i toRv mapSlice_ :
  refines (flattenInner rec n j i toRv mapSlice_)
          (flattenInner rec' n j i toRv mapSlice_).
Proof.
  revert j i toRv. induction n as [|n IH]; intros j i toRv; simpl;
    repeat refines_step. apply IH.
Qed.

Lemma flattenLoop_refines mapIt i toRv :
  refines (flattenLoop rec mapIt i toRv) (flattenLoop rec' mapIt i toRv).
Proof.
  revert i toRv. induction mapIt as [|[key value] mapIt IH]; intros i toRv;
    simpl; [apply refines_refl|].
  apply refines_bind; [apply refines_refl|]. intros n.
  apply refines_bind; [apply flattenInner_refines|].
  intros [[toRv' i'] [e|]]; [apply refines_refl | apply IH].
Qed.

Lemma mapComposite_refines toRv fromRv :
  refines (mapComposite rev rec toRv fromRv)
          (mapComposite rev rec' toRv fromRv).
Proof.
  unfold mapComposite, mapStructs, mapSlice, mapMap, mapMapToSlice,
    mapMapSlicesToSlice.
  repeat (case_decide || refines_step);
    try apply mapStructsLoop_refines; try apply mapSliceLoop_refines;
    try apply mapMapLoop_refines; try apply mapMapToSliceLoop_refines;
    try apply flattenLoop_refines.
Qed.

Lemma mapValueBody_refines m toRv fromRv :
  refines (mapValueBody rev rec m toRv fromRv)
          (mapValueBody rev rec' m toRv fromRv).
Proof.
  unfold mapValueBody.
  destruct (runConvFuncs m toRv fromRv) as [[toRv' [|]] err];
    [apply refines_refl|].
  destruct (if attemptsDirect _ _ _ then _ else _);
    [apply refines_refl | apply mapComposite_refines].
Qed.

End Budget.

Lemma mapValue_S_refines (RT : Runtime) rev depth m toRv fromRv :
  refines (mapValue rev depth m toRv fromRv)
          (mapValue rev (S depth) m toRv fromRv).
Proof.
  revert toRv fromRv. induction depth as [|depth IH]; intros toRv fromRv.
  - by left.
  - rewrite (mapValue_S rev (S depth)), (mapValue_S rev depth).
    apply refines_bind; [|intros; apply refines_refl].
    by apply mapValueBody_refines.
Qed.

(** A result obtained within a budget is the result within any larger
    one. *)
Lemma mapValue_depth_mono (RT : Runtime) rev depth depth' m toRv fromRv :
  (depth <= depth')%nat ->
  refines (mapValue rev depth m toRv fromRv)
          (mapValue rev depth' m toRv fromRv).
Proof.
  induction 1 as [|depth' _ IH]; [apply refines_refl|].
  destruct IH as [->| ->]; [by left|]. apply mapValue_S_refines.
Qed.

(** ** Termination

    The nesting of calls is bounded by the nesting depth of the source plus
    that of the destination slot. *)

Lemma max_list_map_le {A} (f : A -> nat) l x :
  x ∈ l -> (f x <= max_list (List.map f l))%nat.
Proof.
  intros Hx. apply max_list_elem_of_le.
  change (List.map f l) with (f <$> l). apply list_elem_of_fmap. eauto.
Qed.

Lemma max_list_map_lub {A} (f : A -> nat) l n :
  (forall x, x ∈ l -> (f x <= n)%nat) -> (max_list (List.map f l) <= n)%nat.
Proof.
  induction l as [|x l IH]; intros Hl; simpl; [lia|].
  apply Nat.max_lub.
  - apply Hl. by left.
  - apply IH. intros y Hy. apply Hl. by right.
Qed.

Lemma typeHeight_underlying t : typeHeight (underlying t) = typeHeight t.
Proof. induction t; simpl; auto. Qed.

Lemma typeHeight_Elem t e : Elem t = Some e -> (typeHeight e < typeHeight t)%nat.
Proof.
  unfold Elem. rewrite <- (typeHeight_underlying t).
  destruct (underlying t); intros [= <-]; simpl; lia.
Qed.

Lemma typeHeight_Key t k : Key t = Some k -> (typeHeight k < typeHeight t)%nat.
Proof.
  unfold Key. rewrite <- (typeHeight_underlying t).
  destruct (underlying t); intros [= <-]; simpl; lia.
Qed.

Lemma slotHeight_TypeOf v : (typeHeight (TypeOf v) < slotHeight v)%nat.
Proof. destruct v as [| | |t [p|]| | |]; simpl; lia. Qed.

Lemma slotHeight_zeroAs u : forall t,
  (typeHeight u <= typeHeight t)%nat ->
  (slotHeight (zeroAs t u) <= S (typeHeight t))%nat.
Proof.
  induction u as [b|n u IH|e _|e _|k e _ _|fs IH] using Type_nested_ind;
    intros t Ht; simpl in *.
  - by destruct b.
  - by apply IH.
  - done.
  - done.
  - done.
  - apply le_n_S, Nat.max_lub; [done|].
    rewrite List.map_map. apply max_list_map_lub.
    intros [n ft a tg] Hf.
    rewrite Forall_forall in IH. specialize (IH _ Hf ft). simpl in IH.
    etrans; [apply IH; lia|].
    pose proof (max_list_map_le
                  (fun f => match f with mkField _ ft _ _ => typeHeight ft end)
                  fs _ Hf) as Hle.
    simpl in Hle. lia.
Qed.

Lemma slotHeight_Zero t : (slotHeight (Zero t) <= S (typeHeight t))%nat.
Proof. by apply slotHeight_zeroAs. Qed.

Lemma withinBudget_bind {A B} (x : outcome A) (f : A -> outcome B) :
  withinBudget x = true ->
  (forall a, x = Ret a -> withinBudget (f a) = true) ->
  withinBudget (x ≫= f) = true.
Proof. destruct x as [a| |]; simpl; intros Hx Hf; [by apply Hf|done..]. Qed.

Lemma withinBudget_orPanic {A} (o : option A) :
  withinBudget (orPanic o) = true.
Proof. by destruct o. Qed.

Lemma orPanic_Ret {A} (o : option A) a : orPanic o = Ret a -> o = Some a.
Proof. destruct o; simpl; congruence. Qed.

Lemma Index_SetIndex_ne v i x v' j :
  SetIndex v i x = Some v' -> i <> j -> Index v' j = Index v j.
Proof.
  unfold SetIndex, Index. destruct v as [| | | |t [l|]| |]; try done.
  destruct (decide _); [|done]. intros [= <-] Hne.
  simpl. by apply list_lookup_insert_ne.
Qed.

Lemma Index_valueHeight v i s :
  Index v i = Some s -> (valueHeight s < valueHeight v)%nat.
Proof.
  unfold Index. destruct v as [| | | |t [l|]| |]; simpl; try done.
  intros Hs%list_elem_of_lookup_2.
  apply (max_list_map_le valueHeight) in Hs. lia.
Qed.

Lemma MakeSlice_slots t n v j x :
  MakeSlice t n = Some v -> Index v j = Some x ->
  (slotHeight x < S (typeHeight t))%nat.
Proof.
  unfold MakeSlice. destruct (underlying t) eqn:Hu; try done.
  intros [= <-]. unfold Index. simpl.
  intros [-> _]%lookup_replicate.
  assert (typeHeight t0 < typeHeight t)%nat.
  { apply typeHeight_Elem. unfold Elem. by rewrite Hu. }
  pose proof (slotHeight_Zero t0). lia.
Qed.

Section TerminationLoops.

Context {RT : Runtime}.
Variable rev : revision.
Variable rec : Value -> Value -> outcome result.
Variable N : nat.
Hypothesis rec_within : forall toRv fromRv,
  (valueHeight fromRv + slotHeight toRv < N)%nat ->
  withinBudget (rec toRv fromRv) = true.

Lemma mapSliceLoop_within hs hv n i toRv fromRv :
  (hv + hs <= S N)%nat ->
  (forall j x, (i <= j)%nat -> Index toRv j = Some x ->
               (slotHeight x < hs)%nat) ->
  (forall j s, Index fromRv j = Some s -> (valueHeight s < hv)%nat) ->
  withinBudget (mapSliceLoop rec n i toRv fromRv) = true.
Proof.
  intros HN. revert i toRv. induction n as [|n IH]; intros i toRv Hto Hfrom;
    simpl; [done|].
  apply withinBudget_bind; [apply withinBudget_orPanic|].
  intros toElem HtoElem%orPanic_Ret.
  apply withinBudget_bind; [apply withinBudget_orPanic|].
  intros fromElem HfromElem%orPanic_Ret.
  apply withinBudget_bind.
  { apply rec_within. specialize (Hto i toElem (le_n _) HtoElem).
    specialize (Hfrom i fromElem HfromElem). lia. }
  intros [toElem' err] _.
  apply withinBudget_bind; [apply withinBudget_orPanic|].
  intros toRv' Hset%orPanic_Ret.
  destruct err; [done|]. apply IH; [|done].
  intros j x Hj Hx. apply (Hto j x); [lia|].
  rewrite <- (Index_SetIndex_ne _ _ _ _ j Hset); [done|lia].
Qed.

Lemma mapMapToSliceLoop_within hs hv mapIt i toRv :
  (hv + hs <= S N)%nat ->
  (forall j x, (i <= j)%nat -> Index toRv j = Some x ->
               (slotHeight x < hs)%nat) ->
  (forall k v, (k, v) ∈ mapIt -> (valueHeight v < hv)%nat) ->
  withinBudget (mapMapToSliceLoop rec mapIt i toRv) = true.
Proof.
  intros HN. revert i toRv.
  induction mapIt as [|[key value] mapIt IH]; intros i toRv Hto Hfrom;
    simpl; [done|].
  apply withinBudget_bind; [apply withinBudget_orPanic|].
  intros toElem HtoElem%orPanic_Ret.
  apply withinBudget_bind.
  { apply rec_within. specialize (Hto i toElem (le_n _) HtoElem).
    specialize (Hfrom key value). 
    assert (valueHeight value < hv)%nat by (apply Hfrom; by left). lia. }
  intros [toElem' err] _.
  apply withinBudget_bind; [apply withinBudget_orPanic|].
  intros toRv' Hset%orPanic_Ret.
  destruct err; [done|]. apply IH.
  - intros j x Hj Hx. apply (Hto j x); [lia|].
    rewrite <- (Index_SetIndex_ne _ _ _ _ j Hset); [done|lia].
  - intros k v Hkv. apply (Hfrom k v). by right.
Qed.

Lemma flattenInner_within hs hv n j i toRv mapSlice_ :
  (hv + hs <= S N)%nat ->
  (forall k x, (i <= k)%nat -> Index toRv k = Some x ->
               (slotHeight x < hs)%nat) ->
  (forall k s, Index mapSlice_ k = Some s -> (valueHeight s < hv)%nat) ->
  withinBudget (flattenInner rec n j i toRv mapSlice_) = true
  /\ forall toRv' i', flattenInner rec n j i toRv mapSlice_
                      = Ret (toRv', i', None) ->
       forall k x, (i' <= k)%nat -> Index toRv' k = Some x ->
                   (slotHeight x < hs)%nat.
Proof.
  intros HN. revert j i toRv. induction n as [|n IH]; intros j i toRv Hto Hfrom;
    simpl.
  { split; [done|]. intros toRv' i' [= <- <-]. done. }
  destruct (Index toRv i) as [toElem|] eqn:HtoElem; simpl; [|done].
  destruct (Index mapSlice_ j) as [fromElem|] eqn:HfromElem; simpl; [|done].
  assert (Hrec : withinBudget (rec toElem fromElem) = true).
  { apply rec_within. specialize (Hto i toElem (le_n _) HtoElem).
    specialize (Hfrom j fromElem HfromElem). lia. }
  destruct (rec toElem fromElem) as [[toElem' err]| |]; simpl; [|done..].
  destruct (SetIndex toRv i toElem') as [toRv1|] eqn:Hset; simpl; [|done].
  destruct err; [done|]. apply IH; [|done].
  intros k x Hk Hx. apply (Hto k x); [lia|].
  rewrite <- (Index_SetIndex_ne _ _ _ _ k Hset); [done|lia].
Qed.

Lemma flattenLoop_within hs hv mapIt i toRv :
  (hv + hs <= S N)%nat ->
  (forall k x, (i <= k)%nat -> Index toRv k = Some x ->
               (slotHeight x < hs)%nat) ->
  (forall key value k s, (key, value) ∈ mapIt -> Index value k = Some s ->
                         (valueHeight s < hv)%nat) ->
  withinBudget (flattenLoop rec mapIt i toRv) = true.
Proof.
  intros HN. revert i toRv.
  induction mapIt as [|[key value] mapIt IH]; intros i toRv Hto Hfrom;
    simpl; [done|].
  apply withinBudget_bind; [apply withinBudget_orPanic|].
  intros n _.
  destruct (flattenInner_within hs hv n 0 i toRv value HN Hto) as [Hw Hinv].
  { intros k s. apply (Hfrom key value). by left. }
  apply withinBudget_bind; [done|].
  intros [[toRv' i'] err] Hinner.
  destruct err; [done|]. apply IH.
  - by apply Hinv.
  - intros key' value' k s Hin. apply (Hfrom key' value'). by right.
Qed.

Lemma FieldByIndex_slotHeight p : forall v x,
  p <> [] -> FieldByIndex v p = Some x -> (slotHeight x < slotHeight v)%nat.
Proof.
  induction p as [|i p IH]; intros v x Hp; [done|]. simpl.
  destruct v as [| | | | | |t fs]; try done.
  destruct (fs !! i) as [f|] eqn:Hf; simpl; [|done]. intros Hx.
  assert (Hle : (slotHeight f <= max_list (List.map slotHeight fs))%nat).
  { apply max_list_map_le. by eapply list_elem_of_lookup_2. }
  destruct p as [|j p].
  - injection Hx as <-. simpl. lia.
  - specialize (IH f x ltac:(done) Hx). simpl. lia.
Qed.

Lemma FieldByIndex_valueHeight p : forall v x,
  p <> [] -> FieldByIndex v p = Some x -> (valueHeight x < valueHeight v)%nat.
Proof.
  induction p as [|i p IH]; intros v x Hp; [done|]. simpl.
  destruct v as [| | | | | |t fs]; try done.
  destruct (fs !! i) as [f|] eqn:Hf; simpl; [|done]. intros Hx.
  assert (Hle : (valueHeight f <= max_list (List.map valueHeight fs))%nat).
  { apply max_list_map_le. by eapply list_elem_of_lookup_2. }
  destruct p as [|j p].
  - injection Hx as <-. simpl. lia.
  - specialize (IH f x ltac:(done) Hx). simpl. lia.
Qed.

Lemma FieldByIndex_SetFieldByIndex_other p : forall v x v' q,
  SetFieldByIndex v p x = Some v' -> incomparable p q ->
  FieldByIndex v' q = FieldByIndex v q.
Proof.
  induction p as [|i p IH]; intros v x v' q Hset [Hpq Hqp].
  - destruct Hpq. apply prefix_nil.
  - simpl in Hset. destruct v as [| | | | | |t fs]; try done.
    destruct (fs !! i) as [f|] eqn:Hf; simpl in Hset; [|done].
    destruct (SetFieldByIndex f p x) as [f'|] eqn:Hset'; simpl in Hset;
      [|done].
    injection Hset as <-.
    destruct q as [|j q]; [destruct Hqp; apply prefix_nil|]. simpl.
    destruct (decide (i = j)) as [<-|Hne].
    + rewrite list_lookup_insert_eq by (by eapply lookup_lt_Some).
      rewrite Hf. simpl. apply (IH _ _ _ _ Hset'). split.
      * intros H. apply Hpq. by apply prefix_cons.
      * intros H. apply Hqp. by apply prefix_cons.
    + by rewrite list_lookup_insert_ne.
Qed.

Lemma mapStructsLoop_within hs hv toFields fromFields toRv fromRv :
  (hv + hs <= S N)%nat ->
  pairwiseIncomparable toFields ->
  (forall name p x, (name, p) ∈ toFields -> FieldByIndex toRv p = Some x ->
                    (slotHeight x < hs)%nat) ->
  (forall name p x, fromFields !! name = Some p ->
                    FieldByIndex fromRv p = Some x ->
                    (valueHeight x < hv)%nat) ->
  withinBudget (mapStructsLoop rec toFields fromFields toRv fromRv) = true.
Proof.
  intros HN. revert toRv.
  induction toFields as [|[name toPath] toFields IH];
    intros toRv Hpw Hto Hfrom; simpl; [done|].
  assert (Hpw' : pairwiseIncomparable toFields).
  { intros a b na pa nb pb Hab Ha Hb.
    apply (Hpw (S a) (S b) na pa nb pb); [lia|done..]. }
  destruct (fromFields !! name) as [fromPath|] eqn:HfromPath.
  2:{ apply IH; [done| |done].
      intros n p x Hin. apply (Hto n p x). by right. }
  apply withinBudget_bind; [apply withinBudget_orPanic|].
  intros toValue HtoValue%orPanic_Ret.
  apply withinBudget_bind; [apply withinBudget_orPanic|].
  intros fromValue HfromValue%orPanic_Ret.
  apply withinBudget_bind.
  { apply rec_within.
    assert (slotHeight toValue < hs)%nat
      by (apply (Hto name toPath); [by left|done]).
    assert (valueHeight fromValue < hv)%nat by by eapply Hfrom.
    lia. }
  intros [toValue' err] _.
  apply withinBudget_bind; [apply withinBudget_orPanic|].
  intros toRv' Hset%orPanic_Ret.
  destruct err; [done|]. apply IH; [done| |done].
  intros n p x Hin Hx. apply (Hto n p x); [by right|].
  rewrite <- Hx. symmetry.
  apply (FieldByIndex_SetFieldByIndex_other _ _ _ _ _ Hset).
  apply list_elem_of_lookup_1 in Hin as [k Hk].
  apply (Hpw 0%nat (S k) name toPath n p); done.
Qed.

End TerminationLoops.

(** Paths of resolved fields. *)

Lemma incomparable_siblings path i a j b :
  i <> j -> incomparable (path ++ i :: a) (path ++ j :: b).
Proof.
  intros Hne. split; intros H%prefix_app_inv%prefix_cons_inv_1; congruence.
Qed.

Lemma pairwiseIncomparable_nil : pairwiseIncomparable [].
Proof. by intros a b na pa nb pb _ Ha. Qed.

Lemma incomparable_sym p q : incomparable p q -> incomparable q p.
Proof. by intros [??]. Qed.

Lemma pairwiseIncomparable_app l1 l2 :
  pairwiseIncomparable l1 -> pairwiseIncomparable l2 ->
  (forall n1 p1 n2 p2, (n1, p1) ∈ l1 -> (n2, p2) ∈ l2 -> incomparable p1 p2) ->
  pairwiseIncomparable (l1 ++ l2).
Proof.
  intros H1 H2 H12 a b na pa nb pb Hab Ha Hb.
  apply lookup_app_Some in Ha as [Ha|[Hla Ha]];
    apply lookup_app_Some in Hb as [Hb|[Hlb Hb]].
  - by eapply (H1 a b).
  - eapply H12; by eapply list_elem_of_lookup_2.
  - apply incomparable_sym. eapply H12; by eapply list_elem_of_lookup_2.
  - eapply (H2 (a - length l1)%nat (b - length l1)%nat); [lia|done..].
Qed.

Lemma resolvedFields_paths rev t : forall path l,
  resolvedFields rev path t = Some l ->
  (forall n p, (n, p) ∈ l -> exists j q, p = path ++ j :: q)
  /\ pairwiseIncomparable l.
Proof.
  induction t as [b|n u IH|e _|e _|k e _ _|fs IH] using Type_nested_ind;
    intros path l; try done.
  - apply IH.
  - rewrite resolvedFields_struct.
    enough (Hfrom : forall i l,
      resolvedFieldsFrom rev path fs i = Some l ->
      (forall n p, (n, p) ∈ l ->
         exists j q, (i <= j)%nat /\ p = path ++ j :: q)
      /\ pairwiseIncomparable l).
    { intros [Hp Hpw]%Hfrom. split; [|done].
      intros n p (j & q & _ & ->)%Hp. eauto. }
    clear l. induction IH as [|[n ft a tg] fs Hf _ IHfs]; intros i l; simpl.
    { intros [= <-]. split; [by intros ?? ?%elem_of_nil|].
      apply pairwiseIncomparable_nil. }
    assert (Hlater : forall later,
      resolvedFieldsFrom rev path fs (S i) = Some later ->
      (forall n p, (n, p) ∈ later ->
         exists j q, (S i <= j)%nat /\ p = path ++ j :: q)
      /\ pairwiseIncomparable later) by apply IHfs.
    destruct (skipsField rev _).
    { intros [Hp Hpw]%Hlater. split; [|done].
      intros n' p (j & q & Hj & ->)%Hp. exists j, q. split; [lia|done]. }
    destruct a; simpl.
    + destruct (resolvedFields rev (path ++ [i]) ft) as [inner|] eqn:Hinner;
        simpl; [|done].
      destruct (resolvedFieldsFrom rev path fs (S i)) as [later|] eqn:Hl;
        simpl; [|done].
      intros [= <-]. simpl in Hf.
      destruct (Hf _ _ Hinner) as [Hip Hipw].
      destruct (Hlater _ eq_refl) as [Hlp Hlpw].
      split.
      * intros n' p [Hin|Hin]%elem_of_app.
        -- destruct (Hip _ _ Hin) as (j & q & ->).
           exists i, (j :: q). split; [done|]. by rewrite <- (assoc_L (++)).
        -- destruct (Hlp _ _ Hin) as (j & q & Hj & ->).
           exists j, q. split; [lia|done].
      * apply pairwiseIncomparable_app; [done..|].
        intros n1 p1 n2 p2 Hin1 Hin2.
        destruct (Hip _ _ Hin1) as (j1 & q1 & ->).
        destruct (Hlp _ _ Hin2) as (j2 & q2 & Hj2 & ->).
        rewrite <- (assoc_L (++)). simpl.
        apply incomparable_siblings. lia.
    + destruct (resolvedFieldsFrom rev path fs (S i)) as [later|] eqn:Hl;
        simpl; [|done].
      intros [= <-].
      destruct (Hlater _ eq_refl) as [Hlp Hlpw].
      split.
      * intros n' p [[= -> ->]|Hin]%elem_of_cons.
        -- exists i, []. done.
        -- destruct (Hlp _ _ Hin) as (j & q & Hj & ->).
           exists j, q. split; [lia|done].
      * apply (pairwiseIncomparable_app [(n, path ++ [i])] later); [|done|].
        -- intros [|a] [|b] na pa nb pb Hab Ha Hb; done.
        -- intros n1 p1 n2 p2 [= -> ->]%list_elem_of_singleton Hin2.
           destruct (Hlp _ _ Hin2) as (j2 & q2 & Hj2 & ->).
           apply incomparable_siblings. lia.
Qed.

Lemma insertAll_lookup_inv l : forall fields n p,
  insertAll fields l !! n = Some p -> (n, p) ∈ l \/ fields !! n = Some p.
Proof.
  induction l as [|[n' p'] l IH]; intros fields n p; simpl; [by right|].
  intros [Hin|Hl]%IH; [left; by right|].
  destruct (decide (n' = n)) as [->|Hne].
  - rewrite lookup_insert_eq in Hl. injection Hl as ->. left. by left.
  - rewrite lookup_insert_ne in Hl by done. by right.
Qed.

(** The field map of a struct: nonempty paths, none leading through
    another. *)
Lemma collectStructFields_paths rev t fields :
  collectStructFields rev [] t ∅ = Some fields ->
  (forall n p, fields !! n = Some p -> p <> [])
  /\ pairwiseIncomparable (map_to_list fields).
Proof.
  rewrite collectStructFields_resolved.
  destruct (resolvedFields rev [] t) as [l|] eqn:Hl; simpl; [|done].
  intros [= <-]. destruct (resolvedFields_paths _ _ _ _ Hl) as [Hp Hpw].
  assert (Hin : forall n p, insertAll ∅ l !! n = Some p -> (n, p) ∈ l).
  { intros n p [H|H]%insertAll_lookup_inv; [done|].
    by rewrite lookup_empty in H. }
  split.
  - intros n p (j & q & ->)%Hin%Hp. done.
  - intros a b na pa nb pb Hab Ha Hb.
    assert (Hne : na <> nb).
    { intros ->. apply Hab.
      apply (NoDup_lookup _ a b nb (NoDup_fst_map_to_list (insertAll ∅ l)));
        rewrite list_lookup_fmap; [by rewrite Ha | by rewrite Hb]. }
    apply list_elem_of_lookup_2, elem_of_map_to_list, Hin,
      list_elem_of_lookup_1 in Ha as [a' Ha'].
    apply list_elem_of_lookup_2, elem_of_map_to_list, Hin,
      list_elem_of_lookup_1 in Hb as [b' Hb'].
    apply (Hpw a' b' na pa nb pb); [congruence|done..].
Qed.

Lemma Index_withType t v j : Index (withType t v) j = Index v j.
Proof. by destruct v. Qed.

Lemma TypeOf_withType t v : TypeOf (withType t v) = t.
Proof. by destruct v. Qed.

Lemma TypeOf_SetMapIndex m k v m' :
  SetMapIndex m k v = Some m' -> TypeOf m' = TypeOf m.
Proof. destruct m as [| | | | |t [l|]|]; simpl; try done. by intros [= <-]. Qed.

Lemma MapRange_valueHeight v mapIt k x :
  MapRange v = Some mapIt -> (k, x) ∈ mapIt ->
  (valueHeight k `max` valueHeight x < valueHeight v)%nat.
Proof.
  destruct v as [| | | | |t [l|]|]; simpl; try done.
  - intros [= <-] Hin.
    apply (max_list_map_le
             (fun kv : Value * Value =>
                match kv with (k, x) => valueHeight k `max` valueHeight x end))
      in Hin. simpl in Hin. lia.
  - intros [= <-] Hin. by apply elem_of_nil in Hin.
Qed.

Section TerminationTransformers.

Context {RT : Runtime}.
Variable rev : revision.
Variable rec : Value -> Value -> outcome result.
Variable N : nat.
Hypothesis rec_within : forall toRv fromRv,
  (valueHeight fromRv + slotHeight toRv < N)%nat ->
  withinBudget (rec toRv fromRv) = true.

Lemma mapMapLoop_within t mapIt hv toRv :
  TypeOf toRv = t ->
  (hv + typeHeight t <= N)%nat ->
  (forall k x, (k, x) ∈ mapIt ->
               (valueHeight k `max` valueHeight x < hv)%nat) ->
  withinBudget (mapMapLoop rec mapIt toRv) = true.
Proof.
  intros Ht HN. revert toRv Ht.
  induction mapIt as [|[key value] mapIt IH]; intros toRv Ht Hfrom; simpl;
    [done|].
  assert (Hkv : (valueHeight key `max` valueHeight value < hv)%nat)
    by (apply Hfrom; by left).
  apply withinBudget_bind; [apply withinBudget_orPanic|].
  intros keyType HkeyType%orPanic_Ret.
  apply withinBudget_bind; [apply withinBudget_orPanic|].
  intros elemType HelemType%orPanic_Ret.
  rewrite Ht in HkeyType, HelemType.
  apply typeHeight_Key in HkeyType. apply typeHeight_Elem in HelemType.
  apply withinBudget_bind.
  { apply rec_within. pose proof (slotHeight_Zero keyType). lia. }
  intros [toKey err] _. destruct err; [done|].
  apply withinBudget_bind.
  { apply rec_within. pose proof (slotHeight_Zero elemType). lia. }
  intros [toValue err] _. destruct err; [done|].
  apply withinBudget_bind; [apply withinBudget_orPanic|].
  intros toRv' Hset%orPanic_Ret. apply IH.
  - by rewrite (TypeOf_SetMapIndex _ _ _ _ Hset).
  - intros k x Hin. apply Hfrom. by right.
Qed.

Lemma mapMap_within toRv fromRv :
  (valueHeight fromRv + typeHeight (TypeOf toRv) <= N)%nat ->
  withinBudget (mapMap rec toRv fromRv) = true.
Proof.
  intros HN. unfold mapMap.
  apply withinBudget_bind; [apply withinBudget_orPanic|]. intros n _.
  apply withinBudget_bind; [apply withinBudget_orPanic|]. intros fresh _.
  apply withinBudget_bind; [apply withinBudget_orPanic|].
  intros mapIt HmapIt%orPanic_Ret.
  apply (mapMapLoop_within (TypeOf toRv) mapIt (valueHeight fromRv)).
  - apply TypeOf_withType.
  - done.
  - intros k x. by apply MapRange_valueHeight.
Qed.

Lemma mapSlice_within toRv fromRv :
  (valueHeight fromRv + S (typeHeight (TypeOf toRv)) <= S N)%nat ->
  withinBudget (mapSlice rec toRv fromRv) = true.
Proof.
  intros HN. unfold mapSlice.
  apply withinBudget_bind; [apply withinBudget_orPanic|]. intros n _.
  apply withinBudget_bind; [apply withinBudget_orPanic|].
  intros fresh Hfresh%orPanic_Ret.
  apply (mapSliceLoop_within rec N rec_within
           (S (typeHeight (TypeOf toRv))) (valueHeight fromRv)); [done| |].
  - intros j x _. unfold Set_. rewrite Index_withType.
    by eapply MakeSlice_slots.
  - intros j s. apply Index_valueHeight.
Qed.

Lemma mapMapToSlice_within toRv fromRv :
  (valueHeight fromRv + S (typeHeight (TypeOf toRv)) <= S N)%nat ->
  withinBudget (mapMapToSlice rec toRv fromRv) = true.
Proof.
  intros HN. unfold mapMapToSlice.
  apply withinBudget_bind; [apply withinBudget_orPanic|]. intros n _.
  apply withinBudget_bind; [apply withinBudget_orPanic|].
  intros fresh Hfresh%orPanic_Ret.
  apply withinBudget_bind; [apply withinBudget_orPanic|].
  intros mapIt HmapIt%orPanic_Ret.
  apply (mapMapToSliceLoop_within rec N rec_within
           (S (typeHeight (TypeOf toRv))) (valueHeight fromRv)); [done| |].
  - intros j x _. unfold Set_. rewrite Index_withType.
    by eapply MakeSlice_slots.
  - intros k v Hin. pose proof (MapRange_valueHeight _ _ _ _ HmapIt Hin). lia.
Qed.

Lemma mapMapSlicesToSlice_within toRv fromRv :
  (valueHeight fromRv + S (typeHeight (TypeOf toRv)) <= S N)%nat ->
  withinBudget (mapMapSlicesToSlice rec toRv fromRv) = true.
Proof.
  intros HN. unfold mapMapSlicesToSlice.
  apply withinBudget_bind; [apply withinBudget_orPanic|].
  intros mapIt HmapIt%orPanic_Ret.
  apply withinBudget_bind; [apply withinBudget_orPanic|]. intros total _.
  apply withinBudget_bind; [apply withinBudget_orPanic|].
  intros fresh Hfresh%orPanic_Ret.
  apply (flattenLoop_within rec N rec_within
           (S (typeHeight (TypeOf toRv))) (valueHeight fromRv)); [done| |].
  - intros j x _. unfold Set_. rewrite Index_withType.
    by eapply MakeSlice_slots.
  - intros key value k s Hin Hs.
    pose proof (MapRange_valueHeight _ _ _ _ HmapIt Hin).
    pose proof (Index_valueHeight _ _ _ Hs). lia.
Qed.

Lemma mapStructs_within toRv fromRv :
  (valueHeight fromRv + slotHeight toRv <= S N)%nat ->
  withinBudget (mapStructs rev rec toRv fromRv) = true.
Proof.
  intros HN. unfold mapStructs.
  apply withinBudget_bind; [apply withinBudget_orPanic|].
  intros toFields [HtoP HtoPw]%orPanic_Ret%collectStructFields_paths.
  apply withinBudget_bind; [apply withinBudget_orPanic|].
  intros fromFields [HfromP _]%orPanic_Ret%collectStructFields_paths.
  apply (mapStructsLoop_within rec N rec_within
           (slotHeight toRv) (valueHeight fromRv)); [done|done| |].
  - intros name p x Hin%elem_of_map_to_list.
    apply FieldByIndex_slotHeight. by eapply HtoP.
  - intros name p x Hin. apply FieldByIndex_valueHeight. by eapply HfromP.
Qed.
End TerminationTransformers.

Lemma mapMapToSlice_TypeOf rec toRv fromRv toRv1 err :
  mapMapToSlice rec toRv fromRv = Ret (toRv1, err) ->
  TypeOf toRv1 = TypeOf toRv.
Proof.
  intros Hret.
  destruct (MapRange fromRv) as [mapIt|] eqn:HmapIt.
  2:{ unfold mapMapToSlice in Hret. rewrite HmapIt in Hret.
      destruct (Len fromRv); simpl in Hret; [|done].
      by destruct (MakeSlice _ _). }
  destruct (underlying (TypeOf toRv)) as [| | |elemType| |] eqn:Hu.
  4:{ rewrite (mapMapToSlice_elementwise _ _ _ _ _ Hu HmapIt) in Hret.
      destruct (mapElementwise _ _ _) as [[ds e]| |]; simpl in Hret;
        [|done..].
      by injection Hret as <- _. }
  all: unfold mapMapToSlice, MakeSlice in Hret; rewrite Hu in Hret;
    by destruct (Len fromRv).
Qed.

Section TerminationDispatch.

Context {RT : Runtime}.
Variable rev : revision.
Variable rec : Value -> Value -> outcome result.
Variable N : nat.
Hypothesis rec_within : forall toRv fromRv,
  (valueHeight fromRv + slotHeight toRv < N)%nat ->
  withinBudget (rec toRv fromRv) = true.

Lemma mapComposite_within toRv fromRv :
  (valueHeight fromRv + slotHeight toRv <= N)%nat ->
  withinBudget (mapComposite rev rec toRv fromRv) = true.
Proof.
  intros HN. pose proof (slotHeight_TypeOf toRv) as HT.
  unfold mapComposite.
  destruct (decide (KindOf (TypeOf fromRv) = Ptr)).
  { destruct fromRv as [| | |t [elem|]| | |]; try done.
    apply rec_within. simpl in HN. lia. }
  destruct (decide (KindOf (TypeOf toRv) = Ptr)).
  { destruct toRv as [| | |t pointee| | |]; try done.
    apply withinBudget_bind; [apply withinBudget_orPanic|].
    intros elemType HelemType%orPanic_Ret%typeHeight_Elem.
    apply withinBudget_bind; [|by intros [??] _].
    apply rec_within. destruct pointee as [p|]; simpl in *; [lia|].
    pose proof (slotHeight_Zero elemType). lia. }
  destruct (decide _); [apply (mapStructs_within rev rec N rec_within); lia|].
  destruct (decide _); [apply (mapSlice_within rec N rec_within); lia|].
  destruct (decide _); [apply (mapMap_within rec N rec_within); lia|].
  destruct (decide _); [|done].
  apply withinBudget_bind;
    [apply (mapMapToSlice_within rec N rec_within); lia|].
  intros [toRv1 err] HtoRv1%mapMapToSlice_TypeOf.
  apply withinBudget_bind; [apply withinBudget_orPanic|]. intros mapElem _.
  destruct (_ && _); [|done].
  apply withinBudget_bind.
  { apply (mapMapSlicesToSlice_within rec N rec_within).
    rewrite HtoRv1. lia. }
  by intros [toRv2 [e|]] _.
Qed.

Lemma mapValueBody_within m toRv fromRv :
  (valueHeight fromRv + slotHeight toRv <= N)%nat ->
  withinBudget (mapValueBody rev rec m toRv fromRv) = true.
Proof.
  intros HN. unfold mapValueBody.
  destruct (runConvFuncs m toRv fromRv) as [[toRv' [|]] err]; [done|].
  destruct (if attemptsDirect _ _ _ then _ else _); [done|].
  by apply mapComposite_within.
Qed.

End TerminationDispatch.

Lemma mapValue_within (RT : Runtime) rev m depth : forall toRv fromRv,
  (valueHeight fromRv + slotHeight toRv < depth)%nat ->
  withinBudget (mapValue rev depth m toRv fromRv) = true.
Proof.
  induction depth as [|depth IH]; intros toRv fromRv Hd; [lia|].
  rewrite mapValue_S. apply withinBudget_bind; [|done].
  apply (mapValueBody_within rev _ depth IH). lia.
Qed.



(** ** The order of the flatten *)

Section FlattenOrder.

Variable rec : Value -> Value -> outcome result.

Lemma mapElementwise_app slots1 srcs1 slots2 srcs2 :
  length slots1 = length srcs1 ->
  mapElementwise rec (slots1 ++ slots2) (srcs1 ++ srcs2) =
  '(ds1, err) ← mapElementwise rec slots1 srcs1;
  match err with
  | Some e => Ret (ds1 ++ slots2, Some e)
  | None =>
      '(ds2, err2) ← mapElementwise rec slots2 srcs2;
      Ret (ds1 ++ ds2, err2)
  end.
Proof.
  revert srcs1. induction slots1 as [|slot slots1 IH]; intros [|src srcs1] Hlen;
    try done; simpl.
  - by destruct (mapElementwise rec slots2 srcs2) as [[ds2 err2]| |].
  - destruct (rec slot src) as [[d [e|]]| |]; simpl; try done.
    rewrite IH by (simpl in Hlen; lia).
    destruct (mapElementwise rec slots1 srcs1) as [[ds1 [e|]]| |]; simpl;
      try done.
    by destruct (mapElementwise rec slots2 srcs2) as [[ds2 err2]| |].
Qed.

(** The inner loop of the flatten maps the [n] sources from [j] on into the
    [n] slots from [i] on; without error it leaves [i] advanced by [n]. *)
Lemma flattenInner_elementwise n : forall t done todo rest j mapSlice_ inner,
  SliceElems mapSlice_ = Some inner ->
  length todo = n ->
  length inner = (j + n)%nat ->
  exists next : option error -> nat,
    next None = (length done + n)%nat /\
    flattenInner rec n j (length done)
      (VSlice t (Some (done ++ todo ++ rest))) mapSlice_ =
    '(ds, err) ← mapElementwise rec todo (drop j inner);
    Ret (VSlice t (Some (done ++ ds ++ rest)), next err, err).
Proof.
  induction n as [|n IH]; intros t done todo rest j mapSlice_ inner
    Hinner Htodo Hlen.
  - destruct todo; [|done]. rewrite drop_ge by lia.
    exists (fun _ => (length done + 0)%nat). split; [done|]. simpl.
    by rewrite Nat.add_0_r.
  - destruct todo as [|slot todo]; [done|]. simpl in Htodo.
    destruct (drop j inner) as [|src later] eqn:Hdrop.
    { apply (f_equal length) in Hdrop. rewrite length_drop in Hdrop.
      simpl in Hdrop. lia. }
    assert (Hsrc : inner !! j = Some src).
    { rewrite <- (Nat.add_0_r j), <- lookup_drop. by rewrite Hdrop. }
    assert (Hlater : drop (S j) inner = later).
    { replace (S j) with (j + 1)%nat by lia.
      rewrite <- drop_drop. by rewrite Hdrop. }
    cbn [flattenInner mapElementwise].
    rewrite Index_slice.
    change (done ++ (slot :: todo) ++ rest) with (done ++ slot :: todo ++ rest).
    rewrite list_lookup_middle by done. simpl.
    unfold Index at 1. rewrite Hinner. simpl. rewrite Hsrc. simpl.
    destruct (rec slot src) as [[d err]| |]; simpl.
    2,3: by exists (fun _ => (length done + S n)%nat).
    rewrite SetIndex_middle. simpl.
    destruct err as [e|].
    { exists (fun err => match err with
                         | None => (length done + S n)%nat
                         | Some _ => length done
                         end). done. }
    destruct (IH t (done ++ [d]) todo rest (S j) mapSlice_ inner Hinner
                ltac:(lia) ltac:(lia)) as (next & Hnext & Heq).
    rewrite length_app in Heq, Hnext. simpl in Heq, Hnext.
    rewrite Nat.add_1_r in Heq. rewrite <- (assoc_L (++)) in Heq.
    simpl in Heq. rewrite Heq, Hlater.
    exists next. split; [lia|].
    destruct (mapElementwise rec todo later) as [[ds err]| |]; simpl;
      [|done..].
    by rewrite <- (assoc_L (++)).
Qed.

Lemma sumLen_inners mapIt inners :
  Forall2 (fun kv inner => SliceElems kv.2 = Some inner) mapIt inners ->
  sumLen mapIt = Some (length (concat inners)).
Proof.
  induction 1 as [|[key value] inner mapIt inners Hinner _ IH]; simpl;
    [done|].
  simpl in Hinner.
  assert (HLen : Len value = Some (length inner)).
  { destruct value; try done. unfold Len. by rewrite Hinner. }
  rewrite HLen, IH. simpl. by rewrite length_app.
Qed.

Lemma mapElementwise_length slots : forall srcs ds err,
  mapElementwise rec slots srcs = Ret (ds, err) -> length ds = length slots.
Proof.
  induction slots as [|slot slots IH]; intros [|src srcs] ds err; simpl;
    try done.
  - by intros [= <- _].
  - destruct (rec slot src) as [[d [e|]]| |]; simpl; try done.
    + by intros [= <- _].
    + destruct (mapElementwise rec slots srcs) as [[ds' err']| |] eqn:Hrest;
        simpl; try done.
      intros [= <- _]. simpl. by rewrite (IH _ _ _ Hrest).
Qed.

Lemma flattenLoop_elementwise mapIt inners :
  Forall2 (fun kv inner => SliceElems kv.2 = Some inner) mapIt inners ->
  forall t done todo,
    length todo = length (concat inners) ->
    flattenLoop rec mapIt (length done) (VSlice t (Some (done ++ todo))) =
    '(ds, err) ← mapElementwise rec todo (concat inners);
    Ret (VSlice t (Some (done ++ ds)), err).
Proof.
  induction 1 as [|[key value] inner mapIt inners Hinner _ IH];
    intros t done todo Htodo; simpl in *.
  - destruct todo; [|done]. by simpl.
  - assert (HLen : Len value = Some (length inner)).
    { destruct value; try done. unfold Len. by rewrite Hinner. }
    rewrite HLen. simpl. rewrite length_app in Htodo.
    pose proof (take_drop (length inner) todo) as Hsplit.
    assert (Hl1 : length (take (length inner) todo) = length inner)
      by (rewrite length_take; lia).
    assert (Hl2 : length (drop (length inner) todo) = length (concat inners))
      by (rewrite length_drop; lia).
    revert Hsplit Hl1 Hl2.
    generalize (take (length inner) todo) (drop (length inner) todo).
    intros todo1 todo2 <- Hl1 Hl2. clear Htodo.
    destruct (flattenInner_elementwise (length inner) t done todo1 todo2
                0 value inner Hinner Hl1 eq_refl)
      as (next & Hnext & Heq).
    rewrite Heq, drop_0, mapElementwise_app by done.
    destruct (mapElementwise rec todo1 inner) as [[ds1 err]| |] eqn:H1;
      simpl; [|done..].
    destruct err as [e|]; simpl; [done|].
    rewrite Hnext.
    specialize (IH t (done ++ ds1) todo2 Hl2).
    rewrite length_app, (mapElementwise_length _ _ _ _ H1), Hl1 in IH.
    rewrite <- (assoc_L (++)) in IH. rewrite IH.
    destruct (mapElementwise rec todo2 (concat inners)) as [[ds2 err2]| |];
      simpl; [|done..].
    by rewrite <- (assoc_L (++)).
Qed.

(** [mapMapSlicesToSlice] is the element-wise mapping of the elements of all
    inner sequences, taken in the order of the entries and then in the
    order of each inner sequence, into fresh zero slots. *)
Lemma mapMapSlicesToSlice_elementwise toRv fromRv elemType mapIt inners :
  underlying (TypeOf toRv) = TSlice elemType ->
  MapRange fromRv = Some mapIt ->
  Forall2 (fun kv inner => SliceElems kv.2 = Some inner) mapIt inners ->
  mapMapSlicesToSlice rec toRv fromRv =
  '(ds, err) ← mapElementwise rec
                 (replicate (length (concat inners)) (Zero elemType))
                 (concat inners);
  Ret (VSlice (TypeOf toRv) (Some ds), err).
Proof.
  intros Ht Hit Hinners. unfold mapMapSlicesToSlice.
  rewrite Hit. simpl. rewrite (sumLen_inners _ _ Hinners). simpl.
  unfold MakeSlice. rewrite Ht. simpl.
  apply (flattenLoop_elementwise mapIt inners Hinners (TypeOf toRv) []).
  apply length_replicate.
Qed.

End FlattenOrder.

(** ** Structs *)

Lemma FieldByIndex_SetFieldByIndex_same p : forall v x v',
  SetFieldByIndex v p x = Some v' -> FieldByIndex v' p = Some x.
Proof.
  induction p as [|i p IH]; intros v x v'; simpl.
  - by intros [= <-].
  - destruct v as [| | | | | |t fs]; try done.
    destruct (fs !! i) as [f|] eqn:Hf; simpl; [|done].
    destruct (SetFieldByIndex f p x) as [f'|] eqn:Hset; simpl; [|done].
    intros [= <-]. simpl.
    rewrite list_lookup_insert_eq by (by eapply lookup_lt_Some). simpl.
    by eapply IH.
Qed.

Section Structs.

Variable rec : Value -> Value -> outcome result.

(** A field that no mapped field leads through keeps its content. *)
Lemma mapStructsLoop_frame toFields fromFields fromRv p :
  forall toRv toRv' err,
    (forall n' p', (n', p') ∈ toFields -> is_Some (fromFields !! n') ->
                   incomparable p' p) ->
    mapStructsLoop rec toFields fromFields toRv fromRv = Ret (toRv', err) ->
    FieldByIndex toRv' p = FieldByIndex toRv p.
Proof.
  induction toFields as [|[n0 p0] toFields IH]; intros toRv toRv' err Hinc;
    simpl.
  - by intros [= <- _].
  - assert (Hinc' : forall n' p', (n', p') ∈ toFields ->
                      is_Some (fromFields !! n') -> incomparable p' p).
    { intros n' p' Hin. apply Hinc. by right. }
    destruct (fromFields !! n0) as [q0|] eqn:Hq0; [|by apply IH].
    destruct (FieldByIndex toRv p0) as [x|]; simpl; [|done].
    destruct (FieldByIndex fromRv q0) as [y|]; simpl; [|done].
    destruct (rec x y) as [[d e]| |]; simpl; [|done..].
    destruct (SetFieldByIndex toRv p0 d) as [toRv1|] eqn:Hset; simpl; [|done].
    assert (Hp0 : incomparable p0 p).
    { apply (Hinc n0 p0); [by left|]. by rewrite Hq0. }
    pose proof (FieldByIndex_SetFieldByIndex_other _ _ _ _ _ Hset Hp0) as H1.
    destruct e as [e|].
    + intros [= <- _]. done.
    + intros Hrest. rewrite <- H1. by eapply IH.
Qed.

(** After a loop without error, a field with a source of the same name
    holds the mapping of that source into what the field held. *)
Lemma mapStructsLoop_mapped toFields fromFields fromRv name p q :
  forall toRv toRv',
    pairwiseIncomparable toFields ->
    mapStructsLoop rec toFields fromFields toRv fromRv = Ret (toRv', None) ->
    (name, p) ∈ toFields ->
    fromFields !! name = Some q ->
    exists x y d,
      FieldByIndex toRv p = Some x /\ FieldByIndex fromRv q = Some y
      /\ rec x y = Ret (d, None) /\ FieldByIndex toRv' p = Some d.
Proof.
  induction toFields as [|[n0 p0] toFields IH]; intros toRv toRv' Hpw;
    simpl; [by intros _ ?%elem_of_nil|].
  assert (Hpw' : pairwiseIncomparable toFields).
  { intros a b na pa nb pb Hab Ha Hb.
    apply (Hpw (S a) (S b) na pa nb pb); [lia|done..]. }
  assert (Hhead : forall n' p', (n', p') ∈ toFields -> incomparable p0 p').
  { intros n' p' [k Hk]%list_elem_of_lookup_1.
    apply (Hpw 0%nat (S k) n0 p0 n' p'); done. }
  intros Hloop Hin Hq.
  destruct (fromFields !! n0) as [q0|] eqn:Hq0.
  2:{ apply elem_of_cons in Hin as [[= -> ->]|Hin]; [congruence|].
      by apply IH. }
  destruct (FieldByIndex toRv p0) as [x0|] eqn:Hx0; simpl in Hloop; [|done].
  destruct (FieldByIndex fromRv q0) as [y0|] eqn:Hy0; simpl in Hloop; [|done].
  destruct (rec x0 y0) as [[d0 e0]| |] eqn:Hrec; simpl in Hloop; [|done..].
  destruct (SetFieldByIndex toRv p0 d0) as [toRv1|] eqn:Hset; simpl in Hloop;
    [|done].
  destruct e0 as [e0|]; [done|].
  apply elem_of_cons in Hin as [[= -> ->]|Hin].
  - exists x0, y0, d0. rewrite Hq0 in Hq. injection Hq as <-.
    repeat split; try done.
    assert (Hframe : FieldByIndex toRv' p0 = FieldByIndex toRv1 p0).
    { apply (mapStructsLoop_frame toFields fromFields fromRv p0 toRv1 toRv'
               None); [|done].
      intros n' p' Hin' _. destruct (Hhead _ _ Hin'). by split. }
    rewrite Hframe. by eapply FieldByIndex_SetFieldByIndex_same.
  - destruct (IH _ _ Hpw' Hloop Hin Hq) as (x & y & d & Hx & Hy & Hd & Hres).
    exists x, y, d. repeat split; try done.
    rewrite <- Hx. symmetry.
    apply (FieldByIndex_SetFieldByIndex_other _ _ _ _ _ Hset).
    by eapply Hhead.
Qed.

End Structs.



(** ** A pointer destination *)

(** X3: when the source is not a pointer, the destination is, no conversion
    function is registered for the pair and steps 2 and 3 do not apply, the
    step of [mapValue] maps the source into the pointee of the destination:
    the pointee it has, or a fresh zero value of the element type when the
    destination is nil.  The destination then points to the result, also
    when the recursive call fails. *)
Theorem pointer_destination_is_allocated
  (RT : Runtime) (rev : revision)
  (rec : Value -> Value -> outcome result) (m : Mapper)
  (t elemType : Type_) (pointee : option Value) (fromRv : Value) :
  KindOf t = Ptr ->
  Elem t = Some elemType ->
  KindOf (TypeOf fromRv) <> Ptr ->
  convFuncFor m (TypeOf fromRv) t = None ->
  directOrConvert (VPtr t pointee) fromRv = None ->
  mapValueBody rev rec m (VPtr t pointee) fromRv =
  '(toElem', err) ← rec (default (Zero elemType) pointee) fromRv;
  Ret (VPtr t (Some toElem'), err).
Proof.
  intros Ht He Hf Hconv Hdirect.
  rewrite mapValueBody_not_converted by done. rewrite Hdirect.
  assert (Hcomposite :
    mapComposite rev rec (VPtr t pointee) fromRv =
    '(toElem', err) ← rec (default (Zero elemType) pointee) fromRv;
    Ret (VPtr t (Some toElem'), err)).
  { unfold mapComposite. rewrite decide_False by done. simpl.
    rewrite Ht, decide_True by done. by rewrite He. }
  rewrite Hcomposite. by destruct (attemptsDirect _ _ _).
Qed.

(** An [int] into a nil [*int8]: the destination is allocated and holds the
    converted value. *)
Lemma pointer_destination_is_allocated_witness :
  mapValueBody dto_go (mapValue dto_go 1 emptyMapper) emptyMapper
    (VPtr (TPtr examples.int8) None) (VInt examples.int 300)
  = Ret (VPtr (TPtr examples.int8) (Some (VInt examples.int8 44)), None).
Proof.
  exact (pointer_destination_is_allocated goruntime.go dto_go
           (mapValue dto_go 1 emptyMapper) emptyMapper
           (TPtr examples.int8) examples.int8 None (VInt examples.int 300)
           eq_refl eq_refl ltac:(discriminate) eq_refl eq_refl).
Defined.

(** ** Map to sequence, element by element *)

(** X4: [mapMapToSlice] maps the values of the entries, in the order of the
    iteration, into as many fresh zero slots; without error the destination
    has one element per entry.  [mapMapSlicesToSlice] maps the elements of
    all inner sequences, in the order of the iteration and then in the order
    of each inner sequence, into as many fresh zero slots. *)
Theorem map_to_sequence_is_elementwise
  (RT : Runtime) (rev : revision) (depth : nat) (m : Mapper)
  (toRv fromRv : Value) (elemType : Type_) (mapIt : list (Value * Value)) :
  underlying (TypeOf toRv) = TSlice elemType ->
  MapRange fromRv = Some mapIt ->
  (mapMapToSlice (mapValue rev depth m) toRv fromRv =
   '(ds, err) ← mapElementwise (mapValue rev depth m)
                  (replicate (length mapIt) (Zero elemType)) (mapIt.*2);
   Ret (VSlice (TypeOf toRv) (Some ds), err))
  /\ (forall ds,
        Forall2 (fun src d =>
                   mapValue rev depth m (Zero elemType) src = Ret (d, None))
          (mapIt.*2) ds ->
        mapMapToSlice (mapValue rev depth m) toRv fromRv =
        Ret (VSlice (TypeOf toRv) (Some ds), None)
        /\ length ds = length mapIt)
  /\ (forall inners,
        Forall2 (fun kv inner => SliceElems kv.2 = Some inner) mapIt inners ->
        (mapMapSlicesToSlice (mapValue rev depth m) toRv fromRv =
         '(ds, err) ← mapElementwise (mapValue rev depth m)
                        (replicate (length (concat inners)) (Zero elemType))
                        (concat inners);
         Ret (VSlice (TypeOf toRv) (Some ds), err))
        /\ forall ds,
             Forall2 (fun src d =>
                        mapValue rev depth m (Zero elemType) src
                        = Ret (d, None))
               (concat inners) ds ->
             mapMapSlicesToSlice (mapValue rev depth m) toRv fromRv =
             Ret (VSlice (TypeOf toRv) (Some ds), None)).
Proof.
  intros Ht Hit. split; [|split].
  - by apply mapMapToSlice_elementwise.
  - intros ds Hds. split.
    + rewrite (mapMapToSlice_elementwise _ _ _ _ _ Ht Hit).
      replace (length mapIt) with (length (mapIt.*2)) by apply length_fmap.
      by rewrite (mapElementwise_ok _ _ _ _ Hds).
    + apply Forall2_length in Hds. by rewrite length_fmap in Hds.
  - intros inners Hinners. split.
    + by eapply mapMapSlicesToSlice_elementwise.
    + intros ds Hds.
      rewrite (mapMapSlicesToSlice_elementwise _ _ _ _ _ _ Ht Hit Hinners).
      by rewrite (mapElementwise_ok _ _ _ _ Hds).
Qed.

(** [map[string][]int{"a": {1, 2}, "b": {3}}] flattened into a [[]int8]. *)
Lemma map_to_sequence_is_elementwise_witness :
  mapMapSlicesToSlice (mapValue dto_go 1 emptyMapper)
    (Zero (TSlice examples.int8)) examples.groupedTwice
  = Ret (VSlice (TSlice examples.int8)
           (Some [VInt examples.int8 1; VInt examples.int8 2;
                  VInt examples.int8 3]), None).
Proof.
  apply (proj2 (proj2 (proj2
           (map_to_sequence_is_elementwise goruntime.go dto_go 1 emptyMapper
              (Zero (TSlice examples.int8)) examples.groupedTwice
              examples.int8 _ eq_refl eq_refl))
           [[VInt examples.int 1; VInt examples.int 2];
            [VInt examples.int 3]]
           ltac:(repeat constructor))).
  repeat constructor.
Defined.

(** * Further properties *)

(** ** The table of conversion functions *)

Lemma convFuncFor_AddConvFunc_ne inType outType f m fromType toType :
  (fromType, toType) <> (inType, outType) ->
  convFuncFor (AddConvFunc inType outType f m) fromType toType =
  convFuncFor m fromType toType.
Proof.
  intros Hne. unfold convFuncFor, AddConvFunc; simpl.
  destruct (decide (inType = fromType)) as [->|Ht].
  - rewrite tlookup_tinsert_eq; simpl.
    rewrite tlookup_tinsert_ne by congruence.
    by destruct (tlookup (convFunc m) fromType).
  - by rewrite tlookup_tinsert_ne.
Qed.

Lemma length_tinsert {V} (k : Type_) (v : V) m :
  (0 < length (tinsert k v m))%nat.
Proof.
  destruct m as [|[k' v'] m]; simpl; [lia|].
  destruct (decide _); simpl; lia.
Qed.

(** X6: [AddConvFunc] overwrites the function of its own pair of types and
    touches nothing else: the function found for the pair is the one
    registered last, the functions of every other pair and the inspection
    functions are as before, and [AddInspectFunc] leaves the conversion
    functions as they are.  A Mapper has custom functions as soon as one
    function of either sort is registered; [Mapper{}] has none. *)
Theorem AddConvFunc_overwrites_its_pair_only
  (m : Mapper) (inType outType : Type_) (f : convertFuncClosure) :
  (forall fromType toType,
     convFuncFor (AddConvFunc inType outType f m) fromType toType =
     if decide ((fromType, toType) = (inType, outType)) then Some f
     else convFuncFor m fromType toType)
  /\ (forall toType recvType,
        inspectFuncsFor (AddConvFunc inType outType f m) toType recvType =
        inspectFuncsFor m toType recvType)
  /\ (forall g : inspectFuncClosure, forall t r fromType toType,
        convFuncFor (AddInspectFunc t r g m) fromType toType =
        convFuncFor m fromType toType)
  /\ HasCustomFuncs (AddConvFunc inType outType f m) = true
  /\ (forall (g : inspectFuncClosure) t r,
        HasCustomFuncs (AddInspectFunc t r g m) = true)
  /\ HasCustomFuncs emptyMapper = false.
Proof.
  repeat split.
  - intros. destruct (decide _) as [Heq|Hne].
    + injection Heq as -> ->. apply convFuncFor_AddConvFunc.
    + by apply convFuncFor_AddConvFunc_ne.
  - unfold HasCustomFuncs, AddConvFunc; simpl. apply Nat.ltb_lt.
    pose proof (length_tinsert inType
      (tinsert outType f (default [] (tlookup (convFunc m) inType)))
      (convFunc m)).
    lia.
  - intros. unfold HasCustomFuncs, AddInspectFunc; simpl. apply Nat.ltb_lt.
    match goal with |- (0 < _ + length (tinsert ?k ?v ?l))%nat =>
      pose proof (length_tinsert k v l) end. lia.
Qed.

(** ** Where errors come from *)

Section Provenance.

Variable rev : revision.
Variable rec : Value -> Value -> outcome result.
Variable P : error -> Prop.
Hypothesis rec_errors : forall toRv fromRv, errorsIn P (rec toRv fromRv).

Ltac call_rec :=
  match goal with
  | |- forall _ _, mbind _ (rec ?a ?b) = _ -> _ =>
      let H := fresh "Hrec" in
      destruct (rec a b) as [[? [?|]]| |] eqn:H; simpl; try done;
      try (intros ? ? [= <- <-]; eapply rec_errors; eassumption)
  end.

Ltac reflect_op :=
  match goal with
  | |- context [orPanic ?o] => destruct o; simpl; [|done]
  end.

Lemma mapSliceLoop_errors n : forall i toRv fromRv,
  errorsIn P (mapSliceLoop rec n i toRv fromRv).
Proof using rec_errors.
  induction n as [|n IH]; intros i toRv fromRv; simpl; [by intros ? ? [=]|].
  unfold errorsIn. repeat reflect_op.
  destruct (rec v v0) as [[toElem' [e|]]| |] eqn:Hrec; simpl; try done.
  - reflect_op. intros ? ? [= <- <-]. eapply rec_errors; eassumption.
  - reflect_op. apply IH.
Qed.

Lemma mapMapLoop_errors mapIt : forall toRv,
  errorsIn P (mapMapLoop rec mapIt toRv).
Proof using rec_errors.
  induction mapIt as [|[k v] mapIt IH]; intros toRv; simpl;
    [by intros ? ? [=]|].
  unfold errorsIn. repeat reflect_op.
  call_rec. call_rec. reflect_op. apply IH.
Qed.

Lemma mapStructsLoop_errors toFields : forall fromFields toRv fromRv,
  errorsIn P (mapStructsLoop rec toFields fromFields toRv fromRv).
Proof using rec_errors.
  induction toFields as [|[name p] toFields IH]; intros fromFields toRv fromRv;
    simpl; [by intros ? ? [=]|].
  destruct (fromFields !! name) as [q|]; [|apply IH].
  unfold errorsIn. repeat reflect_op.
  destruct (rec v v0) as [[toValue' [e|]]| |] eqn:Hrec; simpl; try done.
  - reflect_op. intros ? ? [= <- <-]. eapply rec_errors; eassumption.
  - reflect_op. apply IH.
Qed.

Lemma mapMapToSliceLoop_errors mapIt : forall i toRv,
  errorsIn P (mapMapToSliceLoop rec mapIt i toRv).
Proof using rec_errors.
  induction mapIt as [|[k v] mapIt IH]; intros i toRv; simpl;
    [by intros ? ? [=]|].
  unfold errorsIn. repeat reflect_op.
  destruct (rec v0 v) as [[toElem' [e|]]| |] eqn:Hrec; simpl; try done.
  - reflect_op. intros ? ? [= <- <-]. eapply rec_errors; eassumption.
  - reflect_op. apply IH.
Qed.

Lemma mapComposite_errors toRv fromRv :
  (forall t f, P (ErrNoValidMapping t f)) ->
  errorsIn P (mapComposite rev rec toRv fromRv).
Proof using rec_errors.
  intros HP. unfold mapComposite.
  repeat case_decide.
  - destruct fromRv as [| | |? [?|]| | |]; done.
  - destruct toRv as [| | |t p| | |]; try done.
    unfold errorsIn. reflect_op. call_rec.
  - unfold mapStructs, errorsIn. repeat reflect_op. apply mapStructsLoop_errors.
  - unfold mapSlice, errorsIn. repeat reflect_op. apply mapSliceLoop_errors.
  - unfold mapMap, errorsIn. repeat reflect_op. apply mapMapLoop_errors.
  - unfold errorsIn.
    destruct (mapMapToSlice rec toRv fromRv) as [[toRv1 err]| |] eqn:Hfirst;
      simpl; try done.
    assert (Herr : forall e, err = Some e -> P e).
    { intros e ->. revert Hfirst. unfold mapMapToSlice. repeat reflect_op.
      intros Hloop. by eapply mapMapToSliceLoop_errors. }
    reflect_op.
    destruct (errorsAsNoValidMapping err && _).
    + destruct (mapMapSlicesToSlice rec toRv1 fromRv) as [[toRv2 [e2|]]| |];
        simpl; try done.
      intros ? ? [= <- Heq]. by apply Herr.
    + intros ? ? [= <- Heq]. by apply Herr.
  - intros ? ? [= <- <-]. apply HP.
Qed.

End Provenance.

Section ProvenanceDispatch.

Context {RT : Runtime}.

Lemma runFuncs_errors funcs : forall toRv fromRv d e,
  runFuncs funcs toRv fromRv = (d, Some e) ->
  exists f a b, f ∈ funcs /\ (f a b).2 = Some e.
Proof.
  induction funcs as [|f funcs IH]; intros toRv fromRv d e; simpl; [done|].
  destruct (f toRv fromRv) as [toRv' [err|]] eqn:Hf.
  - intros [= <- <-]. exists f, toRv, fromRv. split; [by left|]. by rewrite Hf.
  - intros (g & a & b & Hin & Hg)%IH. exists g, a, b. split; [by right | done].
Qed.

End ProvenanceDispatch.

(** X7: [mapValue] never makes up or wraps an error: the error it returns is
    an [ErrNoValidMapping], or it is, unchanged, the error returned by one
    of the registered conversion or inspection functions. *)
Theorem errors_are_passed_on_unchanged
  (RT : Runtime) (rev : revision) (depth : nat) (m : Mapper)
  (toRv fromRv toRv' : Value) (e : error) :
  mapValue rev depth m toRv fromRv = Ret (toRv', Some e) ->
  (exists t f, e = ErrNoValidMapping t f) \/ returnedByFunction m e.
Proof.
  revert toRv fromRv toRv' e.
  enough (IH : forall toRv fromRv,
            errorsIn (fun e => (exists t f, e = ErrNoValidMapping t f)
                               \/ returnedByFunction m e)
              (mapValue rev depth m toRv fromRv)) by (intros; by eapply IH).
  induction depth as [|depth IH]; intros toRv fromRv; [done|].
  rewrite mapValue_S. intros d e.
  destruct (mapValueBody rev (mapValue rev depth m) m toRv fromRv)
    as [[toRv' [err|]]| |] eqn:Hbody; simpl; try done.
  - intros [= <- <-]. revert Hbody. unfold mapValueBody.
    destruct (convFuncFor m (TypeOf fromRv) (TypeOf toRv)) as [f|] eqn:Hconv.
    + rewrite (runConvFuncs_found _ _ _ _ Hconv).
      destruct (f fromRv) as [val [e'|]] eqn:Hf; [|done].
      intros [= <- <-]. right. left.
      exists (TypeOf fromRv), (TypeOf toRv), f, fromRv. by rewrite Hf.
    + rewrite (runConvFuncs_none _ _ _ Hconv).
      destruct (if attemptsDirect _ _ _ then _ else _); [done|].
      intros Hc.
      refine (mapComposite_errors rev (mapValue rev depth m)
                (fun e => (exists t f, e = ErrNoValidMapping t f)
                          \/ returnedByFunction m e)
                IH toRv fromRv _ toRv' err Hc).
      intros t f. left. eauto.
  - rewrite runInspectFuncs_flat. intros [= Hrun].
    apply runFuncs_errors in Hrun as (f & a & b & Hin & Hf).
    right. right.
    apply elem_of_app in Hin as [Hin|Hin]; eauto 10.
Qed.

(** A string into an [int]: the error is the engine's own. *)
Lemma errors_are_passed_on_unchanged_witness :
  (exists t f, ErrNoValidMapping examples.int examples.string_
               = ErrNoValidMapping t f)
  \/ returnedByFunction emptyMapper
       (ErrNoValidMapping examples.int examples.string_).
Proof.
  apply (errors_are_passed_on_unchanged goruntime.go dto_go 1 emptyMapper
           (Zero examples.int) (VString examples.string_ "x")
           (Zero examples.int)
           (ErrNoValidMapping examples.int examples.string_)).
  reflexivity.
Defined.

(** ** Kinds that no rule brings together *)

(** For the Go runtime, types of two different composite kinds are neither
    assignable nor convertible to one another. *)
Lemma go_composite_kinds_apart src dst :
  isCompositeKind (KindOf src) = true -> isCompositeKind (KindOf dst) = true ->
  KindOf src <> KindOf dst ->
  AssignableTo src dst = false /\ ConvertibleTo src dst = false.
Proof.
  intros Hs Hd Hne. simpl.
  assert (Hni : forall c, goruntime.haveIdenticalUnderlyingType dst src c
                          = false).
  { intros c. destruct (goruntime.haveIdenticalUnderlyingType dst src c)
      eqn:H; [|done].
    apply identical_underlying_same_kind in H. congruence. }
  split.
  - unfold goruntime.directlyAssignable.
    destruct (decide (dst = src)) as [->|_]; [congruence|].
    rewrite Hni. by destruct (_ && _).
  - unfold goruntime.convertible. rewrite Hni.
    destruct (KindOf src), (KindOf dst); try done.
Qed.

(** X8: composite kinds do not mix.  With the Go runtime and no conversion
    function for the pair, a struct, a sequence or a map is mapped into a
    destination of another of these three kinds in one case only, a map into
    a sequence: every other combination is [ErrNoValidMapping] with the two
    types, and the destination is untouched.  In particular a sequence is
    not mapped into a map. *)
Theorem composite_kinds_do_not_mix
  (rev : revision) (depth : nat) (m : Mapper) (toRv fromRv : Value) :
  convFuncFor m (TypeOf fromRv) (TypeOf toRv) = None ->
  isCompositeKind (KindOf (TypeOf toRv)) = true ->
  isCompositeKind (KindOf (TypeOf fromRv)) = true ->
  KindOf (TypeOf toRv) <> KindOf (TypeOf fromRv) ->
  ~ (KindOf (TypeOf toRv) = Slice /\ KindOf (TypeOf fromRv) = Map) ->
  mapValue rev (S depth) m toRv fromRv =
  Ret (toRv, Some (ErrNoValidMapping (TypeOf toRv) (TypeOf fromRv))).
Proof.
  intros Hconv Htk Hfk Hne Hms.
  destruct (go_composite_kinds_apart (TypeOf fromRv) (TypeOf toRv))
    as [Ha Hc]; [done..|congruence|].
  rewrite mapValue_S, mapValueBody_not_converted by done.
  unfold directOrConvert. rewrite Ha, Hc.
  assert ((if attemptsDirect rev m (KindOf (TypeOf fromRv))
           then @None Value else None) = None) as ->
    by by destruct (attemptsDirect _ _ _).
  unfold mapComposite.
  destruct (KindOf (TypeOf toRv)) eqn:Htk', (KindOf (TypeOf fromRv)) eqn:Hfk';
    try done; repeat case_decide; try done; try (by intuition congruence).
Qed.

(** A sequence of integers into a map. *)
Lemma composite_kinds_do_not_mix_witness :
  mapValue (RT:=goruntime.go) dto_go 1 emptyMapper
    (VMap examples.stringToInts None) (examples.ints [1%Z])
  = Ret (VMap examples.stringToInts None,
         Some (ErrNoValidMapping examples.stringToInts
                 (TSlice examples.int))).
Proof.
  apply (composite_kinds_do_not_mix dto_go 0 emptyMapper
           (VMap examples.stringToInts None) (examples.ints [1%Z]));
    first [reflexivity | discriminate | by intros [? _]].
Defined.

(** ** Structs without a common field *)

Section NoCommonField.

Variable rec : Value -> Value -> outcome result.

Lemma mapStructsLoop_no_common_field toFields (fromFields : structValueMap)
  toRv fromRv :
  (forall name p, (name, p) ∈ toFields -> fromFields !! name = None) ->
  mapStructsLoop rec toFields fromFields toRv fromRv = Ret (toRv, None).
Proof.
  induction toFields as [|[name p] toFields IH]; intros Hno; simpl; [done|].
  rewrite (Hno name p) by left. apply IH.
  intros n q Hin. apply (Hno n q). by right.
Qed.

End NoCommonField.

(** X9: structs that share no field name.  When the field maps of the
    destination and of the source have no name in common, and neither a
    conversion function nor steps 2 and 3 apply, [mapStructs] makes no
    recursive call and [mapValue] returns no error with the destination as
    it was (the inspection functions of the destination then run): the
    mapping of unrelated structs is no [ErrNoValidMapping]. *)
Theorem structs_without_common_field_are_left_alone
  (RT : Runtime) (rev : revision) (depth : nat) (m : Mapper)
  (toRv fromRv : Value) (toFields fromFields : structValueMap) :
  KindOf (TypeOf toRv) = Struct -> KindOf (TypeOf fromRv) = Struct ->
  collectStructFields rev [] (TypeOf toRv) ∅ = Some toFields ->
  collectStructFields rev [] (TypeOf fromRv) ∅ = Some fromFields ->
  (forall name, toFields !! name = None \/ fromFields !! name = None) ->
  convFuncFor m (TypeOf fromRv) (TypeOf toRv) = None ->
  (if attemptsDirect rev m Struct then directOrConvert toRv fromRv else None)
  = None ->
  (forall rec, mapStructs rev rec toRv fromRv = Ret (toRv, None))
  /\ mapValue rev (S depth) m toRv fromRv = Ret (runInspectFuncs m toRv fromRv).
Proof.
  intros Htk Hfk Hto Hfrom Hno Hconv Hdirect.
  assert (Hstructs : forall rec,
            mapStructs rev rec toRv fromRv = Ret (toRv, None)).
  { intros rec. unfold mapStructs. rewrite Hto, Hfrom. simpl.
    apply mapStructsLoop_no_common_field.
    intros name p Hin%elem_of_map_to_list.
    destruct (Hno name) as [H|H]; [congruence | done]. }
  split; [done|].
  rewrite mapValue_S, mapValueBody_not_converted by done.
  rewrite Hfk, Hdirect. unfold mapComposite. rewrite Htk, Hfk.
  rewrite decide_False by done. rewrite decide_False by done.
  rewrite decide_True by done. by rewrite Hstructs.
Qed.

(** [struct { Id int }] into [Inner], whose only field is [Name]. *)
Lemma structs_without_common_field_are_left_alone_witness :
  mapValue (RT:=goruntime.go) dto_go 1 emptyMapper
    (Zero examples.Inner)
    (VStruct (TStruct [examples.field "Id" examples.int])
       [VInt examples.int 4])
  = Ret (Zero examples.Inner, None).
Proof.
  apply (structs_without_common_field_are_left_alone goruntime.go dto_go 0
           emptyMapper (Zero examples.Inner)
           (VStruct (TStruct [examples.field "Id" examples.int])
              [VInt examples.int 4])
           {["Name" := [0%nat]]} {["Id" := [0%nat]]}).
  - reflexivity.
  - reflexivity.
  - vm_compute. reflexivity.
  - vm_compute. reflexivity.
  - intros name. destruct (decide (name = "Name")) as [->|Hne].
    + right. vm_compute. reflexivity.
    + left. by rewrite lookup_singleton_ne.
  - reflexivity.
  - vm_compute. reflexivity.
Defined.

(** ** Nil and empty sequences *)

Lemma mapSlice_empty rec toRv fromRv :
  KindOf (TypeOf toRv) = Slice -> SliceElems fromRv = Some [] ->
  mapSlice rec toRv fromRv = Ret (VSlice (TypeOf toRv) (Some []), None).
Proof.
  intros Hk Hl. unfold mapSlice, Len, MakeSlice.
  destruct fromRv; try done. rewrite Hl. simpl.
  unfold KindOf in Hk.
  destruct (underlying (TypeOf toRv)) as [[]| | | | |]; done.
Qed.

(** X10: in [dto.go] a Mapper with custom functions maps a nil (or empty)
    sequence into a fresh, empty, non-nil sequence, even between identical
    types; the second revision, and a Mapper without custom functions,
    assign the source as it is when its type is assignable, so that nil
    stays nil. *)
Theorem custom_functions_turn_nil_sequence_into_empty
  (RT : Runtime) (depth : nat) (m : Mapper) (toRv fromRv : Value) :
  HasCustomFuncs m = true ->
  convFuncFor m (TypeOf fromRv) (TypeOf toRv) = None ->
  AssignableTo (TypeOf fromRv) (TypeOf toRv) = true ->
  KindOf (TypeOf toRv) = Slice -> KindOf (TypeOf fromRv) = Slice ->
  SliceElems fromRv = Some [] ->
  mapValue dto_go (S depth) m toRv fromRv =
    Ret (runInspectFuncs m (VSlice (TypeOf toRv) (Some [])) fromRv)
  /\ mapValue part_000 (S depth) m toRv fromRv =
       Ret (runInspectFuncs m (Set_ toRv fromRv) fromRv)
  /\ mapValue dto_go (S depth) emptyMapper toRv fromRv =
       Ret (Set_ toRv fromRv, None).
Proof.
  intros Hcustom Hconv Hassign Htk Hfk Hnil.
  split; [|split].
  - rewrite mapValue_S, mapValueBody_not_converted by done.
    unfold attemptsDirect. rewrite Hcustom, Hfk. simpl.
    unfold mapComposite. rewrite Htk, Hfk.
    rewrite !decide_False by (intros ?; intuition discriminate).
    rewrite decide_True by done.
    by rewrite mapSlice_empty.
  - rewrite mapValue_S, mapValueBody_not_converted by done.
    simpl. unfold directOrConvert. by rewrite Hassign.
  - rewrite mapValue_S, mapValueBody_not_converted by done.
    simpl. unfold directOrConvert. by rewrite Hassign.
Qed.

(** A nil [[]int] into a [[]int], with the Mapper of
    [TestDontSkipFunctions] and with none. *)
Lemma custom_functions_turn_nil_sequence_into_empty_witness :
  mapValue (RT:=goruntime.go) dto_go 1 examples.mapperDontSkip
    (VSlice (TSlice examples.int) None) (VSlice (TSlice examples.int) None)
  = Ret (VSlice (TSlice examples.int) (Some []), None)
  /\ mapValue (RT:=goruntime.go) part_000 1 examples.mapperDontSkip
    (VSlice (TSlice examples.int) None) (VSlice (TSlice examples.int) None)
  = Ret (VSlice (TSlice examples.int) None, None)
  /\ mapValue (RT:=goruntime.go) dto_go 1 emptyMapper
    (VSlice (TSlice examples.int) None) (VSlice (TSlice examples.int) None)
  = Ret (VSlice (TSlice examples.int) None, None).
Proof.
  apply (custom_functions_turn_nil_sequence_into_empty goruntime.go 0
           examples.mapperDontSkip (VSlice (TSlice examples.int) None)
           (VSlice (TSlice examples.int) None)); reflexivity.
Defined.

(** ** Maps into maps *)

Lemma setEntry_elem k v l a b :
  (a, b) ∈ setEntry k v l -> (a, b) = (k, v) \/ (a, b) ∈ l.
Proof.
  induction l as [|[k' v'] l IH]; simpl.
  - intros ->%list_elem_of_singleton. by left.
  - destruct (decide (k' = k)) as [->|Hne].
    + intros [->|H]%elem_of_cons; [by left | right; by right].
    + intros [->|H]%elem_of_cons; [right; by left|].
      destruct (IH H) as [?|?]; [by left | right; by right].
Qed.

Lemma setEntry_keys k v l a :
  a ∈ (setEntry k v l).*1 <-> a = k \/ a ∈ l.*1.
Proof.
  induction l as [|[k' v'] l IH]; simpl.
  - rewrite list_elem_of_singleton, elem_of_nil. tauto.
  - destruct (decide (k' = k)) as [->|Hne]; simpl.
    + rewrite !elem_of_cons. tauto.
    + rewrite !elem_of_cons, IH. tauto.
Qed.

Lemma setEntry_NoDup k v l : NoDup l.*1 -> NoDup (setEntry k v l).*1.
Proof.
  induction l as [|[k' v'] l IH]; simpl.
  - intros _. apply NoDup_singleton.
  - intros [Hnotin Hnd]%NoDup_cons.
    destruct (decide (k' = k)) as [->|Hne]; simpl.
    + by apply NoDup_cons.
    + apply NoDup_cons. split; [|by apply IH].
      rewrite setEntry_keys. intros [?|?]; [congruence | done].
Qed.

Lemma setEntry_length k v l : (length (setEntry k v l) <= S (length l))%nat.
Proof.
  induction l as [|[k' v'] l IH]; simpl; [lia|].
  destruct (decide (k' = k)); simpl; lia.
Qed.

Section MapOfMaps.

Variable rec : Value -> Value -> outcome result.

(** What [mapMapLoop] makes of the entries [mapIt], starting from the
    entries [acc]. *)
Lemma mapMapLoop_entries keyType elemType t mapIt : forall acc toRv' err,
  Key t = Some keyType -> Elem t = Some elemType ->
  mapMapLoop rec mapIt (VMap t (Some acc)) = Ret (toRv', err) ->
  exists l,
    toRv' = VMap t (Some l)
    /\ (NoDup acc.*1 -> NoDup l.*1)
    /\ (length l <= length acc + length mapIt)%nat
    /\ (forall k' v', (k', v') ∈ l ->
          (k', v') ∈ acc \/
          exists k v, (k, v) ∈ mapIt
                      /\ rec (Zero keyType) k = Ret (k', None)
                      /\ rec (Zero elemType) v = Ret (v', None))
    /\ (forall k', k' ∈ acc.*1 -> k' ∈ l.*1)
    /\ (err = None ->
        forall k v, (k, v) ∈ mapIt ->
          exists k', rec (Zero keyType) k = Ret (k', None) /\ k' ∈ l.*1)
    /\ (forall e, err = Some e ->
        exists k v, (k, v) ∈ mapIt /\
          ((exists d, rec (Zero keyType) k = Ret (d, Some e)) \/
           (exists d, rec (Zero elemType) v = Ret (d, Some e)))).
Proof.
  intros acc toRv' err HK HE.
  revert acc. induction mapIt as [|[k v] mapIt IH]; intros acc; simpl.
  - intros [= <- <-]. exists acc. repeat split; try done.
    + lia.
    + intros. by left.
    + intros _ k v []%elem_of_nil.
  - rewrite HK, HE. simpl.
    destruct (rec (Zero keyType) k) as [[toKey [e|]]| |] eqn:Hkey; simpl;
      try done.
    { intros [= <- <-]. exists acc. repeat split; try done.
      - lia.
      - intros. by left.
      - intros e' [= <-]. exists k, v. split; [by left|]. left.
        by exists toKey. }
    destruct (rec (Zero elemType) v) as [[toValue [e|]]| |] eqn:Hval; simpl;
      try done.
    { intros [= <- <-]. exists acc. repeat split; try done.
      - lia.
      - intros. by left.
      - intros e' [= <-]. exists k, v. split; [by left|]. right.
        by exists toValue. }
    intros Hloop.
    destruct (IH _ Hloop)
      as (l & -> & Hnd & Hlen & Hfrom & Hkeep & Hok & Herr).
    exists l. split; [done|]. split; [|split; [|split; [|split; [|split]]]].
    + intros Hacc. apply Hnd. by apply setEntry_NoDup.
    + pose proof (setEntry_length toKey toValue acc). lia.
    + intros k' v' Hin.
      destruct (Hfrom k' v' Hin) as [Hacc|(k0 & v0 & Hin0 & ? & ?)].
      * destruct (setEntry_elem _ _ _ _ _ Hacc) as [[= -> ->]|?]; [|by left].
        right. exists k, v. split; [by left | done].
      * right. exists k0, v0. split; [by right | done].
    + intros k' Hin. apply Hkeep.
      apply (proj2 (setEntry_keys toKey toValue acc k')). by right.
    + intros -> k0 v0 [[= -> ->]|Hin]%elem_of_cons.
      * exists toKey. split; [done|]. apply Hkeep.
        apply (proj2 (setEntry_keys toKey toValue acc toKey)). by left.
      * by apply (Hok eq_refl k0 v0).
    + intros e He. destruct (Herr e He) as (k0 & v0 & Hin & H).
      exists k0, v0. split; [by right | done].
Qed.

End MapOfMaps.

(** X11: [mapMap] rebuilds the destination from the source.  Whatever the
    destination held, when [mapMap] returns the destination is a non-nil map
    without repeated keys and with at most as many entries as the source;
    each of its entries is the mapping of the key and of the value of one
    source entry into fresh zero values.  Without error the mapped key of
    every source entry is present; an error is the error of the key or of
    the value of some source entry. *)
Theorem mapMap_rebuilds_the_destination
  (rec : Value -> Value -> outcome result) (toRv fromRv toRv' : Value)
  (keyType elemType : Type_) (mapIt : list (Value * Value))
  (err : option error) :
  Key (TypeOf toRv) = Some keyType -> Elem (TypeOf toRv) = Some elemType ->
  MapRange fromRv = Some mapIt ->
  mapMap rec toRv fromRv = Ret (toRv', err) ->
  exists l,
    toRv' = VMap (TypeOf toRv) (Some l)
    /\ NoDup l.*1
    /\ (length l <= length mapIt)%nat
    /\ (forall k' v', (k', v') ∈ l ->
          exists k v, (k, v) ∈ mapIt
                      /\ rec (Zero keyType) k = Ret (k', None)
                      /\ rec (Zero elemType) v = Ret (v', None))
    /\ (err = None ->
        forall k v, (k, v) ∈ mapIt ->
          exists k', rec (Zero keyType) k = Ret (k', None) /\ k' ∈ l.*1)
    /\ (forall e, err = Some e ->
        exists k v, (k, v) ∈ mapIt /\
          ((exists d, rec (Zero keyType) k = Ret (d, Some e)) \/
           (exists d, rec (Zero elemType) v = Ret (d, Some e)))).
Proof.
  intros HK HE Hrange. unfold mapMap, Len, MakeMapWithSize.
  assert (Hu : exists k e, underlying (TypeOf toRv) = TMap k e).
  { unfold Key in HK. destruct (underlying (TypeOf toRv)); try done. eauto. }
  destruct Hu as (k0 & e0 & Hu). rewrite Hu.
  destruct fromRv; try done. rewrite Hrange. simpl.
  intros Hloop.
  destruct (mapMapLoop_entries rec keyType elemType _ _ _ _ _ HK HE Hloop)
    as (l & -> & Hnd & Hlen & Hfrom & _ & Hok & Herr).
  exists l. split; [done|]. split; [apply Hnd; constructor|].
  split; [simpl in Hlen; lia|]. split; [|done].
  intros k' v' Hin. destruct (Hfrom k' v' Hin) as [[]%elem_of_nil|H]; done.
Qed.

(** [map[string]int{"a": 300}] into a [map[string]int8] that held an entry
    for ["z"]. *)
Lemma mapMap_rebuilds_the_destination_witness :
  exists l,
    VMap (TMap examples.string_ examples.int8)
      (Some [(VString examples.string_ "a", VInt examples.int8 44)])
    = VMap (TMap examples.string_ examples.int8) (Some l)
    /\ NoDup l.*1.
Proof.
  destruct (mapMap_rebuilds_the_destination
              (mapValue (RT:=goruntime.go) dto_go 1 emptyMapper)
              (VMap (TMap examples.string_ examples.int8)
                 (Some [(VString examples.string_ "z", VInt examples.int8 0)]))
              (VMap (TMap examples.string_ examples.int)
                 (Some [(VString examples.string_ "a", VInt examples.int 300)]))
              (VMap (TMap examples.string_ examples.int8)
                 (Some [(VString examples.string_ "a", VInt examples.int8 44)]))
              examples.string_ examples.int8
              [(VString examples.string_ "a", VInt examples.int 300)]
              None eq_refl eq_refl eq_refl ltac:(vm_compute; reflexivity))
    as (l & Hl & Hnd & _).
  exists l. split; [exact Hl | exact Hnd].
Defined.

(** ** The names of the field map *)

Lemma declAt_named n u path : declAt (TNamed n u) path = declAt u path.
Proof. by destruct path. Qed.

Lemma resolvedFields_decl rev t : forall path l,
  resolvedFields rev path t = Some l ->
  forall n p, (n, p) ∈ l ->
    exists q f, p = path ++ q /\ declAt t q = Some f /\ Name f = n
                /\ Anonymous f = false /\ skipsField rev f = false.
Proof.
  induction t as [b|n u IH|e _|e _|k e _ _|fs IH] using Type_nested_ind;
    intros path l; try done.
  - intros Hl n' p Hin. destruct (IH _ _ Hl _ _ Hin) as (q & f & ? & ? & ?).
    exists q, f. by rewrite declAt_named.
  - rewrite resolvedFields_struct.
    enough (Hfrom : forall pre l,
      resolvedFieldsFrom rev path fs (length pre) = Some l ->
      forall n p, (n, p) ∈ l ->
        exists q f, p = path ++ q /\ declAt (TStruct (pre ++ fs)) q = Some f
                    /\ Name f = n /\ Anonymous f = false
                    /\ skipsField rev f = false).
    { apply (Hfrom []). }
    clear l.
    induction IH as [|[n ft a tg] fs Hf _ IHfs]; intros pre l; simpl.
    { by intros [= <-] ?? ?%elem_of_nil. }
    assert (Hlater : forall later,
      resolvedFieldsFrom rev path fs (S (length pre)) = Some later ->
      forall n' p, (n', p) ∈ later ->
        exists q f, p = path ++ q
                    /\ declAt (TStruct (pre ++ mkField n ft a tg :: fs)) q
                       = Some f
                    /\ Name f = n' /\ Anonymous f = false
                    /\ skipsField rev f = false).
    { intros later Hl. specialize (IHfs (pre ++ [mkField n ft a tg]) later).
      rewrite length_app, Nat.add_1_r, <- (assoc_L (++)) in IHfs.
      by apply IHfs. }
    assert (Hlook : (pre ++ mkField n ft a tg :: fs) !! length pre
                    = Some (mkField n ft a tg)) by by apply list_lookup_middle.
    destruct (skipsField rev (mkField n ft a tg)) eqn:Hskip; [apply Hlater|].
    destruct a; simpl.
    + destruct (resolvedFields rev (path ++ [length pre]) ft) as [inner|]
        eqn:Hinner; simpl; [|done].
      destruct (resolvedFieldsFrom rev path fs (S (length pre))) as [later|]
        eqn:Hl; simpl; [|done].
      intros [= <-] n' p [Hin|Hin]%elem_of_app; [|by eapply Hlater].
      simpl in Hf.
      destruct (Hf _ _ Hinner _ _ Hin) as (q & f & -> & Hd & Hrest).
      exists (length pre :: q), f. split; [by rewrite <- (assoc_L (++))|].
      split; [|done].
      cbn [declAt Fields underlying mbind option_bind]. rewrite Hlook.
      destruct q; [done|]. done.
    + destruct (resolvedFieldsFrom rev path fs (S (length pre))) as [later|]
        eqn:Hl; simpl; [|done].
      intros [= <-] n' p [[= -> ->]|Hin]%elem_of_cons; [|by eapply Hlater].
      exists [length pre], (mkField n ft false tg). split; [done|].
      split; [|done].
      cbn [declAt Fields underlying mbind option_bind]. by rewrite Hlook.
Qed.

Lemma resolvedFieldsFrom_declared rev path fs : forall i l f,
  resolvedFieldsFrom rev path fs i = Some l ->
  f ∈ fs -> Anonymous f = false -> skipsField rev f = false ->
  Name f ∈ l.*1.
Proof.
  induction fs as [|g fs IH]; intros i l f Hl Hin Ha Hs;
    [by apply elem_of_nil in Hin|].
  simpl in Hl.
  assert (Hrest : forall later,
    resolvedFieldsFrom rev path fs (S i) = Some later ->
    f ∈ fs -> Name f ∈ later.*1).
  { intros later Hlater Hin'. by eapply IH. }
  apply elem_of_cons in Hin as [->|Hin].
  - rewrite Hs, Ha in Hl.
    destruct (resolvedFieldsFrom rev path fs (S i)); simplify_eq/=. by left.
  - destruct (skipsField rev g); [by eapply Hrest|].
    destruct (Anonymous g).
    + destruct (resolvedFields rev (path ++ [i]) (Typ g)); simplify_eq/=.
      destruct (resolvedFieldsFrom rev path fs (S i)) as [later|] eqn:Hlater;
        simplify_eq/=.
      rewrite fmap_app. apply elem_of_app. right. by apply Hrest.
    + destruct (resolvedFieldsFrom rev path fs (S i)) as [later|] eqn:Hlater;
        simplify_eq/=.
      right. by apply Hrest.
Qed.

Lemma insertAll_is_Some l : forall (fields : structValueMap) n,
  n ∈ l.*1 -> is_Some (insertAll fields l !! n).
Proof.
  induction l as [|[n' p'] l IH]; intros fields n; simpl.
  - by intros ?%elem_of_nil.
  - destruct (decide (n ∈ l.*1)) as [Hin|Hnotin]; [intros _; by apply IH|].
    intros [->|?]%elem_of_cons; [|done].
    rewrite insertAll_lookup_absent by done.
    rewrite lookup_insert_eq. eauto.
Qed.

(** X12: the field map names fields.  What [collectStructFields] enters under
    a name is the path of a declared field of that name, neither embedded
    nor skipped; and every field that the struct itself declares, that is
    neither embedded nor skipped, has its name in the map. *)
Theorem collectStructFields_names_declared_fields
  (rev : revision) (t : Type_) (fields : structValueMap) :
  collectStructFields rev [] t ∅ = Some fields ->
  (forall n p, fields !! n = Some p ->
     exists f, declAt t p = Some f /\ Name f = n
               /\ Anonymous f = false /\ skipsField rev f = false)
  /\ (forall fs f,
        underlying t = TStruct fs -> f ∈ fs ->
        Anonymous f = false -> skipsField rev f = false ->
        is_Some (fields !! Name f)).
Proof.
  rewrite collectStructFields_resolved.
  destruct (resolvedFields rev [] t) as [l|] eqn:Hl; simpl; [|done].
  intros [= <-]. split.
  - intros n p [Hin|Hin]%insertAll_lookup_inv;
      [|by rewrite lookup_empty in Hin].
    destruct (resolvedFields_decl _ _ _ _ Hl _ _ Hin) as (q & f & -> & H).
    by exists f.
  - intros fs f Hu Hin Ha Hs. apply insertAll_is_Some.
    assert (Hl' : resolvedFields rev [] (underlying t) = Some l).
    { clear -Hl. induction t; try done. by apply IHt. }
    rewrite Hu, resolvedFields_struct in Hl'.
    by eapply resolvedFieldsFrom_declared.
Qed.

(** The entry for [Price] of the product of the example. *)
Lemma collectStructFields_names_declared_fields_witness :
  exists f, declAt examples.Product [2%nat] = Some f /\ Name f = "Price"
            /\ Anonymous f = false /\ skipsField part_000 f = false.
Proof.
  apply (proj1 (collectStructFields_names_declared_fields part_000
                  examples.Product _ eq_refl) "Price" [2%nat]).
  vm_compute. reflexivity.
Defined.

(** ** The order of the fields *)

Lemma SetFieldByIndex_comm p : forall q v x y v1 v2,
  incomparable p q ->
  SetFieldByIndex v p x = Some v1 -> SetFieldByIndex v1 q y = Some v2 ->
  exists v1', SetFieldByIndex v q y = Some v1'
              /\ SetFieldByIndex v1' p x = Some v2.
Proof.
  induction p as [|i p IH]; intros q v x y v1 v2 [Hpq Hqp].
  - destruct Hpq. apply prefix_nil.
  - destruct q as [|j q]; [destruct Hqp; apply prefix_nil|]. simpl.
    destruct v as [| | | | | |t fs]; try done.
    destruct (fs !! i) as [f|] eqn:Hf; simpl; [|done].
    destruct (SetFieldByIndex f p x) as [f'|] eqn:Hset; simpl; [|done].
    intros [= <-].
    destruct (decide (i = j)) as [<-|Hne].
    + rewrite list_lookup_insert_eq by (by eapply lookup_lt_Some). simpl.
      destruct (SetFieldByIndex f' q y) as [f''|] eqn:Hset2; simpl; [|done].
      intros [= <-].
      destruct (IH q f x y f' f'') as (g & Hg1 & Hg2); [|done..|].
      { split; intros H; [apply Hpq|apply Hqp]; by apply prefix_cons. }
      rewrite Hf. simpl. rewrite Hg1. simpl. eexists. split; [done|].
      simpl. rewrite list_lookup_insert_eq by (by eapply lookup_lt_Some). simpl.
      rewrite Hg2. simpl. by rewrite !list_insert_insert_eq.
    + rewrite list_lookup_insert_ne by done.
      destruct (fs !! j) as [g|] eqn:Hg; simpl; [|done].
      destruct (SetFieldByIndex g q y) as [g'|] eqn:Hset2; simpl; [|done].
      intros [= <-]. eexists. split; [done|]. simpl.
      rewrite list_lookup_insert_ne by done. rewrite Hf. simpl.
      rewrite Hset. simpl. by rewrite list_insert_insert_ne.
Qed.

Section FieldOrder.

Variable rec : Value -> Value -> outcome result.
Variable fromFields : structValueMap.
Variable fromRv : Value.

Lemma mapStructsLoop_swap na pa nb pb rest toRv d :
  incomparable pa pb ->
  mapStructsLoop rec ((na, pa) :: (nb, pb) :: rest) fromFields toRv fromRv
  = Ret (d, None) ->
  mapStructsLoop rec ((nb, pb) :: (na, pa) :: rest) fromFields toRv fromRv
  = Ret (d, None).
Proof.
  intros Hinc. simpl.
  destruct (fromFields !! na) as [qa|] eqn:Hqa; [|done].
  destruct (fromFields !! nb) as [qb|] eqn:Hqb; [|done].
  destruct (FieldByIndex toRv pa) as [xa|] eqn:Hxa; simpl; [|done].
  destruct (FieldByIndex fromRv qa) as [ya|] eqn:Hya; simpl; [|done].
  destruct (rec xa ya) as [[da [ea|]]| |] eqn:Hreca; simpl; try done.
  { by destruct (SetFieldByIndex toRv pa da). }
  destruct (SetFieldByIndex toRv pa da) as [v1|] eqn:Hseta; simpl; [|done].
  rewrite (FieldByIndex_SetFieldByIndex_other _ _ _ _ _ Hseta Hinc).
  destruct (FieldByIndex toRv pb) as [xb|] eqn:Hxb; simpl; [|done].
  destruct (FieldByIndex fromRv qb) as [yb|] eqn:Hyb; simpl; [|done].
  destruct (rec xb yb) as [[db [eb|]]| |] eqn:Hrecb; simpl; try done.
  { by destruct (SetFieldByIndex v1 pb db). }
  destruct (SetFieldByIndex v1 pb db) as [v2|] eqn:Hsetb; simpl; [|done].
  destruct (SetFieldByIndex_comm _ _ _ _ _ _ _ Hinc Hseta Hsetb)
    as (v1' & Hsetb' & Hseta').
  rewrite Hsetb'. simpl.
  assert (Hinc' : incomparable pb pa) by (destruct Hinc; by split).
  rewrite (FieldByIndex_SetFieldByIndex_other _ _ _ _ _ Hsetb' Hinc').
  rewrite Hxa. simpl. rewrite Hreca. simpl. by rewrite Hseta'.
Qed.

Lemma apart_cons a l : apart (a :: l) -> apart l.
Proof. intros H x y Hx Hy. apply H; by right. Qed.

Lemma apart_perm l l' : l ≡ₚ l' -> apart l -> apart l'.
Proof.
  intros Hp H a b Ha Hb. apply H; by rewrite Hp.
Qed.

Lemma mapStructsLoop_perm l l' :
  l ≡ₚ l' -> NoDup l -> apart l ->
  forall toRv d,
    mapStructsLoop rec l fromFields toRv fromRv = Ret (d, None) ->
    mapStructsLoop rec l' fromFields toRv fromRv = Ret (d, None).
Proof.
  induction 1 as [|[n p] l l' Hp IH|[n1 p1] [n2 p2] l|l l' l'' Hp1 IH1 Hp2 IH2];
    intros Hnd Hap toRv d.
  - done.
  - apply NoDup_cons in Hnd as [_ Hnd]. apply apart_cons in Hap.
    simpl. destruct (fromFields !! n) as [q|]; [|by apply IH].
    destruct (FieldByIndex toRv p) as [x|]; simpl; [|done].
    destruct (FieldByIndex fromRv q) as [y|]; simpl; [|done].
    destruct (rec x y) as [[d0 [e0|]]| |]; simpl; try done.
    destruct (SetFieldByIndex toRv p d0) as [v1|]; simpl; [|done].
    by apply IH.
  - apply mapStructsLoop_swap.
    apply (Hap (n2, p2) (n1, p1)); [by left | right; by left|].
    apply NoDup_cons in Hnd as [Hnotin _]. intros Heq. apply Hnotin.
    rewrite Heq. by left.
  - intros Hloop. apply IH2.
    + by rewrite <- Hp1.
    + by eapply apart_perm.
    + by apply IH1.
Qed.

End FieldOrder.

Lemma apart_map_to_list rev t (fields : structValueMap) :
  collectStructFields rev [] t ∅ = Some fields -> apart (map_to_list fields).
Proof.
  intros Hc. destruct (collectStructFields_paths _ _ _ Hc) as [_ Hpw].
  intros [na pa] [nb pb] [i Hi]%list_elem_of_lookup_1
    [j Hj]%list_elem_of_lookup_1 Hne.
  apply (Hpw i j na pa nb pb); [|done..].
  intros ->. congruence.
Qed.



(** ** Type safety *)

Lemma Value_nested_ind (P : Value -> Prop) :
  (forall t b, P (VBool t b)) ->
  (forall t z, P (VInt t z)) ->
  (forall t s, P (VString t s)) ->
  (forall t, P (VPtr t None)) ->
  (forall t x, P x -> P (VPtr t (Some x))) ->
  (forall t, P (VSlice t None)) ->
  (forall t l, Forall P l -> P (VSlice t (Some l))) ->
  (forall t, P (VMap t None)) ->
  (forall t l, Forall (fun kv => P kv.1 /\ P kv.2) l -> P (VMap t (Some l))) ->
  (forall t fs, Forall P fs -> P (VStruct t fs)) ->
  forall v, P v.
Proof.
  intros Hb Hi Hs Hpn Hp Hsn Hsl Hmn Hm Hst. fix IH 1.
  intros [t b|t z|t s|t [x|]|t [l|]|t [l|]|t fs].
  - apply Hb.
  - apply Hi.
  - apply Hs.
  - apply Hp, IH.
  - apply Hpn.
  - apply Hsl. induction l as [|x l IHl]; constructor; [apply IH | apply IHl].
  - apply Hsn.
  - apply Hm. induction l as [|[k x] l IHl]; constructor;
      [split; apply IH | apply IHl].
  - apply Hmn.
  - apply Hst. induction fs as [|x l IHl]; constructor; [apply IH | apply IHl].
Qed.

(** *** What well-typedness says, kind by kind *)

Lemma wellTyped_slice t l :
  wellTyped (VSlice t (Some l)) = true <->
  exists e, underlying t = TSlice e /\ Forall (hasType e) l.
Proof.
  simpl. destruct (underlying t) as [| | |e| |];
    try (split; [done|]; by intros (? & ? & _)).
  rewrite <- Is_true_true, forallb_True. split.
  - intros H. exists e. split; [done|]. eapply Forall_impl; [exact H|].
    intros x [Hx1%bool_decide_unpack Hx2]%andb_True. split; [done|].
    by apply Is_true_true.
  - intros (e' & [= <-] & H). eapply Forall_impl; [exact H|].
    intros x [Hx1 Hx2]. apply andb_True. split; [by apply bool_decide_pack|].
    by apply Is_true_true.
Qed.

Lemma wellTyped_map t l :
  wellTyped (VMap t (Some l)) = true <->
  exists k e, underlying t = TMap k e
              /\ Forall (fun kv => hasType k kv.1 /\ hasType e kv.2) l.
Proof.
  simpl. destruct (underlying t) as [| | | |k e|];
    try (split; [done|]; by intros (? & ? & ? & _)).
  rewrite <- Is_true_true, forallb_True. split.
  - intros H. exists k, e. split; [done|]. eapply Forall_impl; [exact H|].
    intros [key x] [[[H1%bool_decide_unpack H2]%andb_True
                       H3%bool_decide_unpack]%andb_True H4]%andb_True.
    repeat split; try done; by apply Is_true_true.
  - intros (k' & e' & [= <- <-] & H). eapply Forall_impl; [exact H|].
    intros [key x] [[H1 H2] [H3 H4]]. simpl in *.
    rewrite !andb_True. repeat split;
      first [by apply bool_decide_pack | by apply Is_true_true].
Qed.

Lemma wellTyped_struct t fs :
  wellTyped (VStruct t fs) = true <->
  exists fts, underlying t = TStruct fts
              /\ Forall2 (fun f ft => hasType (Typ ft) f) fs fts.
Proof.
  simpl. destruct (underlying t) as [| | | | |fts];
    try (split; [done|]; by intros (? & ? & _)).
  split.
  - intros H. exists fts. split; [done|]. revert fts H.
    induction fs as [|f fs IH]; intros [|ft fts]; try done.
    intros [[H1%bool_decide_unpack H2]%andb_True H3]%Is_true_true%andb_True.
    constructor; [split; [done | by apply Is_true_true]|].
    apply IH. by apply Is_true_true.
  - intros (fts' & [= <-] & H).
    induction H as [|f ft fs fts [H1 H2] _ IH]; [done|].
    rewrite IH, H2, !andb_true_r. by apply bool_decide_eq_true.
Qed.

Lemma wellTyped_ptr t x :
  wellTyped (VPtr t (Some x)) = true <->
  exists e, underlying t = TPtr e /\ hasType e x.
Proof.
  simpl. destruct (underlying t) as [| |e| | |];
    try (split; [done|]; by intros (? & ? & _)).
  split.
  - intros [H1%bool_decide_unpack H2]%Is_true_true%andb_True.
    exists e. repeat split; [done|]. by apply Is_true_true.
  - intros (e' & [= <-] & H1 & H2). rewrite H2, andb_true_r.
    by apply bool_decide_eq_true.
Qed.

Lemma TypeOf_zeroAs u : forall t, TypeOf (zeroAs t u) = t.
Proof.
  induction u as [[]|n u IH|e _|e _|k e _ _|fs _] using Type_nested_ind;
    intros t; simpl; try done.
Qed.

Lemma wellTyped_zeroAs u : forall t,
  underlying t = underlying u -> wellTyped (zeroAs t u) = true.
Proof.
  induction u as [b|n u IH|e _|e _|k e _ _|fs IH] using Type_nested_ind;
    intros t Ht; simpl in *.
  - destruct b; simpl; rewrite Ht; simpl; try done;
      by apply bool_decide_eq_true.
  - by apply IH.
  - by rewrite Ht.
  - by rewrite Ht.
  - by rewrite Ht.
  - apply wellTyped_struct. exists fs. split; [done|].
    clear Ht.
    induction IH as [|[n ft a tg] fs Hf _ IHfs]; simpl; [constructor|].
    constructor; [|done].
    split; [apply TypeOf_zeroAs|]. by apply Hf.
Qed.

Lemma hasType_Zero t : hasType t (Zero t).
Proof. split; [apply TypeOf_zeroAs | by apply wellTyped_zeroAs]. Qed.

Lemma TypeOf_Zero t : TypeOf (Zero t) = t.
Proof. apply TypeOf_zeroAs. Qed.

Lemma safe_Zero rev t : resolvable rev t = true -> safe rev (Zero t).
Proof.
  intros Hr. split; [apply hasType_Zero | by rewrite TypeOf_Zero].
Qed.

Lemma withType_TypeOf v : withType (TypeOf v) v = v.
Proof. by destruct v. Qed.

Lemma withType_hasType t v : hasType t v -> withType t v = v.
Proof. intros [<- _]. apply withType_TypeOf. Qed.

Lemma wellTyped_withType t v :
  underlying t = underlying (TypeOf v) ->
  wellTyped (withType t v) = wellTyped v.
Proof. intros Ht. destruct v; simpl in *; by rewrite Ht. Qed.

Lemma resolvable_underlying rev t :
  resolvable rev t = true -> resolvable rev (underlying t) = true.
Proof. induction t; simpl; auto. Qed.

Lemma resolvable_Elem rev t e :
  Elem t = Some e -> resolvable rev t = true -> resolvable rev e = true.
Proof.
  unfold Elem. intros He Hr%resolvable_underlying.
  destruct (underlying t); simplify_eq; simpl in Hr; try done.
  by apply andb_true_iff in Hr as [_ ?].
Qed.

Lemma resolvable_Key rev t k :
  Key t = Some k -> resolvable rev t = true -> resolvable rev k = true.
Proof.
  unfold Key. intros He Hr%resolvable_underlying.
  destruct (underlying t); simplify_eq; simpl in Hr.
  by apply andb_true_iff in Hr as [? _].
Qed.

Lemma KindOf_Elem t k :
  KindOf t = k -> k = Ptr \/ k = Slice \/ k = Map -> is_Some (Elem t).
Proof.
  unfold KindOf, Elem. intros <-.
  destruct (underlying t) as [[]| | | | |]; simpl; intros [?|[?|?]];
    try done; eauto.
Qed.

(** *** Element-wise mapping *)

Section SafetyLoops.

Variable rev : revision.
Variable rec : Value -> Value -> outcome result.
Hypothesis rec_safe : forall toRv fromRv,
  safe rev toRv -> safe rev fromRv -> typeSafe toRv (rec toRv fromRv).

Lemma mapElementwise_safe e slots : forall srcs,
  resolvable rev e = true ->
  Forall (hasType e) slots ->
  Forall (safe rev) srcs ->
  length slots = length srcs ->
  match mapElementwise rec slots srcs with
  | Ret (ds, _) => Forall (hasType e) ds
  | Panic => False
  | Exhausted => True
  end.
Proof using rec_safe.
  intros srcs He Hslots. revert srcs.
  induction Hslots as [|slot slots [Ht Hw] Hrest IH];
    intros [|src srcs] Hsrcs Hlen; try done; [by constructor|].
  apply Forall_cons in Hsrcs as [Hsrc Hsrcs]. simpl.
  pose proof (rec_safe slot src) as Hrec.
  destruct (rec slot src) as [[d [err|]]| |]; simpl in *.
  - constructor; [|done].
    rewrite <- Ht. apply Hrec; [split; [done | by rewrite Ht] | done].
  - specialize (IH srcs Hsrcs ltac:(lia)).
    destruct (mapElementwise rec slots srcs) as [[ds err]| |]; simpl; try done.
    constructor; [|done]. rewrite <- Ht.
    apply Hrec; [split; [done | by rewrite Ht] | done].
  - apply Hrec; [split; [done | by rewrite Ht] | done].
  - done.
Qed.


Lemma wellTyped_kind v :
  wellTyped v = true ->
  match v with
  | VBool _ _ => KindOf (TypeOf v) = Bool
  | VString _ _ => KindOf (TypeOf v) = String
  | VPtr _ _ => KindOf (TypeOf v) = Ptr
  | VSlice _ _ => KindOf (TypeOf v) = Slice
  | VMap _ _ => KindOf (TypeOf v) = Map
  | VStruct _ _ => KindOf (TypeOf v) = Struct
  | VInt _ _ =>
      exists b, underlying (TypeOf v) = TBasic b /\ isIntegerBasic b = true
  end.
Proof.
  destruct v as [t b|t z|t s|t p|t l|t l|t fs]; simpl; unfold KindOf.
  - by intros ->%bool_decide_eq_true.
  - destruct (underlying t); try done. eauto.
  - by intros ->%bool_decide_eq_true.
  - by destruct (underlying t).
  - by destruct (underlying t).
  - by destruct (underlying t).
  - by destruct (underlying t).
Qed.

Lemma underlying_of_kind t :
  match KindOf t with
  | Ptr => exists e, underlying t = TPtr e
  | Slice => exists e, underlying t = TSlice e
  | Map => exists k e, underlying t = TMap k e
  | Struct => exists fs, underlying t = TStruct fs
  | _ => True
  end.
Proof.
  unfold KindOf. destruct (underlying t) as [[]| | | | |]; simpl; eauto.
Qed.

Lemma safe_slice v :
  safe rev v -> KindOf (TypeOf v) = Slice ->
  exists srcs, SliceElems v = Some srcs /\ Forall (safe rev) srcs.
Proof.
  intros [Hw Hr] Hk. pose proof (wellTyped_kind v Hw) as Hv.
  destruct v as [t b|t z|t s|t p|t l|t l|t fs]; simpl in *;
    try congruence.
  { destruct Hv as (b & Hb & _). unfold KindOf in Hk. rewrite Hb in Hk.
    by destruct b. }
  destruct l as [l|]; [|by exists []].
  exists l. split; [done|].
  apply wellTyped_slice in Hw as (e & He & Hl).
  eapply Forall_impl; [exact Hl|]. intros x [Hx1 Hx2]. split; [done|].
  rewrite Hx1. eapply resolvable_Elem; [|done]. unfold Elem. by rewrite He.
Qed.

Lemma safe_map v :
  safe rev v -> KindOf (TypeOf v) = Map ->
  exists mapIt, MapRange v = Some mapIt
                /\ Forall (fun kv => safe rev kv.1 /\ safe rev kv.2) mapIt.
Proof.
  intros [Hw Hr] Hk. pose proof (wellTyped_kind v Hw) as Hv.
  destruct v as [t b|t z|t s|t p|t l|t l|t fs]; simpl in *;
    try congruence.
  { destruct Hv as (b & Hb & _). unfold KindOf in Hk. rewrite Hb in Hk.
    by destruct b. }
  destruct l as [l|]; [|by exists []].
  exists l. split; [done|].
  apply wellTyped_map in Hw as (k & e & He & Hl).
  eapply Forall_impl; [exact Hl|]. intros [key x] [[H1 H2] [H3 H4]].
  simpl in *. repeat split; try done.
  - rewrite H1. eapply resolvable_Key; [|done]. unfold Key. by rewrite He.
  - rewrite H3. eapply resolvable_Elem; [|done]. unfold Elem. by rewrite He.
Qed.

Lemma slots_Zero e n : Forall (hasType e) (replicate n (Zero e)).
Proof. apply Forall_replicate, hasType_Zero. Qed.

Lemma elementwise_result_safe toRv e slots srcs :
  underlying (TypeOf toRv) = TSlice e ->
  resolvable rev (TypeOf toRv) = true ->
  Forall (hasType e) slots ->
  Forall (safe rev) srcs ->
  length slots = length srcs ->
  typeSafe toRv
    ('(ds, err) ← mapElementwise rec slots srcs;
     Ret (VSlice (TypeOf toRv) (Some ds), err)).
Proof using rec_safe.
  intros Hu Hr Hslots Hsrcs Hlen.
  assert (He : resolvable rev e = true).
  { eapply resolvable_Elem; [|done]. unfold Elem. by rewrite Hu. }
  pose proof (mapElementwise_safe e slots srcs He Hslots Hsrcs Hlen) as H.
  destruct (mapElementwise rec slots srcs) as [[ds err]| |]; simpl; try done.
  split; [done|]. apply (proj2 (wellTyped_slice _ _)). eauto.
Qed.

Lemma mapSlice_safe toRv fromRv :
  safe rev toRv -> safe rev fromRv ->
  KindOf (TypeOf toRv) = Slice -> KindOf (TypeOf fromRv) = Slice ->
  typeSafe toRv (mapSlice rec toRv fromRv).
Proof using rec_safe.
  intros [Hw Hr] Hfrom Htk Hfk.
  pose proof (underlying_of_kind (TypeOf toRv)) as Hu. rewrite Htk in Hu.
  destruct Hu as [e Hu].
  destruct (safe_slice _ Hfrom Hfk) as (srcs & Hsrcs & Hall).
  rewrite (mapSlice_elementwise rec toRv fromRv e srcs Hu Hsrcs).
  apply (elementwise_result_safe toRv e); try done.
  - apply slots_Zero.
  - apply length_replicate.
Qed.

Lemma mapMapToSlice_safe toRv fromRv :
  safe rev toRv -> safe rev fromRv ->
  KindOf (TypeOf toRv) = Slice -> KindOf (TypeOf fromRv) = Map ->
  typeSafe toRv (mapMapToSlice rec toRv fromRv).
Proof using rec_safe.
  intros [Hw Hr] Hfrom Htk Hfk.
  pose proof (underlying_of_kind (TypeOf toRv)) as Hu. rewrite Htk in Hu.
  destruct Hu as [e Hu].
  destruct (safe_map _ Hfrom Hfk) as (mapIt & Hit & Hall).
  rewrite (mapMapToSlice_elementwise rec toRv fromRv e mapIt Hu Hit).
  apply (elementwise_result_safe toRv e); try done.
  - apply slots_Zero.
  - apply Forall_fmap. eapply Forall_impl; [exact Hall|]. by intros [k x] [_ ?].
  - by rewrite length_replicate, length_fmap.
Qed.

Lemma mapMapSlicesToSlice_safe toRv fromRv mapElem :
  safe rev toRv -> safe rev fromRv ->
  KindOf (TypeOf toRv) = Slice -> KindOf (TypeOf fromRv) = Map ->
  Elem (TypeOf fromRv) = Some mapElem -> KindOf mapElem = Slice ->
  typeSafe toRv (mapMapSlicesToSlice rec toRv fromRv).
Proof using rec_safe.
  intros [Hw Hr] Hfrom Htk Hfk Hel Hek.
  pose proof (underlying_of_kind (TypeOf toRv)) as Hu. rewrite Htk in Hu.
  destruct Hu as [e Hu].
  destruct (safe_map _ Hfrom Hfk) as (mapIt & Hit & Hall).
  assert (Hvals : Forall (fun kv => TypeOf kv.2 = mapElem) mapIt).
  { destruct Hfrom as [Hwf _].
    destruct fromRv as [| | | | |t [l|]|]; simpl in Hit; try done;
      simplify_eq; [|constructor].
    apply wellTyped_map in Hwf as (k & e' & Hu' & Hl).
    unfold Elem in Hel. simpl in Hel. rewrite Hu' in Hel. simplify_eq.
    eapply Forall_impl; [exact Hl|]. by intros [key x] [_ [? _]]. }
  assert (Hinners : exists inners,
    Forall2 (fun kv inner => SliceElems kv.2 = Some inner) mapIt inners
    /\ Forall (safe rev) (concat inners)).
  { clear Hit. induction mapIt as [|[key x] mapIt IH].
    - exists []. split; constructor.
    - apply Forall_cons in Hall as [[_ Hx] Hall].
      apply Forall_cons in Hvals as [Hxt Hvals]. simpl in *.
      destruct (IH Hall Hvals) as (inners & H1 & H2).
      destruct (safe_slice _ Hx ltac:(by rewrite Hxt)) as (inner & Hi & Hs).
      exists (inner :: inners). split; [by constructor|].
      simpl. by apply Forall_app. }
  destruct Hinners as (inners & Hinners & Hsafe).
  rewrite (mapMapSlicesToSlice_elementwise rec toRv fromRv e mapIt inners
             Hu Hit Hinners).
  apply (elementwise_result_safe toRv e); try done.
  - apply slots_Zero.
  - apply length_replicate.
Qed.

End SafetyLoops.

(** *** Fields *)

Lemma hasType_struct t v fts :
  hasType t v -> underlying t = TStruct fts ->
  exists fs, v = VStruct t fs
             /\ Forall2 (fun f ft => hasType (Typ ft) f) fs fts.
Proof.
  intros [<- Hw] Hu.
  destruct v as [t b|t z|t s|t p|t l|t l|t fs];
    try (simpl in *; rewrite Hu in Hw;
         first [done | by apply bool_decide_eq_true in Hw]).
  apply wellTyped_struct in Hw as (fts' & Hu' & H).
  simpl in Hu. exists fs. split; [done|]. congruence.
Qed.

Lemma FieldByIndex_typed path : forall v t ft,
  hasType t v -> fieldAt t path = Some ft ->
  exists x, FieldByIndex v path = Some x /\ hasType ft x.
Proof.
  induction path as [|i path IH]; intros v t ft Hv; simpl.
  - intros [= <-]. eauto.
  - unfold Fields. destruct (underlying t) as [| | | | |fts] eqn:Hu; try done.
    simpl. destruct (fts !! i) as [f|] eqn:Hf; simpl; [|done]. intros Hat.
    destruct (hasType_struct _ _ _ Hv Hu) as (fs & -> & Hall).
    destruct (Forall2_lookup_r _ _ _ _ _ Hall Hf) as (x & Hx & Hxt).
    rewrite Hx. simpl. by eapply IH.
Qed.

Lemma SetFieldByIndex_typed path : forall v t ft y,
  hasType t v -> fieldAt t path = Some ft -> hasType ft y ->
  exists v', SetFieldByIndex v path y = Some v' /\ hasType t v'.
Proof.
  induction path as [|i path IH]; intros v t ft y Hv; simpl.
  - intros [= <-]. eauto.
  - unfold Fields. destruct (underlying t) as [| | | | |fts] eqn:Hu; try done.
    simpl. destruct (fts !! i) as [f|] eqn:Hf; simpl; [|done]. intros Hat Hy.
    destruct (hasType_struct _ _ _ Hv Hu) as (fs & -> & Hall).
    destruct (Forall2_lookup_r _ _ _ _ _ Hall Hf) as (x & Hx & Hxt).
    rewrite Hx. simpl.
    destruct (IH x (Typ f) ft y Hxt Hat Hy) as (x' & -> & Hx').
    simpl. eexists. split; [done|]. split; [done|].
    apply (proj2 (wellTyped_struct _ _)). exists fts. split; [done|].
    rewrite <- (list_insert_id fts i f Hf). by apply Forall2_insert.
Qed.

(** The fields a struct type resolves to lie in the struct. *)
Lemma resolvedFields_typed rev t : forall path,
  resolvable rev t = true -> KindOf t = Struct ->
  exists l, resolvedFields rev path t = Some l
            /\ forall n p, (n, p) ∈ l ->
                 exists j q ft, p = path ++ j :: q
                                /\ fieldAt t (j :: q) = Some ft
                                /\ resolvable rev ft = true.
Proof.
  induction t as [b|n u IH|e _|e _|k e _ _|fs IH] using Type_nested_ind;
    intros path Hr Hk; try done.
  - by destruct b.
  - apply IH; done.
  - rewrite resolvedFields_struct.
    enough (Hfrom : forall pre,
      exists l, resolvedFieldsFrom rev path fs (length pre) = Some l
                /\ forall n p, (n, p) ∈ l ->
                     exists j q ft,
                       p = path ++ j :: q
                       /\ fieldAt (TStruct (pre ++ fs)) (j :: q) = Some ft
                       /\ resolvable rev ft = true).
    { apply (Hfrom []). }
    simpl in Hr. apply Is_true_true, forallb_True in Hr. clear Hk.
    induction IH as [|[n ft a tg] fs Hf _ IHfs]; intros pre; simpl.
    { exists []. split; [done|]. by intros ?? ?%elem_of_nil. }
    apply Forall_cons in Hr as [Hhead Hr].
    destruct (IHfs Hr (pre ++ [mkField n ft a tg])) as (later & Hlater & Hl).
    rewrite length_app, Nat.add_1_r in Hlater. simpl in Hlater.
    rewrite <- (assoc_L (++)) in Hl. simpl in Hl.
    destruct (skipsField rev (mkField n ft a tg)) eqn:Hskip.
    { exists later. done. }
    simpl in Hhead.
    apply andb_True in Hhead as [Hft Ha].
    apply Is_true_true in Hft.
    assert (Hlook : (pre ++ mkField n ft a tg :: fs) !! length pre
                    = Some (mkField n ft a tg)) by by apply list_lookup_middle.
    destruct a; simpl.
    + simpl in Ha. apply bool_decide_unpack in Ha. simpl in Hf.
      destruct (Hf (path ++ [length pre]) Hft Ha) as (inner & Hinner & Hi).
      rewrite Hinner, Hlater. simpl. eexists. split; [done|].
      intros n' p [Hin|Hin]%elem_of_app; [|by apply (Hl n')].
      destruct (Hi _ _ Hin) as (j & q & ft' & -> & Hat & Hres).
      exists (length pre), (j :: q), ft'.
      split; [by rewrite <- (assoc_L (++))|]. split; [|done].
      cbn [fieldAt Fields underlying mbind option_bind]. rewrite Hlook. done.
    + rewrite Hlater. simpl. eexists. split; [done|].
      intros n' p [[= -> ->]|Hin]%elem_of_cons; [|by apply (Hl n')].
      exists (length pre), [], ft. split; [done|]. split; [|done].
      cbn [fieldAt Fields underlying mbind option_bind]. by rewrite Hlook.
Qed.

(** *** Structs and maps *)

Lemma collectStructFields_typed rev t :
  resolvable rev t = true -> KindOf t = Struct ->
  exists fields,
    collectStructFields rev [] t ∅ = Some fields
    /\ forall n p, fields !! n = Some p ->
         exists ft, fieldAt t p = Some ft /\ resolvable rev ft = true.
Proof.
  intros Hr Hk. rewrite collectStructFields_resolved.
  destruct (resolvedFields_typed rev t [] Hr Hk) as (l & -> & Hl).
  simpl. eexists. split; [done|].
  intros n p [Hin|Hin]%insertAll_lookup_inv; [|by rewrite lookup_empty in Hin].
  destruct (Hl _ _ Hin) as (j & q & ft & -> & Hat & Hres). eauto.
Qed.

Lemma setEntry_Forall (P : Value * Value -> Prop) k v l :
  P (k, v) -> Forall P l -> Forall P (setEntry k v l).
Proof.
  intros Hkv. induction 1 as [|[k' v'] l Hx Hl IH]; simpl.
  - by constructor.
  - destruct (decide (k' = k)); by constructor.
Qed.

Section SafetyTransformers.

Variable rev : revision.
Variable rec : Value -> Value -> outcome result.
Hypothesis rec_safe : forall toRv fromRv,
  safe rev toRv -> safe rev fromRv -> typeSafe toRv (rec toRv fromRv).

Lemma mapStructsLoop_safe (fromFields : structValueMap) fromRv t toFields :
  forall toRv,
    hasType t toRv -> safe rev fromRv ->
    (forall n p, (n, p) ∈ toFields ->
       exists ft, fieldAt t p = Some ft /\ resolvable rev ft = true) ->
    (forall n q, fromFields !! n = Some q ->
       exists ft, fieldAt (TypeOf fromRv) q = Some ft
                  /\ resolvable rev ft = true) ->
    typeSafe toRv (mapStructsLoop rec toFields fromFields toRv fromRv).
Proof using rec_safe.
  intros toRv Hto [Hfw Hfr] Hpaths Hfrom. revert toRv Hto.
  induction toFields as [|[name p] toFields IH]; intros toRv Hto; simpl.
  { destruct Hto as [<- ?]. done. }
  assert (Hpaths' : forall n p, (n, p) ∈ toFields ->
            exists ft, fieldAt t p = Some ft /\ resolvable rev ft = true).
  { intros n' p' Hin. apply (Hpaths n' p'). by right. }
  destruct (fromFields !! name) as [q|] eqn:Hq; [|by apply IH].
  destruct (Hpaths name p ltac:(by left)) as (ft & Hat & Hres).
  destruct (Hfrom name q Hq) as (ft' & Hat' & Hres').
  destruct (FieldByIndex_typed p toRv t ft Hto Hat) as (x & -> & Hx).
  destruct (FieldByIndex_typed q fromRv (TypeOf fromRv) ft' ltac:(done) Hat')
    as (y & -> & Hy).
  simpl. pose proof (rec_safe x y) as Hrec.
  destruct Hx as [Hxt Hxw]. destruct Hy as [Hyt Hyw].
  specialize (Hrec ltac:(split; [done | by rewrite Hxt])
                   ltac:(split; [done | by rewrite Hyt])).
  destruct (rec x y) as [[d err]| |]; simpl in *; try done.
  rewrite Hxt in Hrec.
  destruct (SetFieldByIndex_typed p toRv t ft d Hto Hat Hrec)
    as (toRv' & -> & Hto').
  simpl. destruct err as [e|].
  - simpl. destruct Hto as [<- _]. done.
  - specialize (IH Hpaths' toRv' Hto').
    destruct (mapStructsLoop rec toFields fromFields toRv' fromRv)
      as [[d' err']| |]; simpl in *; try done.
    destruct Hto as [Ht _]. destruct Hto' as [Ht' _].
    rewrite Ht, <- Ht'. exact IH.
Qed.

Lemma mapStructs_safe toRv fromRv :
  safe rev toRv -> safe rev fromRv ->
  KindOf (TypeOf toRv) = Struct -> KindOf (TypeOf fromRv) = Struct ->
  typeSafe toRv (mapStructs rev rec toRv fromRv).
Proof using rec_safe.
  intros [Hw Hr] [Hfw Hfr] Htk Hfk. unfold mapStructs.
  destruct (collectStructFields_typed rev _ Hr Htk) as (toFields & -> & Hto).
  destruct (collectStructFields_typed rev _ Hfr Hfk)
    as (fromFields & -> & Hfrom).
  simpl. apply (mapStructsLoop_safe fromFields fromRv (TypeOf toRv)); try done.
  intros n p Hin%elem_of_map_to_list. by eapply Hto.
Qed.

Lemma mapMapLoop_safe k e t mapIt : forall acc,
  underlying t = TMap k e ->
  resolvable rev k = true -> resolvable rev e = true ->
  Forall (fun kv => hasType k kv.1 /\ hasType e kv.2) acc ->
  Forall (fun kv => safe rev kv.1 /\ safe rev kv.2) mapIt ->
  typeSafe (VMap t (Some acc)) (mapMapLoop rec mapIt (VMap t (Some acc))).
Proof using rec_safe.
  intros acc Hu Hk He Hacc Hall. revert acc Hacc.
  induction Hall as [|[key x] mapIt [Hkey Hx] _ IH]; intros acc Hacc; simpl.
  { split; [done|]. apply (proj2 (wellTyped_map _ _)). eauto. }
  unfold Key, Elem. rewrite Hu. simpl.
  pose proof (rec_safe (Zero k) key) as Hrk.
  specialize (Hrk (safe_Zero rev k Hk) Hkey).
  destruct (rec (Zero k) key) as [[toKey [err|]]| |]; simpl in *; try done.
  { split; [done|]. apply (proj2 (wellTyped_map _ _)). eauto. }
  pose proof (rec_safe (Zero e) x) as Hrx.
  specialize (Hrx (safe_Zero rev e He) Hx).
  destruct (rec (Zero e) x) as [[toValue [err|]]| |]; simpl in *; try done.
  { split; [done|]. apply (proj2 (wellTyped_map _ _)). eauto. }
  rewrite TypeOf_Zero in Hrk, Hrx.
  apply (IH (setEntry toKey toValue acc)).
  by apply setEntry_Forall.
Qed.

Lemma mapMap_safe toRv fromRv :
  safe rev toRv -> safe rev fromRv ->
  KindOf (TypeOf toRv) = Map -> KindOf (TypeOf fromRv) = Map ->
  typeSafe toRv (mapMap rec toRv fromRv).
Proof using rec_safe.
  intros [Hw Hr] Hfrom Htk Hfk.
  pose proof (underlying_of_kind (TypeOf toRv)) as Hu. rewrite Htk in Hu.
  destruct Hu as (k & e & Hu).
  destruct (safe_map rev _ Hfrom Hfk) as (mapIt & Hit & Hall).
  unfold mapMap, MakeMapWithSize. rewrite Hu.
  assert (Hlen : Len fromRv = Some (length mapIt)).
  { destruct fromRv; try done. unfold Len. by rewrite Hit. }
  rewrite Hlen, Hit. simpl.
  pose proof (mapMapLoop_safe k e (TypeOf toRv) mapIt [] Hu) as H.
  simpl in H. apply H; try done.
  - eapply resolvable_Key; [|done]. unfold Key. by rewrite Hu.
  - eapply resolvable_Elem; [|done]. unfold Elem. by rewrite Hu.
Qed.

End SafetyTransformers.

(** *** The dispatcher *)

Lemma canonical_ptr v :
  wellTyped v = true -> KindOf (TypeOf v) = Ptr ->
  exists p, v = VPtr (TypeOf v) p.
Proof.
  intros Hw Hk. pose proof (wellTyped_kind v Hw) as Hv.
  destruct v as [t b|t z|t s|t p|t l|t l|t fs]; simpl in *; try congruence.
  - destruct Hv as (b & Hb & _). unfold KindOf in Hk. rewrite Hb in Hk.
    by destruct b.
  - eauto.
Qed.

Lemma runFuncs_typed t fromRv funcs : forall toRv,
  (forall f d, f ∈ funcs -> hasType t d -> hasType t (f d fromRv).1) ->
  hasType t toRv -> hasType t (runFuncs funcs toRv fromRv).1.
Proof.
  induction funcs as [|f funcs IH]; intros toRv Hfs Hto; simpl; [done|].
  pose proof (Hfs f toRv ltac:(by left) Hto) as Hf.
  destruct (f toRv fromRv) as [toRv' [err|]]; simpl in *; [done|].
  apply IH; [|done]. intros g d Hg. apply Hfs. by right.
Qed.

Section SafetyDispatch.

Context {RT : Runtime}.
Variable rev : revision.
Variable m : Mapper.
Hypothesis runtime_sound : soundRuntime RT.
Hypothesis functions_typed : functionsTyped m.
Variable rec : Value -> Value -> outcome result.
Hypothesis rec_safe : forall toRv fromRv,
  safe rev toRv -> safe rev fromRv -> typeSafe toRv (rec toRv fromRv).

Lemma mapComposite_safe toRv fromRv :
  safe rev toRv -> safe rev fromRv ->
  typeSafe toRv (mapComposite rev rec toRv fromRv).
Proof using rec_safe.
  intros Hto Hfrom. unfold mapComposite.
  pose proof Hto as [Hw Hr]. pose proof Hfrom as [Hfw Hfr].
  repeat case_decide.
  - destruct (canonical_ptr _ Hfw ltac:(done)) as [[x|] Hv]; rewrite Hv.
    + apply rec_safe; [done|]. rewrite Hv in Hfw.
      apply wellTyped_ptr in Hfw as (e & Hu & Hxt & Hxw).
      split; [done|]. rewrite Hxt.
      eapply resolvable_Elem; [|exact Hfr]. unfold Elem. by rewrite Hu.
    + by split.
  - destruct (canonical_ptr _ Hw ltac:(done)) as [pointee Hv]. rewrite Hv.
    pose proof (underlying_of_kind (TypeOf toRv)) as Hu.
    replace (KindOf (TypeOf toRv)) with Ptr in Hu by done.
    destruct Hu as [e Hu]. unfold Elem. rewrite Hu. simpl.
    assert (He : resolvable rev e = true).
    { eapply resolvable_Elem; [|exact Hr]. unfold Elem. by rewrite Hu. }
    assert (Hel : hasType e (default (Zero e) pointee)
                  /\ safe rev (default (Zero e) pointee)).
    { destruct pointee as [x|]; simpl.
      - rewrite Hv in Hw. apply wellTyped_ptr in Hw as (e' & Hu' & Hx).
        assert (e' = e) as -> by congruence.
        split; [done|]. destruct Hx as [Hxt Hxw]. split; [done|].
        by rewrite Hxt.
      - split; [apply hasType_Zero | by apply (safe_Zero rev)]. }
    destruct Hel as [[Hxt Hxw] Hsafe].
    pose proof (rec_safe _ fromRv Hsafe Hfrom) as Hrec.
    destruct (rec (default (Zero e) pointee) fromRv) as [[d err]| |];
      simpl in *; try done.
    split; [done|]. apply (proj2 (wellTyped_ptr _ _)). exists e.
    split; [done|]. by rewrite <- Hxt.
  - apply mapStructs_safe; tauto.
  - apply (mapSlice_safe rev); tauto.
  - apply (mapMap_safe rev); tauto.
  - destruct H4 as [Htk Hfk].
    pose proof (mapMapToSlice_safe rev rec rec_safe toRv fromRv Hto Hfrom
                  Htk Hfk) as Hfirst.
    destruct (mapMapToSlice rec toRv fromRv) as [[toRv1 err]| |]; simpl in *;
      try done.
    destruct (KindOf_Elem (TypeOf fromRv) Map Hfk ltac:(tauto))
      as [mapElem Hel].
    rewrite Hel. simpl.
    destruct (errorsAsNoValidMapping err
              && bool_decide (KindOf mapElem = Slice)) eqn:Hcond; [|done].
    apply andb_true_iff in Hcond as [_ Hek%bool_decide_eq_true].
    destruct Hfirst as [Ht1 Hw1].
    pose proof (mapMapSlicesToSlice_safe rev rec rec_safe toRv1 fromRv mapElem)
      as Hsecond.
    rewrite Ht1 in Hsecond.
    specialize (Hsecond ltac:(split; [done | by rewrite Ht1]) Hfrom Htk Hfk
                        Hel Hek).
    destruct (mapMapSlicesToSlice rec toRv1 fromRv) as [[toRv2 [e2|]]| |];
      simpl in *; try done; by rewrite <- Ht1.
  - by split.
Qed.

Lemma mapValueBody_safe toRv fromRv :
  safe rev toRv -> safe rev fromRv ->
  typeSafe toRv (mapValueBody rev rec m toRv fromRv).
Proof using rec_safe runtime_sound functions_typed.
  intros Hto Hfrom. pose proof Hto as [Hw Hr]. pose proof Hfrom as [Hfw Hfr].
  destruct functions_typed as [Hconv _].
  destruct (convFuncFor m (TypeOf fromRv) (TypeOf toRv)) as [f|] eqn:Hf.
  - rewrite (mapValueBody_converted _ _ _ _ _ _ Hf).
    specialize (Hconv _ _ f fromRv Hf ltac:(by split)).
    destruct (f fromRv) as [val [err|]]; simpl; [by split|].
    unfold Set_. by rewrite (withType_hasType _ _ Hconv).
  - rewrite (mapValueBody_not_converted _ _ _ _ _ Hf).
    destruct (if attemptsDirect _ _ _ then _ else _) as [toRv'|] eqn:Hd;
      [|by apply mapComposite_safe].
    destruct (attemptsDirect _ _ _); [|done].
    unfold directOrConvert in Hd.
    destruct (runtime_sound fromRv (TypeOf toRv) Hfw) as [Ha Hc].
    destruct (AssignableTo _ _).
    + injection Hd as <-. simpl. unfold Set_. split; [by destruct fromRv|].
      by apply Ha.
    + destruct (ConvertibleTo _ _); [|done]. injection Hd as <-. simpl.
      unfold Set_. rewrite (withType_hasType _ _ (Hc eq_refl)). by apply Hc.
Qed.

Lemma deferInspect_safe toRv fromRv r :
  wellTyped fromRv = true ->
  typeSafe toRv (Ret r) -> typeSafe toRv (Ret (deferInspect m fromRv r)).
Proof using functions_typed.
  intros Hfw. destruct r as [toRv' [err|]]; simpl; [done|]. intros Hto'.
  rewrite runInspectFuncs_flat.
  destruct functions_typed as [_ Hinspect].
  pose proof (runFuncs_typed (TypeOf toRv) fromRv
    (inspectFuncsFor m (TypeOf toRv') (TypeOf fromRv)
     ++ inspectFuncsFor m (TypeOf toRv') nilRecvRfType) toRv') as H.
  destruct (runFuncs _ toRv' fromRv) as [d err]. simpl in H. apply H; [|done].
  intros f d' Hin Hd'. destruct Hto' as [Ht' _]. rewrite Ht' in Hin.
  apply elem_of_app in Hin as [Hin|Hin]; by eapply Hinspect.
Qed.

End SafetyDispatch.

Lemma mapValue_safe (RT : Runtime) rev m depth :
  soundRuntime RT -> functionsTyped m ->
  forall toRv fromRv,
    safe rev toRv -> safe rev fromRv ->
    typeSafe toRv (mapValue rev depth m toRv fromRv).
Proof.
  intros Hrt Hm. induction depth as [|depth IH]; intros toRv fromRv Hto Hfrom;
    [done|].
  rewrite mapValue_S.
  pose proof (mapValueBody_safe rev m Hrt Hm (mapValue rev depth m) IH
                toRv fromRv Hto Hfrom) as Hbody.
  destruct (mapValueBody rev (mapValue rev depth m) m toRv fromRv)
    as [r| |]; simpl in *; try done.
  apply (deferInspect_safe m Hm); [by destruct Hfrom | done].
Qed.

(** *** The Go runtime is sound *)

Lemma stripTags_underlying a : forall b,
  goruntime.stripTags a = goruntime.stripTags b ->
  goruntime.stripTags (underlying a) = goruntime.stripTags (underlying b).
Proof.
  induction a as [x|n u IH|e _|e _|k e _ _|fs _] using Type_nested_ind;
    intros [y|n' u'|e'|e'|k' e'|fs']; simpl; try done.
  intros [= -> H]. by apply IH.
Qed.

Lemma stripTags_inv u s :
  goruntime.stripTags u = s ->
  match s with
  | TBasic b => u = TBasic b
  | TNamed n s' => exists u', u = TNamed n u' /\ goruntime.stripTags u' = s'
  | TPtr s' => exists e, u = TPtr e /\ goruntime.stripTags e = s'
  | TSlice s' => exists e, u = TSlice e /\ goruntime.stripTags e = s'
  | TMap sk se => exists k e, u = TMap k e /\ goruntime.stripTags k = sk
                              /\ goruntime.stripTags e = se
  | TStruct sfs => exists fs, u = TStruct fs
  end.
Proof. intros <-. destruct u; simpl; eauto. Qed.

Lemma TypeOf_retype v t : TypeOf (goruntime.retype t v) = t.
Proof. by destruct v. Qed.

Lemma stripTags_fields fts fts0 :
  goruntime.stripTags (TStruct fts) = goruntime.stripTags (TStruct fts0) ->
  Forall2 (fun ft ft0 =>
             goruntime.stripTags (Typ ft) = goruntime.stripTags (Typ ft0))
    fts fts0.
Proof.
  simpl. intros [= H]. revert fts0 H.
  induction fts as [|[n t a tg] fts IH]; intros [|[n0 t0 a0 tg0] fts0]; simpl;
    try done.
  intros [= -> Ht -> H]. constructor; [done | by apply IH].
Qed.

Lemma retype_wellTyped v : forall t,
  goruntime.stripTags (underlying t)
  = goruntime.stripTags (underlying (TypeOf v)) ->
  wellTyped v = true -> wellTyped (goruntime.retype t v) = true.
Proof.
  induction v as [t0 b|t0 z|t0 s|t0|t0 x IH|t0|t0 l IH|t0|t0 l IH|t0 fs IH]
    using Value_nested_ind; intros t Ht Hw.
  - simpl in *. apply bool_decide_eq_true in Hw. rewrite Hw in Ht.
    apply stripTags_inv in Ht. rewrite Ht. by apply bool_decide_eq_true.
  - simpl in *. destruct (underlying t0) as [b0| | | | |] eqn:Hu0; try done.
    apply stripTags_inv in Ht. by rewrite Ht.
  - simpl in *. apply bool_decide_eq_true in Hw. rewrite Hw in Ht.
    apply stripTags_inv in Ht. rewrite Ht. by apply bool_decide_eq_true.
  - simpl in *. destruct (underlying t0) as [| |e0| | |] eqn:Hu0; try done.
    apply stripTags_inv in Ht as (e & -> & _). done.
  - apply wellTyped_ptr in Hw as (e0 & Hu0 & Hxt & Hxw).
    simpl in Ht. rewrite Hu0 in Ht.
    apply stripTags_inv in Ht as (e & Hu & He).
    cbn [goruntime.retype]. apply (proj2 (wellTyped_ptr _ _)). exists e.
    split; [done|]. unfold Elem. rewrite Hu. simpl.
    split; [apply TypeOf_retype|]. apply IH; [|done].
    rewrite Hxt. by apply stripTags_underlying.
  - simpl in *. destruct (underlying t0) as [| | |e0| |] eqn:Hu0; try done.
    apply stripTags_inv in Ht as (e & -> & _). done.
  - apply wellTyped_slice in Hw as (e0 & Hu0 & Hl).
    simpl in Ht. rewrite Hu0 in Ht.
    apply stripTags_inv in Ht as (e & Hu & He).
    cbn [goruntime.retype]. apply (proj2 (wellTyped_slice _ _)). exists e.
    split; [done|]. unfold Elem. rewrite Hu. simpl.
    apply Forall_fmap. apply Forall_forall. intros x Hx.
    rewrite Forall_forall in IH, Hl. destruct (Hl x Hx) as [Hxt Hxw].
    split; [apply TypeOf_retype|]. apply IH; [done| |done].
    rewrite Hxt. by apply stripTags_underlying.
  - simpl in *. destruct (underlying t0) as [| | | |k0 e0|] eqn:Hu0; try done.
    apply stripTags_inv in Ht as (k & e & -> & _). done.
  - apply wellTyped_map in Hw as (k0 & e0 & Hu0 & Hl).
    simpl in Ht. rewrite Hu0 in Ht.
    apply stripTags_inv in Ht as (k & e & Hu & Hk & He).
    cbn [goruntime.retype]. apply (proj2 (wellTyped_map _ _)). exists k, e.
    split; [done|]. unfold Elem, Key. rewrite Hu. simpl.
    apply Forall_fmap. apply Forall_forall. intros [key x] Hx.
    rewrite Forall_forall in IH, Hl.
    destruct (Hl _ Hx) as [[Hkt Hkw] [Hxt Hxw]].
    destruct (IH _ Hx) as [IHk IHx]. simpl in *.
    repeat split; try apply TypeOf_retype.
    + apply IHk; [|done]. rewrite Hkt. by apply stripTags_underlying.
    + apply IHx; [|done]. rewrite Hxt. by apply stripTags_underlying.
  - apply wellTyped_struct in Hw as (fts0 & Hu0 & Hl).
    simpl in Ht. rewrite Hu0 in Ht.
    pose proof (stripTags_inv _ _ Ht) as (fts & Hu). simpl in Hu.
    rewrite Hu in Ht. apply stripTags_fields in Ht.
    cbn [goruntime.retype]. apply (proj2 (wellTyped_struct _ _)). exists fts.
    split; [done|]. unfold Fields. rewrite Hu. simpl.
    clear Hu Hu0. revert fts Ht.
    induction Hl as [|f ft0 fs fts0 [Hft Hfw] Hl IHl]; intros fts Ht.
    + apply Forall2_nil_inv_r in Ht as ->. constructor.
    + apply Forall2_cons_inv_r in Ht as (ft & fts' & Hst & Ht & ->).
      apply Forall_cons in IH as [IHf IH].
      constructor; [|by apply IHl].
      split; [apply TypeOf_retype|]. apply IHf; [|done].
      rewrite Hft. by apply stripTags_underlying.
Qed.

Lemma kind_String t : KindOf t = String -> underlying t = TBasic BString.
Proof.
  unfold KindOf. destruct (underlying t) as [[]| | | | |]; simpl; congruence.
Qed.

Lemma kind_integer t :
  goruntime.isInt (KindOf t) || goruntime.isUint (KindOf t) = true ->
  exists b, underlying t = TBasic b /\ isIntegerBasic b = true.
Proof.
  unfold KindOf. destruct (underlying t) as [[]| | | | |]; simpl; try done;
    eauto.
Qed.

Lemma isSliceOf_inv k t :
  goruntime.isSliceOf k t = true ->
  exists b, underlying t = TSlice (TBasic b) /\ basicKind b = k.
Proof.
  unfold goruntime.isSliceOf. destruct (underlying t) as [| | |[]| |]; try done.
  intros ?%bool_decide_eq_true. eauto.
Qed.

Lemma identical_wellTyped v t :
  goruntime.haveIdenticalUnderlyingType t (TypeOf v) false = true ->
  wellTyped v = true -> hasType t (goruntime.retype t v).
Proof.
  intros H%bool_decide_eq_true Hw. split; [apply TypeOf_retype|].
  by apply retype_wellTyped.
Qed.

Lemma convertible_cases src dst :
  goruntime.convertible src dst = true ->
  ((goruntime.isInt (KindOf src) || goruntime.isUint (KindOf src) = true)
   /\ (goruntime.isInt (KindOf dst) || goruntime.isUint (KindOf dst) = true
       \/ KindOf dst = String))
  \/ (KindOf src = String
      /\ (goruntime.isSliceOf Uint8 dst = true
          \/ goruntime.isSliceOf Int32 dst = true))
  \/ (KindOf dst = String
      /\ (goruntime.isSliceOf Uint8 src = true
          \/ goruntime.isSliceOf Int32 src = true))
  \/ goruntime.haveIdenticalUnderlyingType dst src false = true
  \/ (KindOf src = Ptr /\ KindOf dst = Ptr /\ goruntime.hasName dst = false
      /\ exists de se,
           Elem dst = Some de /\ Elem src = Some se
           /\ goruntime.haveIdenticalUnderlyingType de se false = true).
Proof.
  unfold goruntime.convertible.
  rewrite !orb_true_iff, !andb_true_iff, !orb_true_iff, !bool_decide_eq_true,
    !negb_true_iff.
  intros [[[[H|H]|H]|H]|H].
  - left. tauto.
  - right. left. tauto.
  - right. right. left. tauto.
  - right. right. right. left. tauto.
  - right. right. right. right.
    destruct H as [[[[Hdk Hdn] Hsk] Hsn] He].
    split; [done|]. split; [done|]. split; [done|].
    destruct (Elem dst) as [de|], (Elem src) as [se|]; try done. eauto.
Qed.

Lemma isSliceOf_basic k t b :
  underlying t = TBasic b -> goruntime.isSliceOf k t = false.
Proof. unfold goruntime.isSliceOf. by intros ->. Qed.

Lemma convert_typed v t :
  wellTyped v = true -> goruntime.convertible (TypeOf v) t = true ->
  hasType t (goruntime.convert v t).
Proof.
  intros Hw Hc%convertible_cases. pose proof (wellTyped_kind v Hw) as Hk.
  destruct v as [t0 b|t0 z|t0 s|t0 p|t0 l|t0 l|t0 fs]; cbn [TypeOf] in *.
  - (* bool *)
    rewrite Hk in Hc. simpl in Hc.
    rewrite !(isSliceOf_basic _ t0 BBool) in Hc
      by (simpl in Hw; by apply bool_decide_eq_true in Hw).
    destruct Hc as [[? _]|[[? _]|[[_ [?|?]]|[Hc|[? _]]]]]; try done.
    by apply (identical_wellTyped (VBool t0 b)).
  - (* integers *)
    destruct Hk as (b & Hu & Hb). unfold goruntime.convert. cbn [TypeOf].
    case_decide as Hdk.
    + split; [done|]. simpl. apply bool_decide_eq_true. by apply kind_String.
    + split; [done|]. simpl.
      assert (Hsk : forall k, k = String \/ k = Ptr -> KindOf t0 <> k).
      { unfold KindOf. rewrite Hu. intros k [->| ->]; by destruct b. }
      rewrite !(isSliceOf_basic _ t0 b Hu) in Hc.
      destruct Hc as [[_ [Hc|?]]|[[? _]|[[? _]|[Hc|[? _]]]]]; try done.
      * destruct (kind_integer _ Hc) as (b' & -> & ?). done.
      * by destruct (Hsk String ltac:(by left)).
      * apply bool_decide_eq_true in Hc. rewrite Hu in Hc.
        apply stripTags_inv in Hc. by rewrite Hc.
      * by destruct (Hsk Ptr ltac:(by right)).
  - (* strings *)
    unfold goruntime.convert. cbn [TypeOf].
    destruct (goruntime.isSliceOf Uint8 t) eqn:H8.
    { apply isSliceOf_inv in H8 as (b & Hu & Hb).
      split; [done|]. apply (proj2 (wellTyped_slice _ _)). eexists.
      split; [done|]. apply Forall_fmap, Forall_forall. intros z _.
      destruct b; try done. }
    destruct (goruntime.isSliceOf Int32 t) eqn:H32.
    { apply isSliceOf_inv in H32 as (b & Hu & Hb).
      split; [done|]. apply (proj2 (wellTyped_slice _ _)). eexists.
      split; [done|]. apply Forall_fmap, Forall_forall. intros z _.
      destruct b; try done. }
    rewrite Hk in Hc. simpl in Hc.
    rewrite !(isSliceOf_basic _ t0 BString) in Hc
      by (simpl in Hw; by apply bool_decide_eq_true in Hw).
    destruct Hc as [[? _]|[[_ [?|?]]|[[_ [?|?]]|[Hc|[? _]]]]]; try done.
    by apply (identical_wellTyped (VString t0 s)).
  - (* pointers *)
    rewrite Hk in Hc. simpl in Hc.
    assert (Hns : forall k, goruntime.isSliceOf k t0 = false).
    { intros k. unfold goruntime.isSliceOf.
      pose proof (underlying_of_kind t0) as Hu.
      rewrite Hk in Hu. destruct Hu as [e ->]. done. }
    rewrite !Hns in Hc.
    destruct Hc
      as [[? _]|[[? _]|[[_ [?|?]]
         |[Hc|(_ & Hdk & Hn & de & se & Hde & Hse & Hid)]]]]; try done.
    + by apply (identical_wellTyped (VPtr t0 p)).
    + unfold goruntime.convert. split; [done|].
      assert (Ht : t = TPtr de).
      { unfold Elem, KindOf in *. destruct t; simpl in *; simplify_eq; done. }
      subst t. destruct p as [x|]; [|done].
      apply wellTyped_ptr in Hw as (e0 & Hu0 & Hxt & Hxw).
      assert (e0 = se) as ->.
      { unfold Elem in Hse. rewrite Hu0 in Hse. by simplify_eq. }
      cbn [goruntime.retype]. apply (proj2 (wellTyped_ptr _ _)). exists de.
      split; [done|]. simpl. split; [apply TypeOf_retype|].
      apply retype_wellTyped; [|done]. rewrite Hxt.
      by apply bool_decide_eq_true in Hid.
  - (* slices *)
    unfold goruntime.convert. cbn [TypeOf].
    case_decide as Hdk.
    { apply kind_String in Hdk.
      destruct (goruntime.isSliceOf Uint8 t0); (split; [done|]); simpl;
        by apply bool_decide_eq_true. }
    rewrite Hk in Hc. simpl in Hc.
    destruct Hc as [[? _]|[[? _]|[[? _]|[Hc|[? _]]]]]; try done.
    by apply (identical_wellTyped (VSlice t0 l)).
  - (* maps *)
    rewrite Hk in Hc. simpl in Hc.
    assert (Hns : forall k, goruntime.isSliceOf k t0 = false).
    { intros k. unfold goruntime.isSliceOf.
      pose proof (underlying_of_kind t0) as Hu.
      rewrite Hk in Hu. destruct Hu as (k' & e & ->). done. }
    rewrite !Hns in Hc.
    destruct Hc as [[? _]|[[? _]|[[_ [?|?]]|[Hc|[? _]]]]]; try done.
    by apply (identical_wellTyped (VMap t0 l)).
  - (* structs *)
    rewrite Hk in Hc. simpl in Hc.
    assert (Hns : forall k, goruntime.isSliceOf k t0 = false).
    { intros k. unfold goruntime.isSliceOf.
      pose proof (underlying_of_kind t0) as Hu.
      rewrite Hk in Hu. destruct Hu as (fts & ->). done. }
    rewrite !Hns in Hc.
    destruct Hc as [[? _]|[[? _]|[[_ [?|?]]|[Hc|[? _]]]]]; try done.
    by apply (identical_wellTyped (VStruct t0 fs)).
Qed.

Lemma go_soundRuntime : soundRuntime goruntime.go.
Proof.
  intros v t Hw. split.
  - simpl. unfold goruntime.directlyAssignable. case_decide as Heq.
    { intros _. rewrite Heq. by rewrite withType_TypeOf. }
    destruct (goruntime.hasName t && goruntime.hasName (TypeOf v)); [done|].
    intros Hu%bool_decide_eq_true. by rewrite wellTyped_withType.
  - apply convert_typed. done.
Qed.


(** The function of [TestDontSkipFunctions] never returns a value. *)
Lemma functionsTyped_failingConv : functionsTyped examples.mapperDontSkip.
Proof.
  split.
  - intros fromType toType f v Hf _.
    destruct (decide ((fromType, toType)
                      = (examples.string_, examples.string_))) as [Heq|Hne].
    + injection Heq as -> ->. unfold examples.mapperDontSkip in Hf.
      rewrite convFuncFor_AddConvFunc in Hf. by injection Hf as <-.
    + unfold examples.mapperDontSkip in Hf.
      by rewrite convFuncFor_AddConvFunc_ne in Hf.
  - intros toType recvType f toRv fromRv Hin. by apply elem_of_nil in Hin.
Qed.


(** ** The entry points *)

(** X15: [Map] writes through a pointer only.  Where the first step of the
    mapping is a direct assignment, [Map] panics on a destination passed by
    value and assigns to the pointee of a destination passed by pointer;
    it panics on a nil pointer, be it the destination or the source; one
    pointer on the source is removed before the mapping. *)
Theorem Map_writes_through_a_pointer_only
  (RT : Runtime) (rev : revision) (depth : nat) (m : Mapper)
  (toRv fromRv : Value) (toPtr fromPtr : Type_) :
  KindOf (TypeOf toRv) <> Ptr -> KindOf (TypeOf fromRv) <> Ptr ->
  KindOf toPtr = Ptr -> KindOf fromPtr = Ptr ->
  convFuncFor m (TypeOf fromRv) (TypeOf toRv) = None ->
  attemptsDirect rev m (KindOf (TypeOf fromRv)) = true ->
  AssignableTo (TypeOf fromRv) (TypeOf toRv) = true ->
  Mapper_.Map rev (S depth) m toRv fromRv = Panic
  /\ Mapper_.Map rev (S depth) m (VPtr toPtr (Some toRv)) fromRv =
     (let '(toRv', err) := runInspectFuncs m (Set_ toRv fromRv) fromRv in
      Ret (VPtr toPtr (Some toRv'), err))
  /\ dto.Map rev (S depth) (VPtr toPtr (Some toRv)) fromRv =
     Ret (VPtr toPtr (Some (Set_ toRv fromRv)), None)
  /\ Mapper_.Map rev (S depth) m (VPtr toPtr None) fromRv = Panic
  /\ Mapper_.Map rev (S depth) m (VPtr toPtr (Some toRv)) (VPtr fromPtr None)
     = Panic
  /\ (forall to,
        Mapper_.Map rev (S depth) m to (VPtr fromPtr (Some fromRv)) =
        Mapper_.Map rev (S depth) m to fromRv).
Proof.
  intros Htk Hfk Htp Hfp Hconv Hdirect Hassign.
  assert (Hstep : mapValue rev (S depth) m toRv fromRv =
                  Ret (runInspectFuncs m (Set_ toRv fromRv) fromRv)).
  { rewrite mapValue_S, mapValueBody_not_converted by done.
    rewrite Hdirect. unfold directOrConvert. by rewrite Hassign. }
  assert (Hro : mapValueUnaddressable rev (S depth) m toRv fromRv = Panic).
  { cbn [mapValueUnaddressable]. unfold mapValueBodyUnaddressable.
    rewrite (runConvFuncs_none _ _ _ Hconv), Hdirect.
    unfold directOrConvert. by rewrite Hassign. }
  unfold dto.Map, Mapper_.Map, reflectValueRemovePtr. cbn [TypeOf].
  destruct (decide (KindOf (TypeOf toRv) = Ptr)) as [?|_]; [done|].
  destruct (decide (KindOf (TypeOf fromRv) = Ptr)) as [?|_]; [done|].
  destruct (decide (KindOf toPtr = Ptr)) as [_|?]; [|done].
  destruct (decide (KindOf fromPtr = Ptr)) as [_|?]; [|done].
  cbn [mbind outcome_bind orPanic].
  split; [done|]. split.
  { rewrite Hstep. cbn [mbind outcome_bind].
    by destruct (runInspectFuncs m (Set_ toRv fromRv) fromRv). }
  split.
  { rewrite mapValue_S, mapValueBody_not_converted by done.
    cbn [attemptsDirect]. replace (attemptsDirect rev emptyMapper _) with true
      by (by destruct rev).
    unfold directOrConvert. by rewrite Hassign. }
  split; [done|]. split; [done|].
  done.
Qed.

(** [Map(0, 5)] panics, [Map(&x, 5)] sets [x]. *)
Lemma Map_writes_through_a_pointer_only_witness :
  Mapper_.Map dto_go 1 emptyMapper (Zero examples.int) examples.five = Panic
  /\ Mapper_.Map dto_go 1 emptyMapper
       (examples.intPtr (Some (Zero examples.int))) examples.five
     = Ret (examples.intPtr (Some examples.five), None).
Proof.
  destruct (Map_writes_through_a_pointer_only goruntime.go dto_go 0 emptyMapper
              (Zero examples.int) examples.five (TPtr examples.int)
              (TPtr examples.int))
    as (H1 & H2 & _); try first [reflexivity | discriminate].
  split; [exact H1 | exact H2].
Defined.

(** ** A destination passed by value *)

Lemma SetFieldByIndex_same p : forall v x,
  FieldByIndex v p = Some x -> SetFieldByIndex v p x = Some v.
Proof.
  induction p as [|i p IH]; intros v x; simpl.
  - by intros [= ->].
  - destruct v as [| | | | | |t fs]; try done.
    destruct (fs !! i) as [f|] eqn:Hf; simpl; [|done].
    intros Hx. rewrite (IH _ _ Hx). simpl. by rewrite list_insert_id.
Qed.

Lemma FieldByIndex_holdsNoPointee p : forall v x,
  FieldByIndex v p = Some x -> holdsNoPointee v = true ->
  holdsNoPointee x = true.
Proof.
  induction p as [|i p IH]; intros v x; simpl.
  - by intros [= ->].
  - destruct v as [| | | | | |t fs]; try done.
    destruct (fs !! i) as [f|] eqn:Hf; simpl; [|done].
    intros Hx Hfs. apply (IH f x Hx).
    apply Is_true_true. apply Is_true_true, forallb_True in Hfs.
    rewrite Forall_forall in Hfs. apply Hfs.
    by eapply list_elem_of_lookup_2.
Qed.

Section ByValue.

Variable rec : Value -> Value -> outcome result.
Hypothesis rec_unchanged : forall toRv fromRv d err,
  holdsNoPointee toRv = true -> rec toRv fromRv = Ret (d, err) -> d = toRv.

Lemma mapStructsLoop_unchanged toFields (fromFields : structValueMap) fromRv :
  forall toRv d err,
    holdsNoPointee toRv = true ->
    mapStructsLoop rec toFields fromFields toRv fromRv = Ret (d, err) ->
    d = toRv.
Proof using rec_unchanged.
  induction toFields as [|[name p] toFields IH]; intros toRv d err Hno; simpl.
  - by intros [= <- _].
  - destruct (fromFields !! name) as [q|]; [|by apply IH].
    destruct (FieldByIndex toRv p) as [x|] eqn:Hx; simpl; [|done].
    destruct (FieldByIndex fromRv q) as [y|]; simpl; [|done].
    destruct (rec x y) as [[x' e]| |] eqn:Hrec; simpl; try done.
    apply rec_unchanged in Hrec as ->;
      [|by eapply FieldByIndex_holdsNoPointee].
    rewrite (SetFieldByIndex_same _ _ _ Hx). simpl.
    destruct e as [e|]; [by intros [= <- _]|]. by apply IH.
Qed.

End ByValue.

Lemma mapValueUnaddressable_unchanged (RT : Runtime) rev m depth :
  forall toRv fromRv d err,
    holdsNoPointee toRv = true ->
    mapValueUnaddressable rev depth m toRv fromRv = Ret (d, err) ->
    d = toRv.
Proof.
  induction depth as [|depth IH]; intros toRv fromRv d err Hno; [done|].
  cbn [mapValueUnaddressable].
  destruct (mapValueBodyUnaddressable rev _ _ m toRv fromRv)
    as [[toRv' err']| |] eqn:Hbody; simpl; try done.
  assert (toRv' = toRv) as ->.
  { revert Hbody. unfold mapValueBodyUnaddressable.
    destruct (runConvFuncs m toRv fromRv) as [[? [|]] [?|]]; try done.
    - by intros [= <- _].
    - destruct (if attemptsDirect _ _ _ then _ else _); [done|].
      unfold mapCompositeUnaddressable. repeat case_decide; try done.
      + destruct fromRv as [| | |? [?|]| | |]; try done.
        * by apply IH.
        * by intros [= <- _].
      + destruct toRv as [| | |? [?|]| | |]; done.
      + unfold mapStructs.
        destruct (collectStructFields rev [] (TypeOf toRv) ∅); simpl; [|done].
        destruct (collectStructFields rev [] (TypeOf fromRv) ∅); simpl;
          [|done].
        by apply (mapStructsLoop_unchanged _ IH).
      + by intros [= <- _].
    - destruct (if attemptsDirect _ _ _ then _ else _); [done|].
      unfold mapCompositeUnaddressable. repeat case_decide; try done.
      + destruct fromRv as [| | |? [?|]| | |]; try done.
        * by apply IH.
        * by intros [= <- _].
      + destruct toRv as [| | |? [?|]| | |]; done.
      + unfold mapStructs.
        destruct (collectStructFields rev [] (TypeOf toRv) ∅); simpl; [|done].
        destruct (collectStructFields rev [] (TypeOf fromRv) ∅); simpl;
          [|done].
        by apply (mapStructsLoop_unchanged _ IH).
      + by intros [= <- _]. }
  destruct err' as [e|]; [by intros [= <- _]|].
  unfold runInspectFuncsUnaddressable.
  destruct (tlookup (postFunc m) (TypeOf toRv)); [|by intros [= <- _]].
  destruct (forallb _ _); [by intros [= <- _] | done].
Qed.

(** X16: a destination passed by value is never changed.  When the argument
    [to] of [Map] is not a pointer and holds no pointee, [Map] panics, or it
    returns with [to] as it was. *)
Theorem Map_by_value_changes_nothing
  (RT : Runtime) (rev : revision) (depth : nat) (m : Mapper)
  (to from d : Value) (err : option error) :
  KindOf (TypeOf to) <> Ptr -> holdsNoPointee to = true ->
  Mapper_.Map rev depth m to from = Ret (d, err) ->
  d = to.
Proof.
  intros Hk Hno. unfold Mapper_.Map, reflectValueRemovePtr.
  destruct (decide (KindOf (TypeOf to) = Ptr)) as [?|_]; [done|].
  cbn [mbind outcome_bind orPanic].
  destruct (decide (KindOf (TypeOf from) = Ptr)).
  - destruct from as [| | |? [?|]| | |]; try done.
    by apply mapValueUnaddressable_unchanged.
  - by apply mapValueUnaddressable_unchanged.
Qed.

(** Two structs without a common field name, the destination passed by
    value: [Map] returns, having done nothing. *)
Lemma Map_by_value_changes_nothing_witness :
  exists d,
    Mapper_.Map (RT:=goruntime.go) dto_go 1 emptyMapper examples.nameAndLink
      (VStruct (TStruct [examples.field "Id" examples.int])
         [VInt examples.int 4])
    = Ret (d, None)
    /\ d = examples.nameAndLink.
Proof.
  eexists. split; [reflexivity|].
  apply (Map_by_value_changes_nothing goruntime.go dto_go 1 emptyMapper
           examples.nameAndLink
           (VStruct (TStruct [examples.field "Id" examples.int])
              [VInt examples.int 4])
           examples.nameAndLink None);
    first [discriminate | reflexivity].
Defined.
